(** * Gapless audio playback scheduling in the Gemini voice client

    A shallow embedding of the audio logic of the browser client:

    - [Pcm]: the 16-bit PCM chunk decoder ([decodeAudioData]) and the
      Web Audio buffer it fills;
    - [App]: the streaming message handler [handleOnMessage], the interrupt
      [stopAudioPlayback] and [mergeUint8Arrays] of the main component;
    - [AudioPlayer]: the single-clip replay control ([handlePlay],
      [handlePause], [handleReplay]);
    - [Samples]: concrete payloads and sessions for the examples;
    - [Transcription], [Timeline]: the fragments of a turn and the stretches
      of context time given to the started nodes;
    - [Batch], [Capture]: the reply of [stopAndSendBatch] and the flattening
      of recorded chunks;
    - [PlayerView]: the progress bar and the voices of the player;
    - [PersonaModal]: the countdown, capture and analysis of the voice
      persona modal;
    - [History]: the transcripts as written to and read from local storage;
    - [Interleaving]: runs in which messages arrive and decodes complete in
      any order;
    - [Wire]: a message as it arrives, whose model turn may lack its parts;
    - [AsyncPlayer]: the player with [handlePlay] split at its suspensions.

    The definitions come first; the properties follow, grouped by
    component.

    Conventions.  JavaScript numbers that carry times (seconds on the
    AudioContext clock) are modelled as exact rationals [Qc]; the code only
    applies [Math.max], [Math.min], [+], [-] and comparisons to them.  Every
    read of [audioContext.currentTime] is an input [now] of the handler that
    performs it.  Objects with identity (buffer source nodes) live in a heap
    [nodes], a list indexed by allocation order, and are referred to by their
    index.  React state updates made by a handler are applied to the
    component state at once, in the order the handler issues them, and an
    updater that reads a ref reads it at that moment; the values a handler
    closes over (the render it was created in) are passed to it as an
    explicit snapshot.  An [async] handler is split at its [await]: the part
    before it, and a continuation that the event loop runs later.
    [AudioPlayer] runs a call of [handlePlay] to its end in one step;
    [AsyncPlayer] splits it, and the two agree when no event falls between
    the click and the end of the call. *)

From Stdlib Require Import QArith Qcanon ZArith List.
From Stdlib.Strings Require Import Byte.
From stdpp Require Import base numbers list strings gmap.

(** ** Numbers *)

(** [Math.max] and [Math.min] on times. *)
Definition Qcmax (x y : Qc) : Qc :=
  match (x ?= y)%Qc with Lt => y | _ => x end.

Definition Qcmin (x y : Qc) : Qc :=
  match (x ?= y)%Qc with Gt => y | _ => x end.

(** The rational [n / d] for a natural count [n] and a positive rate [d]. *)
Definition ratio (n : nat) (d : positive) : Qc := Q2Qc (Z.of_nat n # d).

(** ** PCM buffers and the chunk decoder *)

Module Pcm.

(** A Web Audio [AudioBuffer] as created by [createBuffer(numberOfChannels,
    length, sampleRate)]: [frames] is its [length]; [channels] holds one list
    of samples per channel. *)
Record AudioBuffer := mkAudioBuffer {
  numberOfChannels : nat;
  frames : nat;
  sampleRate : positive;
  channels : list (list Qc)
}.

(** [AudioBuffer.duration] is [length / sampleRate]. *)
Definition duration (b : AudioBuffer) : Qc := ratio (frames b) (sampleRate b).

(** [getChannelData(c)[i]]. *)
Definition sample (b : AudioBuffer) (c i : nat) : option Qc :=
  channels b !! c ≫= λ ch, ch !! i.

Definition byte_val (b : byte) : Z := Z.of_N (Byte.to_N b).

(** The signed 16-bit value of two bytes, low byte first. *)
Definition int16_le (lo hi : byte) : Z :=
  let u := (byte_val lo + 256 * byte_val hi)%Z in
  if (32768 <=? u)%Z then (u - 65536)%Z else u.

(** The [Int16Array] view over the bytes: complete pairs only. *)
Fixpoint int16_view (data : list byte) : list Z :=
  match data with
  | lo :: hi :: rest => int16_le lo hi :: int16_view rest
  | _ => []
  end.

(** The samples of channel [c] in a stream interleaved over [period]
    channels: those at the positions [i * period + c].  [phase] counts down
    to the next sample of the channel. *)
Fixpoint deinterleave (period phase : nat) (l : list Z) : list Z :=
  match l with
  | [] => []
  | z :: l' =>
      match phase with
      | O => z :: deinterleave period (period - 1) l'
      | S p => deinterleave period p l'
      end
  end.

(** Modelled from the spec: [decodeAudioData] of [utils/audioUtils], which
    the components import but which is not among the sources.  Section 4.1:
    the buffer has [byteLength / 2 / channelCount] frames at the target sample
    rate, sample [i] of channel [c] is the interleaved 16-bit sample
    [i * channelCount + c] divided by 32768, the conversion is total and pure,
    and an incomplete final sample is discarded. *)
Definition decodeAudioData (data : list byte) (rate : positive)
    (numChannels : nat) : AudioBuffer :=
  let dataInt16 := int16_view data in
  let frameCount := (length dataInt16 / numChannels)%nat in
  {| numberOfChannels := numChannels;
     frames := frameCount;
     sampleRate := rate;
     channels :=
       (λ c, (λ z, Q2Qc (z # 32768))
               <$> take frameCount (deinterleave numChannels c dataInt16))
         <$> seq 0 numChannels |}.

End Pcm.

(** ** The streaming component *)

Module App.

Inductive Speaker := user | model.
Inductive Mode := streaming | batch.

Global Instance Speaker_eq_dec : EqDecision Speaker.
Proof. solve_decision. Defined.
Global Instance Mode_eq_dec : EqDecision Mode.
Proof. solve_decision. Defined.

Record TranscriptEntry := mkEntry {
  speaker : Speaker;
  text : string;
  mode : Mode;
  pcmData : option (list byte);
  timestamp : Z
}.

(** [{ ...entry, text }] and [{ ...entry, pcmData }]. *)
Definition with_text (t : string) (e : TranscriptEntry) : TranscriptEntry :=
  mkEntry (speaker e) t (mode e) (pcmData e) (timestamp e).
Definition with_pcmData (pcm : list byte) (e : TranscriptEntry) : TranscriptEntry :=
  mkEntry (speaker e) (text e) (mode e) (Some pcm) (timestamp e).

(** [AudioContext.state]; the component never closes a context. *)
Inductive ContextState := running | suspended.

(** An [AudioBufferSourceNode]: not yet started, started for the context time
    [when], or finished (played to its end, or stopped). *)
Inductive PlayState := Unstarted | Scheduled (when : Qc) | Finished.

Record SourceNode := mkNode {
  buffer : Pcm.AudioBuffer;
  playState : PlayState
}.

(** [source.stop()]: an [InvalidStateError] ([None]) on a node that was never
    started, silence otherwise; on a finished node nothing changes. *)
Definition node_stop (n : SourceNode) : option SourceNode :=
  match playState n with
  | Unstarted => None
  | Scheduled _ | Finished => Some (mkNode (buffer n) Finished)
  end.

(** The refs and the state of the component that the handlers touch. *)
Record Store := mkStore {
  transcripts : list TranscriptEntry;
  outputAudioContext : option ContextState;
  currentModelAudioChunks : list (list byte);
  currentInputTranscription : string;
  currentOutputTranscription : string;
  nextStartTime : Qc;
  audioSources : gset nat;
  nodes : list SourceNode
}.

(** The fields of a [LiveServerMessage] that [handleOnMessage] reads:
    [serverContent?.outputTranscription?.text], [...inputTranscription?.text],
    [...turnComplete], [...modelTurn?.parts[0]?.inlineData?.data] and
    [...interrupted]. *)
Record LiveServerMessage := mkMessage {
  outputTranscription : option string;
  inputTranscription : option string;
  turnComplete : bool;
  inlineData : option string;
  interrupted : bool
}.

(** *** mergeUint8Arrays *)

(** [result.set(arr, offset)] on a typed array: a [RangeError] ([None]) when
    the source does not fit, otherwise the bytes are overwritten in place. *)
Definition typed_set (result arr : list byte) (offset : nat) : option (list byte) :=
  if decide (offset + length arr ≤ length result)%nat
  then Some (take offset result ++ arr ++ drop (offset + length arr) result)
  else None.

(** The loop [for (const arr of arrays) { result.set(arr, offset); offset +=
    arr.length }]. *)
Fixpoint merge_loop (arrays : list (list byte)) (result : list byte)
    (offset : nat) : option (list byte) :=
  match arrays with
  | [] => Some result
  | arr :: rest =>
      result' ← typed_set result arr offset;
      merge_loop rest result' (offset + length arr)
  end.

Definition mergeUint8Arrays (arrays : list (list byte)) : option (list byte) :=
  let totalLength := foldl (λ acc arr, acc + length arr)%nat 0%nat arrays in
  let result := replicate totalLength x00 in
  merge_loop arrays result 0.

(** *** Transcript updates *)

(** [l.lastIndexOf(x)], with [None] for [-1]. *)
Fixpoint lastIndexOf_from {A} `{EqDecision A} (x : A) (l : list A) (i : nat)
    : option nat :=
  match l with
  | [] => None
  | y :: l' =>
      match lastIndexOf_from x l' (S i) with
      | Some j => Some j
      | None => if decide (y = x) then Some i else None
      end
  end.
Definition lastIndexOf {A} `{EqDecision A} (x : A) (l : list A) : option nat :=
  lastIndexOf_from x l 0.

(** The updater of the two transcription branches: rewrite the text of the
    last entry when it is a streaming entry of speaker [sp], append a new
    entry otherwise. *)
Definition upsert_last (sp : Speaker) (t : string) (wall : Z)
    (prev : list TranscriptEntry) : list TranscriptEntry :=
  match last prev with
  | Some l =>
      if decide (speaker l = sp ∧ mode l = streaming)
      then removelast prev ++ [with_text t l]
      else prev ++ [mkEntry sp t streaming None wall]
  | None => prev ++ [mkEntry sp t streaming None wall]
  end.

(** The updater of the turn-complete branch. *)
Definition attach_pcm (fullPcm : list byte) (prev : list TranscriptEntry)
    : list TranscriptEntry :=
  match lastIndexOf model (speaker <$> prev) with
  | Some lastModelIndex => alter (with_pcmData fullPcm) lastModelIndex prev
  | None => prev
  end.

(** *** stopAudioPlayback *)

(** [try { source.stop(); } catch(e) {}] on the node [id] of the heap.  Calls
    on different nodes commute, so the order in which [forEach] visits the
    set does not matter. *)
Definition try_stop (id : nat) (heap : list SourceNode) : list SourceNode :=
  match heap !! id ≫= node_stop with
  | Some n' => <[id := n']> heap
  | None => heap
  end.

Definition stopAudioPlayback (st : Store) : Store :=
  match outputAudioContext st with
  | Some _ =>
      mkStore (transcripts st) (outputAudioContext st)
        (currentModelAudioChunks st)
        (currentInputTranscription st) (currentOutputTranscription st)
        0%Qc ∅ (set_fold try_stop (nodes st) (audioSources st))
  | None => st
  end.

(** *** handleOnMessage *)

(** A handler suspended at [await decodeAudioData(...)]: what its
    continuation still reads, the decoded bytes and [message]. *)
Record Cont := mkCont {
  k_decoded : list byte;
  k_interrupted : bool
}.

(** How far an [async] handler got: it returned, it is suspended at an
    [await], or it threw (its promise is rejected). *)
Inductive Progress :=
  | Completed (st : Store)
  | Awaiting (st : Store) (k : Cont)
  | Rejected (st : Store).

(** The store a handler leaves behind, however far it got. *)
Definition progress_store (p : Progress) : Store :=
  match p with
  | Completed st | Awaiting st _ | Rejected st => st
  end.

Section Handlers.

(** [decode] (base64 to bytes) and [decodeAudioData] are imported from
    [utils/audioUtils]; the handlers are modelled for any such pair. *)
Variable decode : string → list byte.
Variable decodeAudioData : list byte → positive → nat → Pcm.AudioBuffer.

(** The branches on [outputTranscription] and [inputTranscription].  The
    updater is applied with the text the ref holds when the branch runs. *)
Definition transcription_block (m : LiveServerMessage) (wall : Z) (st : Store)
    : Store :=
  match outputTranscription m with
  | Some t =>
      let cur := currentOutputTranscription st +:+ t in
      mkStore (upsert_last model cur wall (transcripts st))
        (outputAudioContext st) (currentModelAudioChunks st)
        (currentInputTranscription st) cur
        (nextStartTime st) (audioSources st) (nodes st)
  | None =>
      match inputTranscription m with
      | Some t =>
          let cur := currentInputTranscription st +:+ t in
          mkStore (upsert_last user cur wall (transcripts st))
            (outputAudioContext st) (currentModelAudioChunks st)
            cur (currentOutputTranscription st)
            (nextStartTime st) (audioSources st) (nodes st)
      | None => st
      end
  end.

(** The branch on [turnComplete]; [None] when [mergeUint8Arrays] throws. *)
Definition turnComplete_block (m : LiveServerMessage) (st : Store)
    : option Store :=
  if turnComplete m then
    st1 ← match currentModelAudioChunks st with
          | [] => Some st
          | _ :: _ =>
              fullPcm ← mergeUint8Arrays (currentModelAudioChunks st);
              Some (mkStore (attach_pcm fullPcm (transcripts st))
                      (outputAudioContext st) []
                      (currentInputTranscription st)
                      (currentOutputTranscription st)
                      (nextStartTime st) (audioSources st) (nodes st))
          end;
    Some (mkStore (transcripts st1) (outputAudioContext st1)
            (currentModelAudioChunks st1) EmptyString EmptyString
            (nextStartTime st1) (audioSources st1) (nodes st1))
  else Some st.

(** The guard [base64Audio && outputAudioContextRef.current]: the payload is
    present, not the empty string, and an output context exists. *)
Definition audio_guard (m : LiveServerMessage) (st : Store) : option string :=
  match inlineData m, outputAudioContext st with
  | Some base64Audio, Some _ =>
      if decide (base64Audio = EmptyString) then None else Some base64Audio
  | _, _ => None
  end.

(** [currentModelAudioChunksRef.current.push(decoded)]. *)
Definition push_chunk (decoded : list byte) (st : Store) : Store :=
  mkStore (transcripts st) (outputAudioContext st)
    (currentModelAudioChunks st ++ [decoded])
    (currentInputTranscription st) (currentOutputTranscription st)
    (nextStartTime st) (audioSources st) (nodes st).

(** [nextStartTimeRef.current = Math.max(nextStartTimeRef.current,
    audioContext.currentTime)]. *)
Definition clamp_cursor (now : Qc) (st : Store) : Store :=
  mkStore (transcripts st) (outputAudioContext st)
    (currentModelAudioChunks st)
    (currentInputTranscription st) (currentOutputTranscription st)
    (Qcmax (nextStartTime st) now) (audioSources st) (nodes st).

(** After the decode: create the source node, start it at the cursor,
    advance the cursor by the buffer's duration, track the node. *)
Definition schedule (decoded : list byte) (st : Store) : Store :=
  let audioBuffer := decodeAudioData decoded 24000 1 in
  let source := length (nodes st) in
  mkStore (transcripts st) (outputAudioContext st)
    (currentModelAudioChunks st)
    (currentInputTranscription st) (currentOutputTranscription st)
    (nextStartTime st + Pcm.duration audioBuffer)%Qc
    ({[source]} ∪ audioSources st)
    (nodes st ++ [mkNode audioBuffer (Scheduled (nextStartTime st))]).

(** The branch on [interrupted]. *)
Definition interrupted_block (flag : bool) (st : Store) : Store :=
  if flag then
    let st1 := stopAudioPlayback st in
    mkStore (transcripts st1) (outputAudioContext st1) []
      (currentInputTranscription st1) (currentOutputTranscription st1)
      (nextStartTime st1) (audioSources st1) (nodes st1)
  else st.

(** [handleOnMessage] up to its [await]. *)
Definition handleOnMessage_begin (m : LiveServerMessage) (now : Qc) (wall : Z)
    (st : Store) : Progress :=
  let st0 := transcription_block m wall st in
  match turnComplete_block m st0 with
  | None => Rejected st0
  | Some st1 =>
      match audio_guard m st1 with
      | Some base64Audio =>
          let decoded := decode base64Audio in
          Awaiting (clamp_cursor now (push_chunk decoded st1))
                   (mkCont decoded (interrupted m))
      | None => Completed (interrupted_block (interrupted m) st1)
      end
  end.

(** [handleOnMessage] from the completion of the decode to its end. *)
Definition handleOnMessage_resume (k : Cont) (st : Store) : Store :=
  interrupted_block (k_interrupted k) (schedule (k_decoded k) st).

(** One run of [handleOnMessage] during whose [await] no other handler
    runs.  [now] is the value read from [audioContext.currentTime], [wall]
    the value of [Date.now()]. *)
Definition handleOnMessage (m : LiveServerMessage) (now : Qc) (wall : Z)
    (st : Store) : Progress :=
  match handleOnMessage_begin m now wall st with
  | Awaiting st1 k => Completed (handleOnMessage_resume k st1)
  | p => p
  end.

(** A fulfilled [audioContext.resume()]. *)
Definition set_running (st : Store) : Store :=
  mkStore (transcripts st) (Some running) (currentModelAudioChunks st)
    (currentInputTranscription st) (currentOutputTranscription st)
    (nextStartTime st) (audioSources st) (nodes st).

(** The second revision of the handler in the sources (the copy of the
    component whose storage keys end in [_v2]), run in one piece.  It differs
    in one line: after pushing the chunk and before reading the clock it runs
    [if (audioContext.state === 'suspended') await audioContext.resume()].
    [resume_ok] tells whether that promise is fulfilled; when it is rejected
    the handler throws at the [await]. *)
Definition handleOnMessage_v2 (m : LiveServerMessage) (now : Qc) (wall : Z)
    (resume_ok : bool) (st : Store) : Progress :=
  let st0 := transcription_block m wall st in
  match turnComplete_block m st0 with
  | None => Rejected st0
  | Some st1 =>
      match audio_guard m st1 with
      | Some base64Audio =>
          let decoded := decode base64Audio in
          let st2 := push_chunk decoded st1 in
          let continue st3 :=
            Completed (interrupted_block (interrupted m)
                         (schedule decoded (clamp_cursor now st3))) in
          match outputAudioContext st2 with
          | Some suspended =>
              if resume_ok then continue (set_running st2) else Rejected st2
          | _ => continue st2
          end
      | None => Completed (interrupted_block (interrupted m) st1)
      end
  end.

(** *** The event loop *)

(** The component between two tasks: its store and the handlers suspended
    at their decode. *)
Record World := mkWorld {
  store : Store;
  pending : list Cont
}.

Inductive Event :=
  | Message (m : LiveServerMessage) (now : Qc) (wall : Z)
  | DecodeDone (i : nat)
  | Ended (id : nat)
  | StopAll
  | StartStreaming (s : ContextState)
  | BatchOutput (s : ContextState).

(** The ['ended'] event on node [id]: the node has finished and its listener
    removes it from [audioSourcesRef]. *)
Definition ended (id : nat) (st : Store) : Store :=
  mkStore (transcripts st) (outputAudioContext st)
    (currentModelAudioChunks st)
    (currentInputTranscription st) (currentOutputTranscription st)
    (nextStartTime st) (audioSources st ∖ {[id]})
    (alter (λ n, mkNode (buffer n) Finished) id (nodes st)).

(** [startStreaming] empties the chunk list and installs a fresh output
    context; [stopAndSendBatch] installs one only when there is none. *)
Definition startStreaming (s : ContextState) (st : Store) : Store :=
  mkStore (transcripts st) (Some s) []
    (currentInputTranscription st) (currentOutputTranscription st)
    (nextStartTime st) (audioSources st) (nodes st).

Definition batchOutput (s : ContextState) (st : Store) : Store :=
  match outputAudioContext st with
  | Some _ => st
  | None =>
      mkStore (transcripts st) (Some s) (currentModelAudioChunks st)
        (currentInputTranscription st) (currentOutputTranscription st)
        (nextStartTime st) (audioSources st) (nodes st)
  end.

Definition step (w : World) (e : Event) : World :=
  match e with
  | Message m now wall =>
      match handleOnMessage_begin m now wall (store w) with
      | Completed st | Rejected st => mkWorld st (pending w)
      | Awaiting st k => mkWorld st (pending w ++ [k])
      end
  | DecodeDone i =>
      match pending w !! i with
      | Some k => mkWorld (handleOnMessage_resume k (store w)) (delete i (pending w))
      | None => w
      end
  | Ended id => mkWorld (ended id (store w)) (pending w)
  | StopAll => mkWorld (stopAudioPlayback (store w)) (pending w)
  | StartStreaming s => mkWorld (startStreaming s (store w)) (pending w)
  | BatchOutput s => mkWorld (batchOutput s (store w)) (pending w)
  end.

Definition run (w : World) (es : list Event) : World := foldl step w es.

(** The component as mounted: every ref at its [useRef] initial value (the
    transcript history comes from local storage). *)
Definition initial (history : list TranscriptEntry) : World :=
  mkWorld (mkStore history None [] EmptyString EmptyString 0%Qc ∅ []) [].

Inductive reachable : World → Prop :=
  | reachable_initial history : reachable (initial history)
  | reachable_step w e : reachable w → reachable (step w e).

(** The model-audio branch of [handleOnMessage] run in one piece: lines
    [decode] to [audioSourcesRef.current.add(source)]. *)
Definition enqueue (base64Audio : string) (now : Qc) (st : Store) : Store :=
  let decoded := decode base64Audio in
  schedule decoded (clamp_cursor now (push_chunk decoded st)).

(** A sequence of messages, each handled to its end before the next
    arrives. *)
Definition Arrival : Type := LiveServerMessage * Qc * Z.

Definition handle_all (msgs : list Arrival) (st : Store) : Store :=
  foldl (λ st '(m, now, wall), progress_store (handleOnMessage m now wall st))
        st msgs.

(** Each message carries audio and no interruption. *)
Definition plain_audio (a : Arrival) : Prop :=
  (∃ s, inlineData a.1.1 = Some s ∧ s ≠ EmptyString) ∧ interrupted a.1.1 = false.

(** The buffer decoded from a message's payload. *)
Definition buffer_of (a : Arrival) : Pcm.AudioBuffer :=
  decodeAudioData (decode (default EmptyString (inlineData a.1.1))) 24000 1.

(** The clock reading of each enqueue is not later than the cursor the
    enqueue finds. *)
Fixpoint clock_behind (msgs : list Arrival) (st : Store) : Prop :=
  match msgs with
  | [] => True
  | (m, now, wall) :: rest =>
      (now ≤ nextStartTime st)%Qc ∧
      clock_behind rest (progress_store (handleOnMessage m now wall st))
  end.

(** An event whose handler runs the [interrupted] branch or [stopAll]. *)
Definition resets (w : World) (e : Event) : bool :=
  match e with
  | StopAll => true
  | Message m _ _ => interrupted m
  | DecodeDone i => from_option k_interrupted false (pending w !! i)
  | _ => false
  end.

End Handlers.

(** The events that interrupt playback: [stopAll], and a message flagged
    [interrupted] that carries no audio of its own. *)
Definition interrupts (e : Event) : Prop :=
  match e with
  | StopAll => True
  | Message m _ _ => interrupted m = true ∧ inlineData m = None
  | _ => False
  end.

(** Two stores that agree on everything the scheduler owns. *)
Definition same_sched (st st' : Store) : Prop :=
  outputAudioContext st' = outputAudioContext st ∧
  nextStartTime st' = nextStartTime st ∧
  audioSources st' = audioSources st ∧
  nodes st' = nodes st.

(** What holds of every store the component can be in: without an output
    context nothing is tracked and the cursor is at its initial 0, and every
    tracked node exists and has been started. *)
Definition store_inv (st : Store) : Prop :=
  (outputAudioContext st = None →
   audioSources st = ∅ ∧ nextStartTime st = 0%Qc) ∧
  (∀ id, id ∈ audioSources st →
     ∃ n, nodes st !! id = Some n ∧ playState n ≠ Unstarted).

(** A handler can only be suspended at a decode if it saw an output
    context. *)
Definition world_inv (w : World) : Prop :=
  store_inv (store w) ∧
  (outputAudioContext (store w) = None → pending w = []).

(** Sums of durations. *)
Definition Qcsum (l : list Qc) : Qc := foldr Qcplus 0%Qc l.

(** Nodes started back to back from time [c]. *)
Fixpoint back_to_back (c : Qc) (bufs : list Pcm.AudioBuffer) : list SourceNode :=
  match bufs with
  | [] => []
  | b :: rest =>
      mkNode b (Scheduled c) :: back_to_back (c + Pcm.duration b)%Qc rest
  end.

(** What [stop()] inside [try]/[catch] leaves of a node. *)
Definition stop_or_keep (n : SourceNode) : SourceNode :=
  default n (node_stop n).

End App.

(** ** The single-clip player *)

Module AudioPlayer.

(** The React state of the component, which is also what a handler created
    in a render closes over. *)
Record Render := mkRender {
  isPlaying : bool;
  playbackOffset : Qc;
  duration : Qc
}.

(** A source node of the player: the buffer offset passed to
    [source.start(0, startAt)], or finished.  [closure] is the render whose
    [isPlaying] and [playbackOffset] the node's [onended] handler reads. *)
Inductive PlayState := Playing (startAt : Qc) | Finished.

Record SourceNode := mkNode {
  playState : PlayState;
  closure : Render
}.

Record Player := mkPlayer {
  state : Render;
  audioContext : option App.ContextState;
  sourceNode : option nat;
  audioBuffer : option Pcm.AudioBuffer;
  startTime : Qc;
  nodes : list SourceNode;
  timers : list Render
}.

Section Handlers.

Variable decodeAudioData : list byte → positive → nat → Pcm.AudioBuffer.

(** The props of the component. *)
Variable pcmData : list byte.
Variable sampleRate : positive.

Definition set_state (r : Render) (p : Player) : Player :=
  mkPlayer r (audioContext p) (sourceNode p) (audioBuffer p) (startTime p)
    (nodes p) (timers p).

Definition setIsPlaying (b : bool) (p : Player) : Player :=
  set_state (mkRender b (playbackOffset (state p)) (duration (state p))) p.

Definition setPlaybackOffset (f : Qc → Qc) (p : Player) : Player :=
  set_state (mkRender (isPlaying (state p)) (f (playbackOffset (state p)))
               (duration (state p))) p.

Definition setDuration (d : Qc) (p : Player) : Player :=
  set_state (mkRender (isPlaying (state p)) (playbackOffset (state p)) d) p.

(** [sourceNodeRef.current?.stop()]. *)
Definition stop_current (p : Player) : Player :=
  match sourceNode p with
  | Some id =>
      mkPlayer (state p) (audioContext p) (sourceNode p) (audioBuffer p)
        (startTime p)
        (alter (λ n, mkNode Finished (closure n)) id (nodes p)) (timers p)
  | None => p
  end.

(** [initAudio]: on first use create the context when there is none, resume
    it when it is suspended (it is running afterwards), decode the clip and
    publish its duration. *)
Definition initAudio (p : Player) : Player :=
  match audioBuffer p with
  | Some _ => p
  | None =>
      let b := decodeAudioData pcmData sampleRate 1 in
      setDuration (Pcm.duration b)
        (mkPlayer (state p) (Some App.running) (sourceNode p) (Some b)
           (startTime p) (nodes p) (timers p))
  end.

(** [handlePlay] of the render [r], with [now] the [currentTime] read after
    [source.start]. *)
Definition handlePlay (r : Render) (now : Qc) (p : Player) : Player :=
  let p1 := initAudio p in
  match audioContext p1, audioBuffer p1 with
  | Some _, Some _ =>
      let source := length (nodes p1) in
      let startAt := playbackOffset r in
      setIsPlaying true
        (mkPlayer (state p1) (Some App.running) (Some source) (audioBuffer p1)
           now (nodes p1 ++ [mkNode (Playing startAt) r]) (timers p1))
  | _, _ => p1
  end.

(** [handlePause] of the render [r]. *)
Definition handlePause (r : Render) (now : Qc) (p : Player) : Player :=
  match sourceNode p with
  | Some _ =>
      if isPlaying r then
        let elapsed := (now - startTime p)%Qc in
        setIsPlaying false
          (setPlaybackOffset (λ prev, Qcmin (prev + elapsed) (duration r))
             (stop_current p))
      else p
  | None => p
  end.

(** [handleReplay] of the render [r]: the timer it sets runs the [handlePlay]
    of the same render. *)
Definition handleReplay (r : Render) (p : Player) : Player :=
  let p1 := setIsPlaying false (setPlaybackOffset (λ _, 0%Qc) (stop_current p)) in
  mkPlayer (state p1) (audioContext p1) (sourceNode p1) (audioBuffer p1)
    (startTime p1) (nodes p1) (timers p1 ++ [r]).

(** The [onended] handler installed on node [id] by [handlePlay]. *)
Definition onended (id : nat) (now : Qc) (p : Player) : Player :=
  match nodes p !! id, audioBuffer p with
  | Some n, Some b =>
      let p1 :=
        mkPlayer (state p) (audioContext p) (sourceNode p) (audioBuffer p)
          (startTime p)
          (<[id := mkNode Finished (closure n)]> (nodes p)) (timers p) in
      if isPlaying (closure n) then
        let elapsed := (now - startTime p)%Qc in
        let newOffset := (playbackOffset (closure n) + elapsed)%Qc in
        if decide (Pcm.duration b - Q2Qc (5 # 100) ≤ newOffset)%Qc
        then setPlaybackOffset (λ _, 0%Qc) (setIsPlaying false p1)
        else p1
      else p1
  | _, _ => p
  end.

(** What can happen to the mounted player.  The first button shows play
    when the state is not playing and pause otherwise; a button runs the
    handler of the committed render, which holds the current state. *)
Inductive Event :=
  | ClickPlayPause (now : Qc)
  | ClickReplay
  | TimerFires (now : Qc)
  | NodeEnded (id : nat) (now : Qc).

Definition step (p : Player) (e : Event) : Player :=
  match e with
  | ClickPlayPause now =>
      if isPlaying (state p) then handlePause (state p) now p
      else handlePlay (state p) now p
  | ClickReplay => handleReplay (state p) p
  | TimerFires now =>
      match timers p with
      | r :: rest =>
          handlePlay r now
            (mkPlayer (state p) (audioContext p) (sourceNode p)
               (audioBuffer p) (startTime p) (nodes p) rest)
      | [] => p
      end
  | NodeEnded id now => onended id now p
  end.

Definition run (p : Player) (es : list Event) : Player := foldl step p es.

(** The player as mounted. *)
Definition initial : Player :=
  mkPlayer (mkRender false 0%Qc 0%Qc) None None None 0%Qc [] [].

Inductive reachable : Player → Prop :=
  | reachable_initial : reachable initial
  | reachable_step p e : reachable p → reachable (step p e).

(** The decoded clip and its total duration. *)
Definition clip : Pcm.AudioBuffer := decodeAudioData pcmData sampleRate 1.
Definition clip_duration : Qc := Pcm.duration clip.

(** A play at [t_play], a pause at [t_pause] and the ['ended'] event of the
    node the pause stopped; repeated. *)
Definition play_pause (p : Player) (c : Qc * Qc) : Player :=
  let p2 := step (step p (ClickPlayPause c.1)) (ClickPlayPause c.2) in
  from_option (λ id, step p2 (NodeEnded id c.2)) p2 (sourceNode p2).

Definition cycles (p : Player) (cs : list (Qc * Qc)) : Player :=
  foldl play_pause p cs.

(** The time played during a list of cycles. *)
Definition played (cs : list (Qc * Qc)) : Qc :=
  foldr (λ c acc, (c.2 - c.1) + acc)%Qc 0%Qc cs.

(** What holds of every state the player can be in: either nothing was
    decoded yet, the published duration is 0 and nothing plays, or the clip
    is decoded, its duration is published and a context exists; the offset is
    within the published duration; while playing there is a current node. *)
Definition player_inv (p : Player) : Prop :=
  (audioBuffer p = None ∧ duration (state p) = 0%Qc ∧
   isPlaying (state p) = false
   ∨ audioBuffer p = Some clip ∧ duration (state p) = clip_duration ∧
     is_Some (audioContext p)) ∧
  (playbackOffset (state p) ≤ duration (state p))%Qc ∧
  (isPlaying (state p) = true → is_Some (sourceNode p)).

End Handlers.

End AudioPlayer.

(** ** Concrete inputs for the examples *)

Module Samples.

(** A stand-in for [decode] in the examples: every character of the payload
    is one byte. *)
Definition raw (s : string) : list byte := String.list_byte_of_string s.

(** A payload of [n] zero bytes: [n / 2] samples of silence. *)
Definition silence (n : N) : string :=
  String.string_of_list_byte (replicate (N.to_nat n) x00).

(** A message that carries only audio. *)
Definition audio (s : string) : App.LiveServerMessage :=
  App.mkMessage None None false (Some s) false.

(** A streaming session whose output context is in state [s]. *)
Definition session (s : App.ContextState) : App.World :=
  App.step raw Pcm.decodeAudioData (App.initial []) (App.StartStreaming s).

End Samples.

(** ** Transcription fragments *)

Module Transcription.
Import App.

(** The fragment of speaker [sp] that the transcription branches apply: the
    output transcription is the model's; the input transcription is the
    user's and is looked at only when there is no output transcription. *)
Definition said_by (sp : Speaker) (m : LiveServerMessage) : option string :=
  match outputTranscription m, sp with
  | Some t, model => Some t
  | Some _, user => None
  | None, user => inputTranscription m
  | None, model => None
  end.

(** The ref that accumulates the fragments of [sp]. *)
Definition transcription_ref (sp : Speaker) (st : Store) : string :=
  match sp with
  | model => currentOutputTranscription st
  | user => currentInputTranscription st
  end.

(** The fragments of a run of messages, joined in arrival order. *)
Definition joined (sp : Speaker) (msgs : list (LiveServerMessage * Qc * Z))
    : string :=
  foldr (λ a acc, default EmptyString (said_by sp a.1.1) +:+ acc)
        EmptyString msgs.

End Transcription.

(** ** The timeline of started nodes *)

Module Timeline.
Import App.

(** The end of the stretch a node started for time [t] was asked to play. *)
Definition finish (n : SourceNode) (t : Qc) : Qc :=
  (t + Pcm.duration (buffer n))%Qc.

(** Every node that is still scheduled is tracked and ends by the cursor; of
    two scheduled nodes, the one created later starts when the earlier one
    has ended, or later. *)
Definition sched_inv (st : Store) : Prop :=
  (∀ id n t, nodes st !! id = Some n → playState n = Scheduled t →
     id ∈ audioSources st ∧ (finish n t ≤ nextStartTime st)%Qc) ∧
  (∀ i j ni nj ti tj, (i < j)%nat →
     nodes st !! i = Some ni → nodes st !! j = Some nj →
     playState ni = Scheduled ti → playState nj = Scheduled tj →
     (finish ni ti ≤ tj)%Qc).

(** No node of the heap is scheduled. *)
Definition silent (st : Store) : Prop :=
  ∀ id n t, nodes st !! id = Some n → playState n ≠ Scheduled t.

(** The events whose handler runs [stopAudioPlayback]: [stopAll], a message
    with [interrupted] that does not wait for a decode, and the completion of
    the decode of a message with [interrupted]. *)
Definition stops (w : World) (e : Event) : Prop :=
  match e with
  | StopAll => True
  | Message m _ _ => interrupted m = true ∧ audio_guard m (store w) = None
  | DecodeDone i => k_interrupted <$> pending w !! i = Some true
  | _ => False
  end.

End Timeline.

(** ** The batch reply *)

Module Js.

(** [x || fallback] on a string that may be undefined: the fallback is taken
    when [x] is undefined or the empty string. *)
Definition or_else (x : option string) (fallback : string) : string :=
  match x with
  | Some t => if decide (t = EmptyString) then fallback else t
  | None => fallback
  end.

End Js.

Module Batch.
Import App.

Section Batch.
Variable decode : string → list byte.
Variable decodeAudioData : list byte → positive → nat → Pcm.AudioBuffer.

(** [stopAndSendBatch] from the TTS response to [source.start()].  Nothing
    is written before the [await] of [decodeAudioData], so what follows it
    runs on the store it finds.  The node is started with [start()], that is
    for time 0, and is not added to [audioSourcesRef]; the cursor is not
    read.  [None] stands for the [TypeError] of calling into a missing
    context, which the handler's [catch] receives. *)
Definition play_reply (base64Audio : option string) (st : Store)
    : option (Store * option (list byte)) :=
  match base64Audio with
  | Some s =>
      if decide (s = EmptyString) then Some (st, None)
      else
        match outputAudioContext st with
        | Some _ =>
            let finalPcm := decode s in
            let audioBuffer := decodeAudioData finalPcm 24000 1 in
            Some (mkStore (transcripts st) (outputAudioContext st)
                    (currentModelAudioChunks st)
                    (currentInputTranscription st)
                    (currentOutputTranscription st)
                    (nextStartTime st) (audioSources st)
                    (nodes st ++ [mkNode audioBuffer (Scheduled 0%Qc)]),
                  Some finalPcm)
        | None => None
        end
  | None => Some (st, None)
  end.

(** The updater that appends the two entries of a batch exchange; [wall1]
    and [wall2] are its two readings of [Date.now()]. *)
Definition append_reply (textResponse : string) (finalPcm : option (list byte))
    (wall1 wall2 : Z) (prev : list TranscriptEntry) : list TranscriptEntry :=
  prev ++ [mkEntry user "[Audio Chunk Sent]" batch None wall1;
           mkEntry model textResponse batch finalPcm wall2].

(** [stopAndSendBatch] from the TTS response to its end; [response_text] is
    the text of the first response.  In the [catch] branch nothing is
    appended. *)
Definition batch_reply (response_text base64Audio : option string)
    (wall1 wall2 : Z) (st : Store) : Store :=
  let textResponse := Js.or_else response_text "No response generated." in
  match play_reply base64Audio st with
  | Some (st1, finalPcm) =>
      mkStore (append_reply textResponse finalPcm wall1 wall2 (transcripts st1))
        (outputAudioContext st1) (currentModelAudioChunks st1)
        (currentInputTranscription st1) (currentOutputTranscription st1)
        (nextStartTime st1) (audioSources st1) (nodes st1)
  | None => st
  end.

End Batch.

(** A node that is in the heap and not tracked. *)
Definition untracked (id : nat) (n : SourceNode) (st : Store) : Prop :=
  nodes st !! id = Some n ∧ id ∉ audioSources st.

End Batch.

(** ** The player as the user sees it *)

Module PlayerView.
Import AudioPlayer.

(** The width of the progress bar in percent,
    [duration ? (playbackOffset / duration) * 100 : 0]. *)
Definition progress (r : Render) : Qc :=
  if decide (duration r = 0%Qc) then 0%Qc
  else (playbackOffset r / duration r * Q2Qc 100)%Qc.

(** The clock reading an event carries. *)
Definition stamp (e : Event) : option Qc :=
  match e with
  | ClickPlayPause now | TimerFires now | NodeEnded _ now => Some now
  | ClickReplay => None
  end.

(** The clock readings of a run of events do not go back, starting from
    [t]. *)
Fixpoint ordered (t : Qc) (es : list Event) : Prop :=
  match es with
  | [] => True
  | e :: rest =>
      let t' := default t (stamp e) in (t ≤ t')%Qc ∧ ordered t' rest
  end.

(** A node that was started and has neither ended nor been stopped. *)
Definition playing (n : SourceNode) : bool :=
  match playState n with Playing _ => true | Finished => false end.

(** The ['ended'] event of node [id]. *)
Definition ends (id : nat) (e : Event) : Prop :=
  match e with NodeEnded id' _ => id' = id | _ => False end.

End PlayerView.

(** ** Recorded chunks *)

Module Capture.

(** [flattened.set(chunk, offset)] on a [Float32Array]. *)
Definition typed_set (result arr : list Qc) (offset : nat) : option (list Qc) :=
  if decide (offset + length arr ≤ length result)%nat
  then Some (take offset result ++ arr ++ drop (offset + length arr) result)
  else None.

Fixpoint copy_loop (chunks : list (list Qc)) (flattened : list Qc)
    (offset : nat) : option (list Qc) :=
  match chunks with
  | [] => Some flattened
  | chunk :: rest =>
      flattened' ← typed_set flattened chunk offset;
      copy_loop rest flattened' (offset + length chunk)
  end.

(** The flattening of the recorded chunks in [stopAndSendBatch] and in
    [stopAndAnalyze]: a new array of the total length, filled chunk by
    chunk. *)
Definition flatten (chunks : list (list Qc)) : option (list Qc) :=
  let totalLength := foldl (λ acc c, acc + length c)%nat 0%nat chunks in
  copy_loop chunks (replicate totalLength 0%Qc) 0.

End Capture.

(** ** The voice persona modal *)

Module PersonaModal.

(** The modal and what it shares with its parent: the prop [isOpen] and the
    parent's [voicePersona] (description and [analyzedAt]); its own state; its
    refs; the script processors still connected and the intervals not yet
    cleared, named by the number of the capture that created them; the calls
    of [startRecording] suspended at [getUserMedia]; the analysis requests in
    flight, each with the data of its blob. *)
Record Modal := mkModal {
  isOpen : bool;
  persona : option (string * Z);
  isRecording : bool;
  isAnalyzing : bool;
  countdown : Z;
  chunks : list (list Qc);
  recorderRef : option nat;
  timerRef : option nat;
  processors : gset nat;
  intervals : gset nat;
  fresh : nat;
  gettingMedia : nat;
  requests : list string
}.

Definition set_isOpen (v : bool) (m : Modal) : Modal :=
  mkModal v (persona m) (isRecording m) (isAnalyzing m) (countdown m)
    (chunks m) (recorderRef m) (timerRef m) (processors m) (intervals m)
    (fresh m) (gettingMedia m) (requests m).

Definition set_persona (v : option (string * Z)) (m : Modal) : Modal :=
  mkModal (isOpen m) v (isRecording m) (isAnalyzing m) (countdown m)
    (chunks m) (recorderRef m) (timerRef m) (processors m) (intervals m)
    (fresh m) (gettingMedia m) (requests m).

Definition set_isRecording (v : bool) (m : Modal) : Modal :=
  mkModal (isOpen m) (persona m) v (isAnalyzing m) (countdown m) (chunks m)
    (recorderRef m) (timerRef m) (processors m) (intervals m) (fresh m)
    (gettingMedia m) (requests m).

Definition set_isAnalyzing (v : bool) (m : Modal) : Modal :=
  mkModal (isOpen m) (persona m) (isRecording m) v (countdown m) (chunks m)
    (recorderRef m) (timerRef m) (processors m) (intervals m) (fresh m)
    (gettingMedia m) (requests m).

Definition set_countdown (v : Z) (m : Modal) : Modal :=
  mkModal (isOpen m) (persona m) (isRecording m) (isAnalyzing m) v (chunks m)
    (recorderRef m) (timerRef m) (processors m) (intervals m) (fresh m)
    (gettingMedia m) (requests m).

Definition set_chunks (v : list (list Qc)) (m : Modal) : Modal :=
  mkModal (isOpen m) (persona m) (isRecording m) (isAnalyzing m) (countdown m)
    v (recorderRef m) (timerRef m) (processors m) (intervals m) (fresh m)
    (gettingMedia m) (requests m).

Definition set_recorderRef (v : option nat) (m : Modal) : Modal :=
  mkModal (isOpen m) (persona m) (isRecording m) (isAnalyzing m) (countdown m)
    (chunks m) v (timerRef m) (processors m) (intervals m) (fresh m)
    (gettingMedia m) (requests m).

Definition set_timerRef (v : option nat) (m : Modal) : Modal :=
  mkModal (isOpen m) (persona m) (isRecording m) (isAnalyzing m) (countdown m)
    (chunks m) (recorderRef m) v (processors m) (intervals m) (fresh m)
    (gettingMedia m) (requests m).

Definition set_processors (v : gset nat) (m : Modal) : Modal :=
  mkModal (isOpen m) (persona m) (isRecording m) (isAnalyzing m) (countdown m)
    (chunks m) (recorderRef m) (timerRef m) v (intervals m) (fresh m)
    (gettingMedia m) (requests m).

Definition set_intervals (v : gset nat) (m : Modal) : Modal :=
  mkModal (isOpen m) (persona m) (isRecording m) (isAnalyzing m) (countdown m)
    (chunks m) (recorderRef m) (timerRef m) (processors m) v (fresh m)
    (gettingMedia m) (requests m).

Definition set_fresh (v : nat) (m : Modal) : Modal :=
  mkModal (isOpen m) (persona m) (isRecording m) (isAnalyzing m) (countdown m)
    (chunks m) (recorderRef m) (timerRef m) (processors m) (intervals m) v
    (gettingMedia m) (requests m).

Definition set_gettingMedia (v : nat) (m : Modal) : Modal :=
  mkModal (isOpen m) (persona m) (isRecording m) (isAnalyzing m) (countdown m)
    (chunks m) (recorderRef m) (timerRef m) (processors m) (intervals m)
    (fresh m) v (requests m).

Definition set_requests (v : list string) (m : Modal) : Modal :=
  mkModal (isOpen m) (persona m) (isRecording m) (isAnalyzing m) (countdown m)
    (chunks m) (recorderRef m) (timerRef m) (processors m) (intervals m)
    (fresh m) (gettingMedia m) v.
Section Handlers.

(** [createBlob] is imported from [utils/audioUtils]; the data of the blob
    it makes is all that is kept of it. *)
Variable createBlob : list Qc → string.

(** [startRecording] up to its [await]. *)
Definition startRecording_begin (m : Modal) : Modal :=
  set_gettingMedia (S (gettingMedia m))
    (set_isRecording true (set_countdown 5 (set_chunks [] m))).

(** [startRecording] after [getUserMedia] was fulfilled: a processor is
    connected and an interval is set. *)
Definition startRecording_granted (m : Modal) : Modal :=
  let id := fresh m in
  set_fresh (S id)
    (set_timerRef (Some id) (set_intervals ({[id]} ∪ intervals m)
       (set_recorderRef (Some id) (set_processors ({[id]} ∪ processors m)
          (set_gettingMedia (pred (gettingMedia m)) m))))).

(** The [catch] of [startRecording]. *)
Definition startRecording_denied (m : Modal) : Modal :=
  set_isRecording false (set_gettingMedia (pred (gettingMedia m)) m).

(** [stopAndAnalyze] up to its [await].  Were the flattening to throw, the
    handler would end there, before its [try]. *)
Definition stopAndAnalyze_begin (m : Modal) : Modal :=
  let m1 :=
    set_processors (from_option (λ id, processors m ∖ {[id]}) (processors m)
                      (recorderRef m))
      (set_isAnalyzing true (set_isRecording false
         (set_intervals (from_option (λ id, intervals m ∖ {[id]}) (intervals m)
                           (timerRef m)) m))) in
  match Capture.flatten (chunks m) with
  | Some flattened => set_requests (requests m ++ [createBlob flattened]) m1
  | None => m1
  end.

(** The callback of the interval: the updater of [setCountdown]. *)
Definition tick (m : Modal) : Modal :=
  if decide (countdown m ≤ 1)%Z
  then set_countdown 0 (stopAndAnalyze_begin m)
  else set_countdown (countdown m - 1) m.

(** [stopAndAnalyze] after the response: [onPersonaGenerated], which is the
    parent's [handlePersonaGenerated], then [onClose], then the [finally]. *)
Definition stopAndAnalyze_done (response_text : option string) (wall : Z)
    (m : Modal) : Modal :=
  let description := Js.or_else response_text "Friendly and clear speaker." in
  set_isAnalyzing false
    (set_isOpen false (set_persona (Some (description, wall)) m)).

(** [stopAndAnalyze] after the request failed: the [catch], then the
    [finally]. *)
Definition stopAndAnalyze_failed (m : Modal) : Modal :=
  set_isAnalyzing false m.

(** What can happen to the modal.  The start button is rendered when the
    modal is open and neither recording nor analyzing; the cancel button
    when it is open. *)
Inductive Event :=
  | Open
  | ClickCancel
  | ClickStart
  | MediaGranted
  | MediaDenied
  | AudioProcess (id : nat) (chunk : list Qc)
  | Tick (id : nat)
  | AnalysisDone (i : nat) (response_text : option string) (wall : Z)
  | AnalysisFailed (i : nat).

Definition step (m : Modal) (e : Event) : Modal :=
  match e with
  | Open => set_isOpen true m
  | ClickCancel => if isOpen m then set_isOpen false m else m
  | ClickStart =>
      if isOpen m && negb (isRecording m) && negb (isAnalyzing m)
      then startRecording_begin m else m
  | MediaGranted =>
      match gettingMedia m with
      | O => m
      | S _ => startRecording_granted m
      end
  | MediaDenied =>
      match gettingMedia m with
      | O => m
      | S _ => startRecording_denied m
      end
  | AudioProcess id chunk =>
      if decide (id ∈ processors m)
      then set_chunks (chunks m ++ [chunk]) m else m
  | Tick id => if decide (id ∈ intervals m) then tick m else m
  | AnalysisDone i response_text wall =>
      match requests m !! i with
      | Some _ =>
          stopAndAnalyze_done response_text wall
            (set_requests (delete i (requests m)) m)
      | None => m
      end
  | AnalysisFailed i =>
      match requests m !! i with
      | Some _ => stopAndAnalyze_failed (set_requests (delete i (requests m)) m)
      | None => m
      end
  end.

Definition run (m : Modal) (es : list Event) : Modal := foldl step m es.

(** The modal as mounted; [saved] is the persona read from local storage. *)
Definition initial (saved : option (string * Z)) : Modal :=
  mkModal false saved false false 5 [] None None ∅ ∅ 0 0 [].

Inductive reachable : Modal → Prop :=
  | reachable_initial saved : reachable (initial saved)
  | reachable_step m e : reachable m → reachable (step m e).

End Handlers.

(** The four phases of the modal. *)
Inductive Phase := Idle | WaitingForMedia | Recording (id : nat) | Analyzing.

(** What each phase means for the state, the refs and what is in flight. *)
Definition in_phase (ph : Phase) (m : Modal) : Prop :=
  match ph with
  | Idle =>
      isRecording m = false ∧ isAnalyzing m = false ∧ gettingMedia m = 0%nat ∧
      intervals m = ∅ ∧ processors m = ∅ ∧ requests m = []
  | WaitingForMedia =>
      isRecording m = true ∧ isAnalyzing m = false ∧ gettingMedia m = 1%nat ∧
      intervals m = ∅ ∧ processors m = ∅ ∧ requests m = [] ∧
      countdown m = 5%Z
  | Recording id =>
      isRecording m = true ∧ isAnalyzing m = false ∧ gettingMedia m = 0%nat ∧
      intervals m = {[id]} ∧ processors m = {[id]} ∧ requests m = [] ∧
      timerRef m = Some id ∧ recorderRef m = Some id ∧
      (1 ≤ countdown m ≤ 5)%Z
  | Analyzing =>
      isRecording m = false ∧ isAnalyzing m = true ∧ gettingMedia m = 0%nat ∧
      intervals m = ∅ ∧ processors m = ∅ ∧ length (requests m) = 1%nat ∧
      countdown m = 0%Z
  end.

(** The events that the countdown outlasts: ticks and audio of the capture
    [id], and the opening and closing of the modal. *)
Definition during (id : nat) (e : Event) : Prop :=
  match e with
  | Tick id' | AudioProcess id' _ => id' = id
  | Open | ClickCancel => True
  | _ => False
  end.

(** The number of ticks in a run of events, and the chunks it delivers. *)
Fixpoint ticks_in (es : list Event) : nat :=
  match es with
  | [] => 0
  | Tick _ :: rest => S (ticks_in rest)
  | _ :: rest => ticks_in rest
  end.

Definition audio_in (es : list Event) : list (list Qc) :=
  omap (λ e, match e with AudioProcess _ chunk => Some chunk | _ => None end) es.

End PersonaModal.

(** ** The stored history *)

Module History.
Import App.

(** A transcript entry as written to local storage by the second revision
    of the component: [pcmData] is a base64 string, and is absent from the
    stored object when the entry has no audio. *)
Record StoredEntry := mkStored {
  s_speaker : Speaker;
  s_text : string;
  s_mode : Mode;
  s_pcmData : option string;
  s_timestamp : Z
}.

Section History.

(** [encode] and [decode] are imported from [utils/audioUtils]. *)
Variable encode : list byte → string.
Variable decode : string → list byte.

(** The array that the effect on [transcripts] serialises.  A [Uint8Array]
    is truthy whatever its length, so every entry with audio is encoded. *)
Definition toSave (transcripts : list TranscriptEntry) : list StoredEntry :=
  (λ t, mkStored (speaker t) (text t) (mode t) (encode <$> pcmData t)
          (timestamp t)) <$> transcripts.

(** The initial value of [transcripts]: [saved] is what [JSON.parse] makes
    of the stored item, [None] when there is no item or it cannot be parsed.
    A stored [pcmData] is decoded when it is truthy, that is when it is not
    the empty string. *)
Definition load (saved : option (list StoredEntry)) : list TranscriptEntry :=
  match saved with
  | Some parsed =>
      (λ t, mkEntry (s_speaker t) (s_text t) (s_mode t)
              (match s_pcmData t with
               | Some s =>
                   if decide (s = EmptyString) then None else Some (decode s)
               | None => None
               end)
              (s_timestamp t)) <$> parsed
  | None => []
  end.

(** An entry as it comes back: without its audio when the encoding of the
    audio is the empty string. *)
Definition reloaded (t : TranscriptEntry) : TranscriptEntry :=
  match pcmData t with
  | Some pcm =>
      if decide (encode pcm = EmptyString)
      then mkEntry (speaker t) (text t) (mode t) None (timestamp t)
      else t
  | None => t
  end.

End History.

End History.

(** ** Runs of the event loop *)

Module Interleaving.
Import App.

Section Interleaving.
Variable decode : string → list byte.
Variable decodeAudioData : list byte → positive → nat → Pcm.AudioBuffer.

(** A run of events none of which resets the scheduler. *)
Fixpoint quiet (w : World) (es : list Event) : Prop :=
  match es with
  | [] => True
  | e :: rest =>
      resets w e = false ∧ quiet (step decode decodeAudioData w e) rest
  end.

(** The clock has not overtaken the cursor when a message with audio
    arrives. *)
Definition on_time (w : World) (e : Event) : Prop :=
  match e with
  | Message m now _ =>
      is_Some (inlineData m) → (now ≤ nextStartTime (store w))%Qc
  | _ => True
  end.

(** A run without interruption in which the clock never overtakes the
    cursor: messages arrive, decodes complete and nodes end in any order. *)
Fixpoint streaming (w : World) (es : list Event) : Prop :=
  match es with
  | [] => True
  | e :: rest =>
      resets w e = false ∧ on_time w e ∧
      streaming (step decode decodeAudioData w e) rest
  end.

(** The buffer whose decode an event completes, if any. *)
Definition completes (w : World) (e : Event) : list Pcm.AudioBuffer :=
  match e with
  | DecodeDone i =>
      from_option (λ k, [decodeAudioData (k_decoded k) 24000 1]) []
        (pending w !! i)
  | _ => []
  end.

(** The buffers whose decode completes during a run, in the order of
    completion. *)
Fixpoint completed (w : World) (es : list Event) : list Pcm.AudioBuffer :=
  match es with
  | [] => []
  | e :: rest => completes w e ++ completed (step decode decodeAudioData w e) rest
  end.

(** The nodes an event creates, as its handler leaves them. *)
Definition creates (w : World) (e : Event) : list SourceNode :=
  drop (length (nodes (store w)))
    (nodes (store (step decode decodeAudioData w e))).

(** The nodes created during a run, in the order of creation, each as the
    handler that started it left it. *)
Fixpoint created (w : World) (es : list Event) : list SourceNode :=
  match es with
  | [] => []
  | e :: rest => creates w e ++ created (step decode decodeAudioData w e) rest
  end.

(** The events other than the end of a node. *)
Definition not_ended (e : Event) : Prop :=
  match e with Ended _ => False | _ => True end.

End Interleaving.

End Interleaving.

(** ** Messages as they arrive *)

Module Wire.
Import App.

(** [message.serverContent?.modelTurn] as line 132 of the handler reads it:
    absent; present without [parts], where [parts[0]] throws a [TypeError];
    or present with [parts], [data] being [parts[0]?.inlineData?.data]. *)
Inductive ModelTurn :=
  | NoModelTurn
  | WithoutParts
  | WithParts (data : option string).

Record ServerMessage := mkServerMessage {
  w_outputTranscription : option string;
  w_inputTranscription : option string;
  w_turnComplete : bool;
  w_modelTurn : ModelTurn;
  w_interrupted : bool
}.

(** What the handler reads of a message on which line 132 does not throw. *)
Definition fields (r : ServerMessage) : LiveServerMessage :=
  mkMessage (w_outputTranscription r) (w_inputTranscription r)
    (w_turnComplete r)
    (match w_modelTurn r with WithParts data => data | _ => None end)
    (w_interrupted r).

Section Wire.
Variable decode : string → list byte.

(** [handleOnMessage] up to its [await], on a message as it arrives.  The
    transcription and turn-complete branches have run when line 132 is
    evaluated; on a model turn without parts it throws and the handler ends
    there. *)
Definition receive_begin (r : ServerMessage) (now : Qc) (wall : Z)
    (st : Store) : Progress :=
  match w_modelTurn r with
  | WithoutParts =>
      let st0 := transcription_block (fields r) wall st in
      match turnComplete_block (fields r) st0 with
      | None => Rejected st0
      | Some st1 => Rejected st1
      end
  | _ => handleOnMessage_begin decode (fields r) now wall st
  end.

(** The arrival of a message in the event loop. *)
Definition receive (w : World) (r : ServerMessage) (now : Qc) (wall : Z)
    : World :=
  match receive_begin r now wall (store w) with
  | Completed st | Rejected st => mkWorld st (pending w)
  | Awaiting st k => mkWorld st (pending w ++ [k])
  end.

End Wire.

End Wire.

(** ** The single-clip player and the suspensions of [handlePlay] *)

Module AsyncPlayer.
Import AudioPlayer.

(** The [await]s of [handlePlay] at which other events of the page can run
    before the handler continues: [resume()] inside [initAudio] (line 31), the
    decode of the clip (line 33), and [resume()] in [handlePlay] itself
    (line 41).  [await initAudio()] on a clip that is decoded already
    continues before any other event. *)
Inductive Stage := AwaitResumeInit | AwaitDecode | AwaitResume.

(** A suspended call of [handlePlay]: the render it closes over and the
    [await] it is at. *)
Record Call := mkCall {
  render : Render;
  stage : Stage
}.

Record Async := mkAsync {
  player : Player;
  calls : list Call
}.

Section Handlers.

Variable decodeAudioData : list byte → positive → nat → Pcm.AudioBuffer.
Variable pcmData : list byte.
Variable sampleRate : positive.

Definition set_context (c : App.ContextState) (p : Player) : Player :=
  mkPlayer (state p) (Some c) (sourceNode p) (audioBuffer p) (startTime p)
    (nodes p) (timers p).

(** Lines 43 to 62 of [handlePlay] of the render [r]: the node is created,
    started from the offset [r] holds and made the current one. *)
Definition start_source (r : Render) (now : Qc) (p : Player) : Player :=
  setIsPlaying true
    (mkPlayer (state p) (audioContext p) (Some (length (nodes p)))
       (audioBuffer p) now
       (nodes p ++ [mkNode (Playing (playbackOffset r)) r]) (timers p)).

(** [handlePlay] from line 40 on, [initAudio] having returned. *)
Definition handlePlay_guarded (r : Render) (now : Qc) (p : Player)
    : Player * option Call :=
  match audioContext p, audioBuffer p with
  | Some App.suspended, Some _ => (p, Some (mkCall r AwaitResume))
  | Some App.running, Some _ => (start_source r now p, None)
  | _, _ => (p, None)
  end.

(** [handlePlay] of the render [r] up to its first suspension.  [fresh] is
    the state of a context that this call creates. *)
Definition handlePlay_begin (r : Render) (fresh : App.ContextState) (now : Qc)
    (p : Player) : Player * option Call :=
  match audioBuffer p with
  | Some _ => handlePlay_guarded r now p
  | None =>
      let c := default fresh (audioContext p) in
      (set_context c p,
       Some (mkCall r match c with
                      | App.suspended => AwaitResumeInit
                      | App.running => AwaitDecode
                      end))
  end.

(** A suspended call continues: the context it resumed is running; the
    decoded clip is stored and its duration published. *)
Definition handlePlay_resume (k : Call) (now : Qc) (p : Player)
    : Player * option Call :=
  match stage k with
  | AwaitResumeInit =>
      (set_context App.running p, Some (mkCall (render k) AwaitDecode))
  | AwaitDecode =>
      let b := decodeAudioData pcmData sampleRate 1 in
      handlePlay_guarded (render k) now
        (setDuration (Pcm.duration b)
           (mkPlayer (state p) (audioContext p) (sourceNode p) (Some b)
              (startTime p) (nodes p) (timers p)))
  | AwaitResume =>
      (start_source (render k) now (set_context App.running p), None)
  end.

(** What can happen to the mounted player.  [Continue i] continues the
    suspended call [i]; the other events are those of [AudioPlayer]. *)
Inductive Event :=
  | PlayPause (fresh : App.ContextState) (now : Qc)
  | Replay
  | Timer (fresh : App.ContextState) (now : Qc)
  | Ended (id : nat) (now : Qc)
  | Continue (i : nat) (now : Qc).

Definition spawn (cs : list Call) (r : Player * option Call) : Async :=
  mkAsync r.1 (cs ++ option_list r.2).

Definition step (a : Async) (e : Event) : Async :=
  let p := player a in
  match e with
  | PlayPause fresh now =>
      if isPlaying (state p)
      then mkAsync (handlePause (state p) now p) (calls a)
      else spawn (calls a) (handlePlay_begin (state p) fresh now p)
  | Replay => mkAsync (handleReplay (state p) p) (calls a)
  | Timer fresh now =>
      match timers p with
      | r :: rest =>
          spawn (calls a)
            (handlePlay_begin r fresh now
               (mkPlayer (state p) (audioContext p) (sourceNode p)
                  (audioBuffer p) (startTime p) (nodes p) rest))
      | [] => a
      end
  | Ended id now => mkAsync (onended id now p) (calls a)
  | Continue i now =>
      match calls a !! i with
      | Some k => spawn (delete i (calls a)) (handlePlay_resume k now p)
      | None => a
      end
  end.

Definition run (a : Async) (es : list Event) : Async := foldl step a es.

(** The player as mounted. *)
Definition initial : Async := mkAsync AudioPlayer.initial [].

Inductive reachable : Async → Prop :=
  | reachable_initial : reachable initial
  | reachable_step a e : reachable a → reachable (step a e).

(** The offset is within the published duration, which is 0 until the clip
    is decoded and the duration of the clip afterwards. *)
Definition bounded (a : Async) : Prop :=
  let r := state (player a) in
  (playbackOffset r ≤ duration r)%Qc ∧
  (duration r = 0%Qc
   ∨ duration r = clip_duration decodeAudioData pcmData sampleRate).

(** An event of [AudioPlayer], with the call of [handlePlay] it starts, if
    any, run to its end before anything else happens. *)
Definition settled (fresh : App.ContextState) (e : AudioPlayer.Event)
    : list Event :=
  match e with
  | ClickPlayPause now =>
      [PlayPause fresh now; Continue 0 now; Continue 0 now]
  | ClickReplay => [Replay]
  | TimerFires now => [Timer fresh now; Continue 0 now; Continue 0 now]
  | NodeEnded id now => [Ended id now]
  end.

(** The events of a user who never touches the replay button and who clicks
    the first button only when no call of [handlePlay] is suspended. *)
Fixpoint patient (a : Async) (es : list Event) : Prop :=
  match es with
  | [] => True
  | e :: rest =>
      match e with
      | PlayPause _ _ => calls a = []
      | Ended _ _ | Continue _ _ => True
      | Replay | Timer _ _ => False
      end ∧ patient (step a e) rest
  end.

(** What holds along such a run: no timer is set; every node and every
    suspended call belongs to a render that was not playing; a node that
    plays is the current one while the state says playing; and while a call
    is suspended it is the only one and the state says not playing. *)
Definition single_voice (a : Async) : Prop :=
  timers (player a) = [] ∧
  (∀ id n, nodes (player a) !! id = Some n → isPlaying (closure n) = false) ∧
  (∀ id n, nodes (player a) !! id = Some n → PlayerView.playing n = true →
     isPlaying (state (player a)) = true ∧ sourceNode (player a) = Some id) ∧
  (∀ k, k ∈ calls a →
     isPlaying (render k) = false ∧ isPlaying (state (player a)) = false ∧
     calls a = [k]).

End Handlers.

End AsyncPlayer.

(** ** The decoder: properties *)

Section DecoderFacts.
Import Pcm.

Lemma int16_view_length data : length (int16_view data) = (length data / 2)%nat.
Proof.
  remember (length data) as n eqn:Hn. revert data Hn.
  induction n as [n IH] using lt_wf_ind. intros data ->.
  destruct data as [|lo [|hi rest]]; [done..|].
  cbn [int16_view length].
  rewrite (IH (length rest) ltac:(simpl; lia) rest eq_refl).
  change (S (S (length rest))) with (1 * 2 + length rest)%nat.
  rewrite Nat.add_comm, Nat.div_add by done. lia.
Qed.

Lemma int16_view_lookup data i lo hi :
  data !! (2 * i)%nat = Some lo → data !! (2 * i + 1)%nat = Some hi →
  int16_view data !! i = Some (int16_le lo hi).
Proof.
  revert data. induction i as [|i IH]; intros data Hlo Hhi.
  - destruct data as [|l [|h rest]]; simplify_eq/=; done.
  - destruct data as [|l [|h rest]]; [done..|].
    replace (2 * S i)%nat with (S (S (2 * i))) in * by lia.
    simpl in Hlo, Hhi. simpl. by apply IH.
Qed.

Lemma deinterleave_mono (l : list Z) : deinterleave 1 0 l = l.
Proof. induction l as [|z l IH]; [done|]. simpl. by rewrite IH. Qed.

(** In general the channel holds the samples at the positions
    [i * period + c]. *)
Lemma deinterleave_lookup (period c i : nat) (l : list Z) :
  (c < period)%nat →
  deinterleave period c l !! i = l !! (i * period + c)%nat.
Proof.
  intros Hc. revert c i Hc.
  induction l as [|z l IH]; intros c i Hc; [done|].
  destruct c as [|c]; simpl.
  - destruct i as [|i]; simpl.
    + done.
    + rewrite IH by lia.
      replace (i * period + (period - 1))%nat with (period - 1 + i * period)%nat by lia.
      destruct period as [|period]; [lia|]. simpl.
      rewrite Nat.sub_0_r. f_equal. lia.
  - rewrite IH by lia. rewrite Nat.add_succ_r. done.
Qed.

Lemma byte_val_range b : (0 ≤ byte_val b < 256)%Z.
Proof.
  unfold byte_val. pose proof (Byte.to_N_bounded b) as Hb.
  lia.
Qed.

Lemma int16_le_range lo hi : (-32768 ≤ int16_le lo hi < 32768)%Z.
Proof.
  unfold int16_le. pose proof (byte_val_range lo). pose proof (byte_val_range hi).
  case_match; lia.
Qed.

(** C7.  A chunk of [2 * N] bytes decoded at rate [R] with one channel gives
    a buffer of [N] frames, hence of duration exactly [N / R] seconds, and
    sample [i] is the signed 16-bit little-endian value of bytes [2 i] and
    [2 i + 1] divided by 32768.  The decoder is a total function, so it
    returns a buffer on every such input. *)
Theorem decode_even_mono (data : list byte) (N : nat) (R : positive) :
  length data = (2 * N)%nat →
  let b := decodeAudioData data R 1 in
  numberOfChannels b = 1%nat ∧ sampleRate b = R ∧ frames b = N ∧
  duration b = Q2Qc (Z.of_nat N # R) ∧
  ∀ i, (i < N)%nat →
    ∃ lo hi, data !! (2 * i)%nat = Some lo ∧ data !! (2 * i + 1)%nat = Some hi ∧
      sample b 0 i = Some (Q2Qc (int16_le lo hi # 32768)) ∧
      (- 1 ≤ Q2Qc (int16_le lo hi # 32768) < 1)%Qc.
Proof.
  intros Hlen b.
  assert (Hfr : frames b = N).
  { unfold b, decodeAudioData; cbn [frames].
    rewrite Nat.div_1_r, int16_view_length, Hlen.
    by rewrite Nat.mul_comm, Nat.div_mul. }
  split_and!; [done | done | done | by unfold duration, ratio; rewrite Hfr | ].
  intros i Hi.
  destruct (lookup_lt_is_Some_2 data (2 * i)) as [lo Hlo]; [lia|].
  destruct (lookup_lt_is_Some_2 data (2 * i + 1)) as [hi Hhi]; [lia|].
  exists lo, hi. split; [done|]. split; [done|]. split.
  - unfold sample, b, decodeAudioData; cbn [channels frames].
    change (length (int16_view data) `div` 1)%nat with (frames b).
    rewrite Hfr. cbn [seq fmap list_fmap lookup list_lookup mbind option_bind].
    rewrite deinterleave_mono, list_lookup_fmap, lookup_take_lt by done.
    by rewrite (int16_view_lookup data i lo hi Hlo Hhi).
  - pose proof (int16_le_range lo hi) as [Hl Hu].
    unfold Qcle, Qclt; cbn [this Q2Qc]. rewrite Qred_correct.
    split; [unfold Qle | unfold Qlt]; simpl; lia.
Qed.

(** The decoder at a concrete four-byte chunk: samples 1 and -32768. *)
Lemma decode_even_mono_witness :
  let data := [x01; x00; x00; x80]%byte in
  length data = (2 * 2)%nat ∧
  sample (decodeAudioData data 24000 1) 0 1 = Some (Q2Qc (-32768 # 32768)) ∧
  duration (decodeAudioData data 24000 1) = Q2Qc (2 # 24000).
Proof.
  pose proof (decode_even_mono [x01; x00; x00; x80]%byte 2 24000 eq_refl) as H.
  split; [reflexivity|].
  destruct H as (_ & _ & _ & Hd & Hs). split; [|exact Hd].
  destruct (Hs 1%nat ltac:(lia)) as (lo & hi & Hlo & Hhi & Hv & _).
  simpl in Hlo, Hhi. by simplify_eq.
Defined.

End DecoderFacts.

(** ** Merging the chunks of a turn *)

Section MergeFacts.
Import App.

Lemma total_length_foldl (arrays : list (list byte)) (acc : nat) :
  foldl (λ acc arr, acc + length arr)%nat acc arrays
  = (acc + length (concat arrays))%nat.
Proof.
  revert acc. induction arrays as [|arr rest IH]; intros acc; simpl.
  - lia.
  - rewrite IH, length_app. lia.
Qed.

Lemma typed_set_fits (done arr pad : list byte) :
  (length arr ≤ length pad)%nat →
  typed_set (done ++ pad) arr (length done)
  = Some ((done ++ arr) ++ drop (length arr) pad).
Proof.
  intros Hfit. unfold typed_set.
  rewrite decide_True by (rewrite length_app; lia).
  rewrite take_app_length, drop_app_add'; [|done].
  by rewrite <-(assoc_L (++)).
Qed.

Lemma merge_loop_concat (arrays : list (list byte)) (done pad : list byte) :
  length pad = length (concat arrays) →
  merge_loop arrays (done ++ pad) (length done) = Some (done ++ concat arrays).
Proof.
  revert done pad. induction arrays as [|arr rest IH]; intros done pad Hpad.
  - destruct pad; simplify_eq/=. by rewrite app_nil_r.
  - simpl in *. rewrite length_app in Hpad.
    rewrite typed_set_fits by lia. simpl.
    replace (length done + length arr)%nat with (length (done ++ arr))
      by by rewrite length_app.
    rewrite IH by (rewrite length_drop; lia).
    by rewrite <-(assoc_L (++)).
Qed.

(** The loop never leaves the result array, and what it builds is the
    concatenation of the arrays. *)
Lemma mergeUint8Arrays_concat (arrays : list (list byte)) :
  mergeUint8Arrays arrays = Some (concat arrays).
Proof.
  unfold mergeUint8Arrays. rewrite total_length_foldl. simpl.
  apply (merge_loop_concat arrays []). by rewrite length_replicate.
Qed.

(** Byte [i] of chunk [k] sits at the sum of the lengths of the chunks
    before [k], plus [i]. *)
Lemma concat_lookup_chunk (arrays : list (list byte)) (k i : nat)
    (arr : list byte) :
  arrays !! k = Some arr → (i < length arr)%nat →
  concat arrays !! (length (concat (take k arrays)) + i)%nat = arr !! i.
Proof.
  revert k. induction arrays as [|a rest IH]; intros k Hk Hi; [done|].
  destruct k as [|k]; simpl in *.
  - simplify_eq. by rewrite lookup_app_l.
  - rewrite length_app, <-Nat.add_assoc, lookup_app_r by lia.
    replace (length a + (length (concat (take k rest)) + i) - length a)%nat
      with (length (concat (take k rest)) + i)%nat by lia.
    by apply IH.
Qed.

End MergeFacts.

(** ** The transcript update at the end of a turn *)

Section TranscriptFacts.
Import App.

Lemma lastIndexOf_from_None_inv {A} `{EqDecision A} (x : A) (l : list A) (i : nat) :
  lastIndexOf_from x l i = None → x ∉ l.
Proof.
  revert i. induction l as [|y l IH]; intros i Hk; [apply not_elem_of_nil|].
  simpl in Hk. destruct (lastIndexOf_from x l (S i)) eqn:Hk'; [done|].
  case_decide; [done|]. apply not_elem_of_cons. split; [done|]. by eapply IH.
Qed.

Lemma lastIndexOf_from_Some {A} `{EqDecision A} (x : A) (l : list A) (i j : nat) :
  lastIndexOf_from x l i = Some j →
  (i ≤ j)%nat ∧ l !! (j - i)%nat = Some x ∧
  ∀ j', (j - i < j')%nat → l !! j' ≠ Some x.
Proof.
  revert i j. induction l as [|y l IH]; intros i j Hj; [done|].
  simpl in Hj. destruct (lastIndexOf_from x l (S i)) as [k|] eqn:Hk.
  - simplify_eq. destruct (IH _ _ Hk) as (Hle & Hat & Hlast).
    split_and!; [lia| |].
    + replace (j - i)%nat with (S (j - S i)) by lia. done.
    + intros j' Hj'. destruct j' as [|j']; [lia|]. simpl.
      apply Hlast. lia.
  - case_decide; simplify_eq. split_and!; [lia| |].
    + by rewrite Nat.sub_diag.
    + intros j' Hj'. destruct j' as [|j']; [lia|]. simpl.
      intros Hin%list_elem_of_lookup_2.
      by apply lastIndexOf_from_None_inv in Hk.
Qed.

Lemma lastIndexOf_from_None {A} `{EqDecision A} (x : A) (l : list A) (i : nat) :
  x ∉ l → lastIndexOf_from x l i = None.
Proof.
  revert i. induction l as [|y l IH]; intros i Hx; [done|].
  apply not_elem_of_cons in Hx as [Hne Hx]. simpl.
  rewrite IH by done. by rewrite decide_False.
Qed.

Lemma lastIndexOf_from_is_Some {A} `{EqDecision A} (x : A) (l : list A) (i : nat) :
  x ∈ l → is_Some (lastIndexOf_from x l i).
Proof.
  revert i. induction l as [|y l IH]; intros i Hx; [by apply elem_of_nil in Hx|].
  simpl. destruct (decide (x ∈ l)) as [Hin|Hnin].
  - destruct (IH (S i) Hin) as [k ->]. eauto.
  - rewrite lastIndexOf_from_None by done.
    apply elem_of_cons in Hx as [->|?]; [|done]. rewrite decide_True; eauto.
Qed.

(** [attach_pcm] rewrites exactly the last model entry. *)
Lemma attach_pcm_at (pcm : list byte) (prev : list TranscriptEntry) (j : nat)
    (e : TranscriptEntry) :
  prev !! j = Some e → speaker e = model →
  (∀ j' e', (j < j')%nat → prev !! j' = Some e' → speaker e' ≠ model) →
  attach_pcm pcm prev = alter (with_pcmData pcm) j prev.
Proof.
  intros Hj He Hlast. unfold attach_pcm, lastIndexOf.
  destruct (lastIndexOf_from_is_Some model (speaker <$> prev) 0) as [k Hk].
  { apply list_elem_of_fmap. exists e. split; [done|].
    by eapply list_elem_of_lookup_2. }
  rewrite Hk. destruct (lastIndexOf_from_Some _ _ _ _ Hk) as (_ & Hat & Hafter).
  rewrite Nat.sub_0_r in Hat, Hafter.
  rewrite list_lookup_fmap in Hat.
  destruct (prev !! k) as [ek|] eqn:Hek; simplify_eq/=.
  destruct (Nat.lt_trichotomy j k) as [Hlt|[->|Hgt]]; [|done|].
  - by destruct (Hlast k ek Hlt Hek).
  - destruct (Hafter j Hgt). by rewrite list_lookup_fmap, Hj; simpl; rewrite He.
Qed.

Lemma attach_pcm_no_model (pcm : list byte) (prev : list TranscriptEntry) :
  (∀ e, e ∈ prev → speaker e ≠ model) → attach_pcm pcm prev = prev.
Proof.
  intros Hno. unfold attach_pcm, lastIndexOf.
  rewrite lastIndexOf_from_None; [done|].
  intros (e & He & Hin)%list_elem_of_fmap. by destruct (Hno e Hin).
Qed.

Lemma attach_pcm_length (pcm : list byte) (prev : list TranscriptEntry) :
  length (attach_pcm pcm prev) = length prev.
Proof. unfold attach_pcm. case_match; [apply length_alter | done]. Qed.

End TranscriptFacts.

(** ** Times *)

Section TimeFacts.

Lemma Qcmax_l (x y : Qc) : (y ≤ x)%Qc → Qcmax x y = x.
Proof.
  intros Hle. unfold Qcmax. destruct (x ?= y)%Qc eqn:Hc; [done| |done].
  apply Qclt_alt in Hc. by apply Qcle_not_lt in Hle.
Qed.

Lemma Qcmax_r (x y : Qc) : (x ≤ y)%Qc → Qcmax x y = y.
Proof.
  intros Hle. unfold Qcmax. destruct (x ?= y)%Qc eqn:Hc; [|done|].
  - by apply Qceq_alt in Hc.
  - apply Qcgt_alt in Hc. by apply Qcle_not_lt in Hle.
Qed.

Lemma Qcmax_ge_l (x y : Qc) : (x ≤ Qcmax x y)%Qc.
Proof.
  destruct (total Qcle x y) as [Hle|Hle].
  - by rewrite Qcmax_r.
  - by rewrite Qcmax_l.
Qed.

Lemma Qcmax_ge_r (x y : Qc) : (y ≤ Qcmax x y)%Qc.
Proof.
  destruct (total Qcle x y) as [Hle|Hle].
  - by rewrite Qcmax_r.
  - by rewrite Qcmax_l.
Qed.

Lemma Qcmin_l (x y : Qc) : (x ≤ y)%Qc → Qcmin x y = x.
Proof.
  intros Hle. unfold Qcmin. destruct (x ?= y)%Qc eqn:Hc; [done..|].
  apply Qcgt_alt in Hc. by apply Qcle_not_lt in Hle.
Qed.

Lemma Qcmin_le_r (x y : Qc) : (Qcmin x y ≤ y)%Qc.
Proof.
  unfold Qcmin. destruct (x ?= y)%Qc eqn:Hc; [| |done].
  - apply Qceq_alt in Hc. by subst.
  - apply Qclt_alt in Hc. by apply Qclt_le_weak.
Qed.

Lemma ratio_nonneg (n : nat) (d : positive) : (0 ≤ ratio n d)%Qc.
Proof.
  unfold ratio, Qcle; cbn [this Q2Qc].
  change (0 <= Qred (Z.of_nat n # d))%Q. rewrite Qred_correct.
  unfold Qle; simpl. lia.
Qed.

Lemma duration_nonneg (b : Pcm.AudioBuffer) : (0 ≤ Pcm.duration b)%Qc.
Proof. apply ratio_nonneg. Qed.

Lemma Qcle_plus_nonneg (x d : Qc) : (0 ≤ d)%Qc → (x ≤ x + d)%Qc.
Proof.
  intros Hd. rewrite <-(Qcplus_0_r x) at 1. by apply Qcplus_le_mono_l.
Qed.

End TimeFacts.

(** ** The playback scheduler *)

Section SchedulerFacts.
Import App.

Context (decode : string → list byte).
Context (decodeAudioData : list byte → positive → nat → Pcm.AudioBuffer).

Local Abbreviation handleOnMessage := (handleOnMessage decode decodeAudioData).
Local Abbreviation handleOnMessage_begin := (handleOnMessage_begin decode).
Local Abbreviation handleOnMessage_resume := (handleOnMessage_resume decodeAudioData).
Local Abbreviation handleOnMessage_v2 := (handleOnMessage_v2 decode decodeAudioData).
Local Abbreviation enqueue := (enqueue decode decodeAudioData).
Local Abbreviation schedule := (schedule decodeAudioData).
Local Abbreviation step := (step decode decodeAudioData).
Local Abbreviation run := (run decode decodeAudioData).
Local Abbreviation reachable := (reachable decode decodeAudioData).
Local Abbreviation handle_all := (handle_all decode decodeAudioData).
Local Abbreviation clock_behind := (clock_behind decode decodeAudioData).
Local Abbreviation buffer_of := (buffer_of decode decodeAudioData).

Lemma same_sched_trans st1 st2 st3 :
  same_sched st1 st2 → same_sched st2 st3 → same_sched st1 st3.
Proof. unfold same_sched. intros (?&?&?&?) (?&?&?&?). split_and!; congruence. Qed.

Lemma transcription_block_sched m wall st :
  same_sched st (transcription_block m wall st) ∧
  currentModelAudioChunks (transcription_block m wall st)
  = currentModelAudioChunks st.
Proof. unfold transcription_block. by repeat case_match. Qed.

Lemma transcription_block_absent m wall st :
  outputTranscription m = None → inputTranscription m = None →
  transcription_block m wall st = st.
Proof. unfold transcription_block. by intros -> ->. Qed.

(** The turn-complete branch never throws. *)
Lemma turnComplete_block_Some m st :
  ∃ st1, turnComplete_block m st = Some st1 ∧ same_sched st st1 ∧
    transcripts st1 =
      (if turnComplete m then
         match currentModelAudioChunks st with
         | [] => transcripts st
         | _ :: _ => attach_pcm (concat (currentModelAudioChunks st)) (transcripts st)
         end
       else transcripts st).
Proof.
  unfold turnComplete_block. destruct (turnComplete m); [|by eexists].
  destruct (currentModelAudioChunks st) as [|c cs] eqn:Hc; simpl.
  - by eexists.
  - rewrite mergeUint8Arrays_concat. simpl. by eexists.
Qed.

Lemma stopAudioPlayback_transcripts st :
  transcripts (stopAudioPlayback st) = transcripts st.
Proof. unfold stopAudioPlayback. by case_match. Qed.

Lemma interrupted_block_transcripts flag st :
  transcripts (interrupted_block flag st) = transcripts st.
Proof. destruct flag; simpl; [apply stopAudioPlayback_transcripts | done]. Qed.

Lemma audio_guard_Some m st s :
  inlineData m = Some s → s ≠ EmptyString → is_Some (outputAudioContext st) →
  audio_guard m st = Some s.
Proof.
  intros Hs Hne [c Hc]. unfold audio_guard. rewrite Hs, Hc.
  by rewrite decide_False.
Qed.

(** A message that passes the audio guard runs the enqueue on the store the
    earlier branches leave, then the [interrupted] branch. *)
Lemma handleOnMessage_audio m now wall st s :
  inlineData m = Some s → s ≠ EmptyString → is_Some (outputAudioContext st) →
  ∃ st1, same_sched st st1 ∧
    handleOnMessage_begin m now wall st
    = Awaiting (clamp_cursor now (push_chunk (decode s) st1))
               (mkCont (decode s) (interrupted m)) ∧
    handleOnMessage m now wall st
    = Completed (interrupted_block (interrupted m) (enqueue s now st1)).
Proof.
  intros Hs Hne Hctx.
  destruct (transcription_block_sched m wall st) as [Hs0 _].
  destruct (turnComplete_block_Some m (transcription_block m wall st))
    as (st1 & Hst1 & Hs1 & _).
  exists st1. split; [by eapply same_sched_trans|].
  assert (audio_guard m st1 = Some s) as Hguard.
  { apply audio_guard_Some; [done..|].
    destruct Hs1 as [-> _]. by destruct Hs0 as [-> _]. }
  unfold handleOnMessage, App.handleOnMessage_begin.
  by rewrite Hst1, Hguard.
Qed.

(** What one enqueue does to the scheduler. *)
Lemma enqueue_effect s now st :
  let b := decodeAudioData (decode s) 24000 1 in
  let startAt := Qcmax (nextStartTime st) now in
  outputAudioContext (enqueue s now st) = outputAudioContext st ∧
  nodes (enqueue s now st) = nodes st ++ [mkNode b (Scheduled startAt)] ∧
  audioSources (enqueue s now st) = {[length (nodes st)]} ∪ audioSources st ∧
  nextStartTime (enqueue s now st) = (startAt + Pcm.duration b)%Qc.
Proof. done. Qed.

(** Whatever else a message carries, the transcripts its handler leaves are
    those of the turn-complete branch, and the handler runs to its end. *)
Lemma handleOnMessage_transcripts m now wall st :
  ∃ st1 st',
    turnComplete_block m (transcription_block m wall st) = Some st1 ∧
    handleOnMessage m now wall st = Completed st' ∧
    transcripts st' = transcripts st1.
Proof.
  destruct (turnComplete_block_Some m (transcription_block m wall st))
    as (st1 & Hst1 & _ & _).
  exists st1. unfold handleOnMessage, App.handleOnMessage_begin. rewrite Hst1.
  destruct (audio_guard m st1); eexists; (split; [done|]); split; try done;
    unfold handleOnMessage_resume; by rewrite interrupted_block_transcripts.
Qed.

(** C10.  On a message with [turnComplete] set, when chunks have been
    accumulated, the handler runs to its end and the transcripts change in one
    place only: the last entry spoken by the model gets as [pcmData] the
    concatenation of the chunks in arrival order, where byte [i] of chunk [k]
    sits at the sum of the lengths of the chunks before [k], plus [i].  The
    other entries, their order and the length of the list are as the
    transcription branches left them ([prev], which is the list of the store
    when the message carries no transcription); without a model entry the
    list is unchanged. *)
Theorem turn_complete_attaches_pcm m now wall st :
  turnComplete m = true → currentModelAudioChunks st ≠ [] →
  let chunks := currentModelAudioChunks st in
  let prev := transcripts (transcription_block m wall st) in
  let after := transcripts (progress_store (handleOnMessage m now wall st)) in
  (∃ st', handleOnMessage m now wall st = Completed st') ∧
  length after = length prev ∧
  (∀ j e, prev !! j = Some e → speaker e = model →
     (∀ j' e', (j < j')%nat → prev !! j' = Some e' → speaker e' ≠ model) →
     after !! j = Some (mkEntry model (text e) (mode e) (Some (concat chunks))
                          (timestamp e)) ∧
     ∀ j', j' ≠ j → after !! j' = prev !! j') ∧
  ((∀ e, e ∈ prev → speaker e ≠ model) → after = prev) ∧
  (∀ k i arr, chunks !! k = Some arr → (i < length arr)%nat →
     concat chunks !! (length (concat (take k chunks)) + i)%nat = arr !! i) ∧
  (outputTranscription m = None → inputTranscription m = None →
   prev = transcripts st).
Proof.
  intros Htc Hne chunks prev after.
  destruct (handleOnMessage_transcripts m now wall st)
    as (st1 & st' & Hst1 & Hrun & Htr).
  destruct (turnComplete_block_Some m (transcription_block m wall st))
    as (st1' & Hst1' & _ & Htr1).
  rewrite Hst1 in Hst1'. injection Hst1' as <-.
  destruct (transcription_block_sched m wall st) as [_ Hchunks].
  rewrite Htc, Hchunks in Htr1. fold chunks in Htr1.
  assert (after = attach_pcm (concat chunks) prev) as Hafter.
  { unfold after. rewrite Hrun. simpl. rewrite Htr, Htr1.
    subst chunks. by destruct (currentModelAudioChunks st). }
  split_and!.
  - by exists st'.
  - rewrite Hafter. apply attach_pcm_length.
  - intros j e Hj He Hlast.
    rewrite Hafter, (attach_pcm_at _ _ j e Hj He Hlast). split.
    + rewrite list_lookup_alter, Hj, decide_True by done.
      simpl. unfold with_pcmData. by rewrite He.
    + intros j' Hj'. by rewrite list_lookup_alter_ne.
  - intros Hno. rewrite Hafter. by apply attach_pcm_no_model.
  - intros k i arr Hk Hi. by apply concat_lookup_chunk.
  - intros Ho Hi. unfold prev. by rewrite transcription_block_absent.
Qed.

(** A message handled in one piece.  When it passes the audio guard, its
    handler runs to its end and the enqueue it performs (on the store [st1]
    the earlier branches
    leave, which agrees with [st] on the scheduler) creates one node, started
    at [max(cursor, now)] for the cursor found and the clock read, tracks it,
    and leaves the cursor at that start plus the duration of the decoded
    buffer.  The start is neither before the clock reading nor before the
    previous cursor.  Unless the same message is also an interruption, this is
    the store the handler leaves.  Whatever ran while the decode was in
    flight, the second half of the enqueue starts the node at the cursor it
    finds and advances the cursor by the duration of the buffer. *)
Lemma enqueue_undisturbed m now wall st s :
  inlineData m = Some s → s ≠ EmptyString → is_Some (outputAudioContext st) →
  let b := decodeAudioData (decode s) 24000 1 in
  let startAt := Qcmax (nextStartTime st) now in
  let source := length (nodes st) in
  (∃ st1, same_sched st st1 ∧
    handleOnMessage m now wall st
    = Completed (interrupted_block (interrupted m) (enqueue s now st1)) ∧
    nodes (enqueue s now st1) !! source = Some (mkNode b (Scheduled startAt)) ∧
    source ∈ audioSources (enqueue s now st1) ∧
    nextStartTime (enqueue s now st1) = (startAt + Pcm.duration b)%Qc ∧
    (now ≤ startAt)%Qc ∧ (nextStartTime st ≤ startAt)%Qc ∧
    (interrupted m = false →
     interrupted_block (interrupted m) (enqueue s now st1) = enqueue s now st1)) ∧
  (∀ st2,
     nodes (schedule (decode s) st2) !! length (nodes st2)
     = Some (mkNode b (Scheduled (nextStartTime st2))) ∧
     nextStartTime (schedule (decode s) st2)
     = (nextStartTime st2 + Pcm.duration b)%Qc).
Proof.
  intros Hs Hne Hctx b startAt source.
  destruct (handleOnMessage_audio m now wall st s Hs Hne Hctx)
    as (st1 & Hsame & _ & Hrun).
  split.
  - exists st1. split; [done|]. split; [done|].
    destruct (enqueue_effect s now st1) as (_ & Hn & Ha & Hc).
    destruct Hsame as (_ & Hcur & _ & Hnodes).
    rewrite Hn, Ha, Hc, Hcur, Hnodes. fold b startAt source.
    split_and!.
    + by rewrite lookup_app_r, Nat.sub_diag.
    + apply elem_of_union. left. by apply elem_of_singleton.
    + done.
    + apply Qcmax_ge_r.
    + apply Qcmax_ge_l.
    + by intros ->.
  - intros st2. simpl. split; [|done].
    by rewrite lookup_app_r, Nat.sub_diag.
Qed.

(** The cursor through the two halves of a handler and the other events. *)
Lemma handleOnMessage_begin_cursor m now wall st :
  interrupted m = false →
  (nextStartTime st
   ≤ nextStartTime (progress_store (handleOnMessage_begin m now wall st)))%Qc.
Proof.
  intros Hint. unfold App.handleOnMessage_begin.
  destruct (transcription_block_sched m wall st) as [(_ & Hc0 & _) _].
  destruct (turnComplete_block_Some m (transcription_block m wall st))
    as (st1 & -> & (_ & Hc1 & _) & _).
  destruct (audio_guard m st1); simpl.
  - rewrite Hc1, Hc0. apply Qcmax_ge_l.
  - rewrite Hint. simpl. by rewrite Hc1, Hc0.
Qed.

Lemma handleOnMessage_resume_cursor k st :
  k_interrupted k = false →
  (nextStartTime st ≤ nextStartTime (handleOnMessage_resume k st))%Qc.
Proof.
  intros Hint. unfold App.handleOnMessage_resume. rewrite Hint. simpl.
  apply Qcle_plus_nonneg, duration_nonneg.
Qed.

(** C4.  The cursor never decreases across an event of the component that is
    not a reset (an interruption or [stopAll]): not across the arrival of a
    message, the completion of a decode, the end of a node or the start of a
    session; in particular not across a message handled in one piece. *)
Theorem cursor_monotone :
  (∀ w e, resets w e = false →
     (nextStartTime (store w) ≤ nextStartTime (store (step w e)))%Qc) ∧
  (∀ m now wall st, interrupted m = false →
     (nextStartTime st
      ≤ nextStartTime (progress_store (handleOnMessage m now wall st)))%Qc).
Proof.
  split.
  - intros w e Hq. destruct e as [m now wall|i|id| |s|s]; simpl in *.
    + pose proof (handleOnMessage_begin_cursor m now wall (store w) Hq) as H.
      by destruct (handleOnMessage_begin m now wall (store w)).
    + destruct (pending w !! i) as [k|]; simpl in *; [|done].
      by apply handleOnMessage_resume_cursor.
    + done.
    + done.
    + done.
    + unfold batchOutput. by case_match.
  - intros m now wall st Hint.
    pose proof (handleOnMessage_begin_cursor m now wall st Hint) as H.
    unfold handleOnMessage.
    destruct (handleOnMessage_begin m now wall st) as [st1|st1 k|st1] eqn:Hb;
      simpl in *; [done| |done].
    etrans; [exact H|]. apply handleOnMessage_resume_cursor.
    revert Hb. unfold App.handleOnMessage_begin.
    destruct (turnComplete_block m _); [|done].
    destruct (audio_guard m _); [|done]. intros [= <- <-]. done.
Qed.

(** *** Back-to-back scheduling of a run of chunks *)

Lemma back_to_back_lookup (c : Qc) (bufs : list Pcm.AudioBuffer) (i : nat)
    (b : Pcm.AudioBuffer) :
  bufs !! i = Some b →
  back_to_back c bufs !! i
  = Some (mkNode b (Scheduled (c + Qcsum (Pcm.duration <$> take i bufs))%Qc)).
Proof.
  revert c i. induction bufs as [|b0 bufs IH]; intros c i Hi; [done|].
  destruct i as [|i]; simpl in *.
  - simplify_eq. by rewrite Qcplus_0_r.
  - rewrite (IH _ _ Hi). by rewrite Qcplus_assoc.
Qed.

Lemma handle_plain_audio (a : Arrival) st :
  plain_audio a → is_Some (outputAudioContext st) →
  let st' := progress_store (handleOnMessage a.1.1 a.1.2 a.2 st) in
  let startAt := Qcmax (nextStartTime st) a.1.2 in
  outputAudioContext st' = outputAudioContext st ∧
  nodes st' = nodes st ++ [mkNode (buffer_of a) (Scheduled startAt)] ∧
  nextStartTime st' = (startAt + Pcm.duration (buffer_of a))%Qc.
Proof.
  intros [(s & Hs & Hne) Hint] Hctx st' startAt.
  destruct (handleOnMessage_audio a.1.1 a.1.2 a.2 st s Hs Hne Hctx)
    as (st1 & (Hc & Hcur & _ & Hn) & _ & Hrun).
  unfold st'. rewrite Hrun, Hint. simpl.
  unfold App.buffer_of. rewrite Hs. simpl.
  by rewrite Hc, Hcur, Hn.
Qed.

Lemma handle_all_cons (a : Arrival) (rest : list Arrival) st :
  handle_all (a :: rest) st
  = handle_all rest (progress_store (handleOnMessage a.1.1 a.1.2 a.2 st)).
Proof. by destruct a as [[m now] wall]. Qed.

Lemma clock_behind_cons (a : Arrival) (rest : list Arrival) st :
  clock_behind (a :: rest) st ↔
  (a.1.2 ≤ nextStartTime st)%Qc ∧
  clock_behind rest (progress_store (handleOnMessage a.1.1 a.1.2 a.2 st)).
Proof. by destruct a as [[m now] wall]. Qed.

(** While the clock stays behind the cursor, every chunk starts where the
    previous one ends. *)
Lemma handle_all_back_to_back (msgs : list Arrival) st :
  Forall plain_audio msgs → is_Some (outputAudioContext st) →
  clock_behind msgs st →
  nodes (handle_all msgs st)
  = nodes st ++ back_to_back (nextStartTime st) (buffer_of <$> msgs) ∧
  nextStartTime (handle_all msgs st)
  = (nextStartTime st + Qcsum (Pcm.duration <$> (buffer_of <$> msgs)))%Qc.
Proof.
  revert st. induction msgs as [|a rest IH]; intros st Hall Hctx Hclock.
  - simpl. by rewrite app_nil_r, Qcplus_0_r.
  - apply Forall_cons in Hall as [Ha Hrest].
    apply clock_behind_cons in Hclock as [Hnow Hclock].
    destruct (handle_plain_audio a st Ha Hctx) as (Hc & Hn & Hcur).
    rewrite Qcmax_l in Hn, Hcur by done.
    rewrite handle_all_cons.
    destruct (IH _ Hrest ltac:(by rewrite Hc) Hclock) as [-> ->].
    rewrite Hn, Hcur. simpl. split.
    + by rewrite <-(assoc_L (++)).
    + by rewrite Qcplus_assoc.
Qed.

(** A run of messages that each carry audio and no interruption, each
    handled to its end before the next arrives, with every clock reading
    after the first not later than the cursor it meets: chunk [i] is started
    at [T0] plus the durations of the chunks before it, where [T0], the start
    of the first chunk, is [max(cursor, now)] at the first enqueue, and the
    cursor ends at [T0] plus all durations.  In particular three chunks of
    1/2 s, 3/10 s and 7/10 s met with cursor 0 at clock 0 start at 0, 1/2 and
    4/5, and the cursor ends at 3/2. *)
Lemma gapless_in_arrival_order (a : Arrival) (rest : list Arrival) st :
  Forall plain_audio (a :: rest) → is_Some (outputAudioContext st) →
  clock_behind rest (progress_store (handleOnMessage a.1.1 a.1.2 a.2 st)) →
  let T0 := Qcmax (nextStartTime st) a.1.2 in
  let bufs := buffer_of <$> a :: rest in
  let final := handle_all (a :: rest) st in
  (∀ i b, bufs !! i = Some b →
     nodes final !! (length (nodes st) + i)%nat
     = Some (mkNode b (Scheduled (T0 + Qcsum (Pcm.duration <$> take i bufs))%Qc))) ∧
  nextStartTime final = (T0 + Qcsum (Pcm.duration <$> bufs))%Qc ∧
  (nextStartTime st = 0%Qc → a.1.2 = 0%Qc →
   Pcm.duration <$> bufs = [Q2Qc (1 # 2); Q2Qc (3 # 10); Q2Qc (7 # 10)] →
   (λ n, playState n) <$> drop (length (nodes st)) (nodes final)
   = [Scheduled 0%Qc; Scheduled (Q2Qc (1 # 2)); Scheduled (Q2Qc (4 # 5))] ∧
   nextStartTime final = Q2Qc (3 # 2)).
Proof.
  intros Hall Hctx Hclock T0 bufs final.
  apply Forall_cons in Hall as [Ha Hrest].
  destruct (handle_plain_audio a st Ha Hctx) as (Hc & Hn & Hcur).
  destruct (handle_all_back_to_back rest _ Hrest ltac:(by rewrite Hc) Hclock)
    as [Hnodes Hfinal].
  rewrite <-handle_all_cons in Hnodes, Hfinal. fold final in Hnodes, Hfinal.
  rewrite Hn, <-(assoc_L (++)) in Hnodes. rewrite Hcur in Hnodes, Hfinal.
  fold T0 in Hnodes, Hfinal.
  change (nodes final = nodes st ++ back_to_back T0 bufs) in Hnodes.
  assert (nextStartTime final = (T0 + Qcsum (Pcm.duration <$> bufs))%Qc) as Hend.
  { rewrite Hfinal. simpl. by rewrite Qcplus_assoc. }
  split_and!.
  - intros i b Hi. rewrite Hnodes, lookup_app_r by lia.
    replace (length (nodes st) + i - length (nodes st))%nat with i by lia.
    by apply back_to_back_lookup.
  - done.
  - intros Hzero Hnow Hdur.
    assert (T0 = 0%Qc) as HT0 by (unfold T0; by rewrite Hzero, Hnow).
    rewrite Hend, Hnodes, drop_app_length, Hdur, HT0.
    destruct bufs as [|b1 [|b2 [|b3 [|]]]]; simplify_eq/=.
    match goal with H : Pcm.duration b1 = _ |- _ => rewrite H end.
    match goal with H : Pcm.duration b2 = _ |- _ => rewrite H end.
    split; [|by apply Qc_is_canon].
    repeat f_equal; by apply Qc_is_canon.
Qed.

(** *** Interruption *)

Lemma try_stop_lookup (id : nat) (heap : list SourceNode) (j : nat) :
  try_stop id heap !! j
  = if decide (j = id) then stop_or_keep <$> heap !! id else heap !! j.
Proof.
  unfold try_stop, stop_or_keep.
  destruct (heap !! id) as [n|] eqn:Hn; simpl.
  - destruct (node_stop n) as [n'|] eqn:Hstop; simpl.
    + destruct (decide (j = id)) as [->|Hne].
      * apply list_lookup_insert_eq. by eapply lookup_lt_Some.
      * by apply list_lookup_insert_ne.
    + case_decide; by subst.
  - case_decide; by subst.
Qed.

(** The [forEach] of [stopAudioPlayback] applies [stop()] under [try] to the
    tracked nodes and leaves the others alone. *)
Lemma stop_all_lookup (heap : list SourceNode) (S : gset nat) (j : nat) :
  set_fold try_stop heap S !! j
  = if decide (j ∈ S) then stop_or_keep <$> heap !! j else heap !! j.
Proof.
  revert j.
  refine (set_fold_ind_L
    (λ r (X : gset nat), ∀ j, r !! j
       = if decide (j ∈ X) then stop_or_keep <$> heap !! j else heap !! j)
    try_stop heap _ _ S).
  - intros j. by rewrite decide_False by set_solver.
  - intros x X r Hx IH j. rewrite try_stop_lookup.
    destruct (decide (j = x)) as [->|Hne].
    + rewrite IH, decide_False, decide_True by set_solver. done.
    + rewrite IH. destruct (decide (j ∈ X)).
      * by rewrite decide_True by (apply elem_of_union; by right).
      * rewrite decide_False; [done|].
        by intros [?%elem_of_singleton|?]%elem_of_union.
Qed.

Lemma stop_or_keep_started (n : SourceNode) :
  playState n ≠ Unstarted → stop_or_keep n = mkNode (buffer n) Finished.
Proof. unfold stop_or_keep, node_stop. by destruct (playState n). Qed.

Lemma stopAudioPlayback_idem st :
  stopAudioPlayback (stopAudioPlayback st) = stopAudioPlayback st.
Proof.
  unfold stopAudioPlayback. destruct (outputAudioContext st) eqn:Hc; simpl.
  - by rewrite set_fold_empty.
  - by rewrite Hc.
Qed.

Lemma stopAudioPlayback_inv st : store_inv st → store_inv (stopAudioPlayback st).
Proof.
  intros Hinv. unfold stopAudioPlayback.
  destruct (outputAudioContext st) eqn:Hc; [|done].
  split; simpl; [done|]. intros id Hid. set_solver.
Qed.

Lemma interrupted_block_inv flag st :
  store_inv st → store_inv (interrupted_block flag st).
Proof.
  intros Hinv. destruct flag; [|done].
  apply stopAudioPlayback_inv in Hinv. by destruct Hinv.
Qed.

Lemma interrupted_block_context flag st :
  outputAudioContext (interrupted_block flag st) = outputAudioContext st.
Proof.
  destruct flag; [|done]. simpl. unfold stopAudioPlayback. by case_match.
Qed.

Lemma schedule_inv decoded st :
  is_Some (outputAudioContext st) → store_inv st →
  store_inv (schedule decoded st).
Proof.
  intros [c Hc] [_ Htracked]. split; simpl.
  - by rewrite Hc.
  - intros id [->%elem_of_singleton|Hid]%elem_of_union.
    + eexists. by rewrite lookup_app_r, Nat.sub_diag.
    + destruct (Htracked id Hid) as (n & Hn & Hstarted).
      exists n. split; [|done]. by apply lookup_app_l_Some.
Qed.

Lemma same_sched_inv st st' : same_sched st st' → store_inv st → store_inv st'.
Proof.
  intros (Hc & Hcur & Ha & Hn) Hinv. unfold store_inv.
  by rewrite Hc, Hcur, Ha, Hn.
Qed.

Lemma step_inv w e : world_inv w → world_inv (step w e).
Proof.
  intros [Hst Hpend]. destruct e as [m now wall|i|id| |s|s]; simpl.
  - unfold App.handleOnMessage_begin.
    destruct (transcription_block_sched m wall (store w)) as [Hs0 _].
    destruct (turnComplete_block_Some m (transcription_block m wall (store w)))
      as (st1 & -> & Hs1 & _).
    pose proof (same_sched_trans _ _ _ Hs0 Hs1) as Hs.
    pose proof (same_sched_inv _ _ Hs Hst) as Hst1.
    destruct Hs as (Hc & _).
    destruct (audio_guard m st1) as [s|] eqn:Hg.
    + assert (is_Some (outputAudioContext st1)) as [c Hc1].
      { unfold audio_guard in Hg. destruct (inlineData m); [|done].
        destruct (outputAudioContext st1); [eauto | done]. }
      split; simpl; [|by rewrite Hc1].
      destruct Hst1 as [_ Htr]. split; simpl; [by rewrite Hc1 | done].
    + split; simpl.
      * by apply interrupted_block_inv.
      * rewrite interrupted_block_context, Hc. done.
  - destruct (pending w !! i) as [k|] eqn:Hk; [|done].
    assert (is_Some (outputAudioContext (store w))) as Hctx.
    { destruct (outputAudioContext (store w)) eqn:Hc; [eauto|].
      by rewrite Hpend in Hk. }
    split; simpl.
    + by apply interrupted_block_inv, schedule_inv.
    + unfold App.handleOnMessage_resume.
      rewrite interrupted_block_context. simpl.
      destruct Hctx as [c ->]. done.
  - split; [|done]. destruct Hst as [Hnone Htr]. split; simpl.
    + intros Hc. destruct (Hnone Hc) as [-> ->].
      split; [apply empty_difference_L | done].
    + intros j [Hj Hne]%elem_of_difference.
      destruct (Htr j Hj) as (n & Hn & Hstarted).
      rewrite list_lookup_alter_ne by set_solver. eauto.
  - split; simpl; [by apply stopAudioPlayback_inv|].
    unfold stopAudioPlayback.
    by destruct (outputAudioContext (store w)) eqn:Hc; simpl; [|rewrite Hc].
  - split; [|done]. destruct Hst as [_ Htr]. by split.
  - unfold batchOutput. destruct (outputAudioContext (store w)) eqn:Hc.
    + split; [done|]. simpl. by rewrite Hc.
    + split; [|done]. destruct Hst as [_ Htr]. by split.
Qed.

Lemma reachable_inv w : reachable w → world_inv w.
Proof.
  induction 1 as [history|w e _ IH]; [|by apply step_inv].
  split; [|done]. split; [done|]. simpl. set_solver.
Qed.

Lemma stop_all_length (heap : list SourceNode) (S : gset nat) :
  length (set_fold try_stop heap S) = length heap.
Proof.
  refine (set_fold_ind_L (λ r (X : gset nat), length r = length heap)
            try_stop heap _ _ S); [done|].
  intros x X r _ <-. unfold try_stop.
  destruct (r !! x ≫= node_stop); [apply length_insert | done].
Qed.


(** An interrupting event, met with an output context, leaves the suspended
    handlers in place, nothing tracked, the cursor at 0 and the heap at its
    size. *)
Lemma interrupt_event_effect w e :
  interrupts e → is_Some (outputAudioContext (store w)) →
  let w1 := step w e in
  pending w1 = pending w ∧ audioSources (store w1) = ∅ ∧
  nextStartTime (store w1) = 0%Qc ∧
  length (nodes (store w1)) = length (nodes (store w)).
Proof.
  intros He [c Hc]. destruct e as [m now wall| | | | |]; try done; simpl.
  - destruct He as [Hint Hdata]. unfold App.handleOnMessage_begin.
    destruct (transcription_block_sched m wall (store w)) as [Hs0 _].
    destruct (turnComplete_block_Some m (transcription_block m wall (store w)))
      as (st1 & -> & Hs1 & _).
    destruct (same_sched_trans _ _ _ Hs0 Hs1) as (Hc1 & _ & _ & Hn1).
    unfold audio_guard. rewrite Hdata, Hint. simpl.
    unfold stopAudioPlayback. rewrite Hc1, Hc. simpl.
    by rewrite stop_all_length, Hn1.
  - unfold stopAudioPlayback. rewrite Hc. simpl. by rewrite stop_all_length.
Qed.


(** What the two revisions of the handler do when the output context is
    suspended. *)
Lemma suspended_enqueue m now wall st s :
  inlineData m = Some s → s ≠ EmptyString → outputAudioContext st = Some suspended →
  interrupted m = false →
  let source := length (nodes st) in
  let b := decodeAudioData (decode s) 24000 1 in
  let node := mkNode b (Scheduled (Qcmax (nextStartTime st) now)) in
  (∃ st', handleOnMessage m now wall st = Completed st' ∧
          outputAudioContext st' = Some suspended ∧
          nodes st' = nodes st ++ [node]) ∧
  (∃ st', handleOnMessage_v2 m now wall true st = Completed st' ∧
          outputAudioContext st' = Some running ∧
          nodes st' = nodes st ++ [node]) ∧
  (∃ st', handleOnMessage_v2 m now wall false st = Rejected st' ∧
          outputAudioContext st' = Some suspended ∧
          nodes st' = nodes st ∧ audioSources st' = audioSources st ∧
          nextStartTime st' = nextStartTime st).
Proof.
  intros Hs Hne Hc Hint source b node.
  destruct (handleOnMessage_audio m now wall st s Hs Hne ltac:(by rewrite Hc))
    as (st1 & (Hc1 & Hcur & Ha & Hn) & _ & Hrun).
  destruct (turnComplete_block_Some m (transcription_block m wall st))
    as (st1' & Hst1 & Hs1 & _).
  destruct (transcription_block_sched m wall st) as [Hs0 _].
  destruct (same_sched_trans _ _ _ Hs0 Hs1) as (Hc1' & Hcur' & Ha' & Hn').
  assert (audio_guard m st1' = Some s) as Hg.
  { apply audio_guard_Some; [done..|]. by rewrite Hc1', Hc. }
  split_and!.
  - eexists. split; [exact Hrun|]. rewrite Hint. simpl.
    by rewrite Hc1, Hc, Hcur, Hn.
  - unfold handleOnMessage_v2. rewrite Hst1, Hg. simpl.
    rewrite Hc1', Hc, Hint. simpl. eexists. split; [done|].
    simpl. by rewrite Hcur', Hn'.
  - unfold handleOnMessage_v2. rewrite Hst1, Hg. simpl.
    rewrite Hc1', Hc. eexists. split; [done|]. simpl.
    by rewrite Hc1', Hc, Hcur', Ha', Hn'.
Qed.

End SchedulerFacts.

(** ** The scheduler on concrete sessions *)

Section SchedulerExamples.
Import App Samples.

Local Abbreviation handle := (handleOnMessage raw Pcm.decodeAudioData).
Local Abbreviation step := (App.step raw Pcm.decodeAudioData).

Lemma silence_nonempty (n : N) : (0 < n)%N → silence n ≠ EmptyString.
Proof.
  intros Hn. unfold silence.
  destruct (N.to_nat n) as [|k] eqn:Hk; [lia | done].
Qed.

Lemma silent_audio_plain (n : N) (now : Qc) (wall : Z) :
  (0 < n)%N → plain_audio (audio (silence n), now, wall).
Proof.
  intros Hn. split; [|done]. exists (silence n).
  split; [done | by apply silence_nonempty].
Qed.



Lemma cursor_monotone_witness :
  let w := step (session running) (Message (audio (silence 4)) (Q2Qc 2) 0) in
  (nextStartTime (store w) ≤ nextStartTime (store (step w (DecodeDone 0))))%Qc ∧
  (nextStartTime (store (session running))
   ≤ nextStartTime (progress_store
       (handle (audio (silence 4)) (Q2Qc 2) 0 (store (session running)))))%Qc.
Proof.
  split.
  - apply (proj1 (cursor_monotone raw Pcm.decodeAudioData)). reflexivity.
  - apply (proj2 (cursor_monotone raw Pcm.decodeAudioData)). reflexivity.
Defined.



(** C6.  A chunk arrives while the output context is suspended.  The handler
    of the main component schedules it without resuming the context, which is
    still suspended when the handler returns.  The later revision of the same
    handler resumes the context first, and when the resumption fails it
    rejects, leaving the chunk unscheduled and the scheduler as it was. *)
Theorem suspended_context_not_resumed :
  let st := store (session suspended) in
  let m := audio (silence 4) in
  (∃ st', handle m (Q2Qc 2) 0 st = Completed st' ∧
          outputAudioContext st' = Some suspended ∧
          playState <$> nodes st' = [Scheduled (Q2Qc 2)]) ∧
  (∃ st', handleOnMessage_v2 raw Pcm.decodeAudioData m (Q2Qc 2) 0 true st
          = Completed st' ∧
          outputAudioContext st' = Some running ∧
          playState <$> nodes st' = [Scheduled (Q2Qc 2)]) ∧
  (∃ st', handleOnMessage_v2 raw Pcm.decodeAudioData m (Q2Qc 2) 0 false st
          = Rejected st' ∧
          outputAudioContext st' = Some suspended ∧
          nodes st' = [] ∧ audioSources st' = ∅).
Proof.
  intros st m.
  destruct (suspended_enqueue raw Pcm.decodeAudioData m (Q2Qc 2) 0 st
              (silence 4) eq_refl ltac:(done) eq_refl eq_refl)
    as ((st1 & Hrun1 & Hc1 & Hn1) & (st2 & Hrun2 & Hc2 & Hn2)
        & (st3 & Hrun3 & Hc3 & Hn3 & Ha3 & _)).
  split_and!.
  - exists st1. by rewrite Hn1.
  - exists st2. by rewrite Hn2.
  - exists st3. by rewrite Hn3, Ha3.
Qed.

(** A turn of two chunks that completes after the model said "hi". *)
Lemma turn_complete_attaches_pcm_witness :
  let said :=
    [mkEntry user "hello" streaming None 1; mkEntry model "hi" streaming None 2] in
  let st :=
    mkStore said (Some running) [[x01; x02]; [x03]]%byte EmptyString "hi" 0%Qc ∅ [] in
  let m := mkMessage None None true None false in
  transcripts (progress_store (handle m (Q2Qc 0) 3 st))
  = [mkEntry user "hello" streaming None 1;
     mkEntry model "hi" streaming (Some [x01; x02; x03]%byte) 2].
Proof.
  intros said st m.
  destruct (turn_complete_attaches_pcm raw Pcm.decodeAudioData m (Q2Qc 0) 3 st
              eq_refl ltac:(done))
    as (_ & Hlen & Hat & _).
  destruct (Hat 1%nat (mkEntry model "hi" streaming None 2) eq_refl eq_refl)
    as [Hone Hothers].
  { by intros [|[|j']] e' Hlt He'; simplify_eq/=; lia. }
  apply list_eq. intros [|[|j]].
  - by rewrite (Hothers 0%nat).
  - by rewrite Hone.
  - by rewrite (Hothers (S (S j))).
Defined.

End SchedulerExamples.

(** ** The single-clip player: pause, resume, replay *)

Section PlayerFacts.
Import AudioPlayer.

Context (decodeAudioData : list byte → positive → nat → Pcm.AudioBuffer).
Context (pcmData : list byte) (sampleRate : positive).

Local Abbreviation handlePlay := (handlePlay decodeAudioData pcmData sampleRate).
Local Abbreviation step := (step decodeAudioData pcmData sampleRate).
Local Abbreviation reachable := (reachable decodeAudioData pcmData sampleRate).
Local Abbreviation clip := (clip decodeAudioData pcmData sampleRate).
Local Abbreviation clip_duration :=
  (clip_duration decodeAudioData pcmData sampleRate).
Local Abbreviation player_inv :=
  (player_inv decodeAudioData pcmData sampleRate).
Local Abbreviation cycles := (cycles decodeAudioData pcmData sampleRate).
Local Abbreviation play_pause := (play_pause decodeAudioData pcmData sampleRate).

Lemma clip_duration_nonneg : (0 ≤ clip_duration)%Qc.
Proof. apply duration_nonneg. Qed.

(** [handlePlay] of a render [r]: the new node plays from the offset of [r];
    the state keeps its own offset. *)
Lemma handlePlay_effect r now p :
  player_inv p →
  let p1 := handlePlay r now p in
  state p1 = mkRender true (playbackOffset (state p)) clip_duration ∧
  audioContext p1 = Some App.running ∧
  sourceNode p1 = Some (length (nodes p)) ∧
  audioBuffer p1 = Some clip ∧
  startTime p1 = now ∧
  nodes p1 = nodes p ++ [mkNode (Playing (playbackOffset r)) r] ∧
  timers p1 = timers p.
Proof.
  intros [[(Hb & Hd & _)|(Hb & Hd & [c Hc])] _].
  - unfold AudioPlayer.handlePlay, initAudio. rewrite Hb. done.
  - unfold AudioPlayer.handlePlay, initAudio. rewrite Hb. simpl.
    rewrite Hc, Hb. simpl. by rewrite Hd.
Qed.

Lemma handlePause_effect r now p :
  is_Some (sourceNode p) → isPlaying r = true →
  let p1 := handlePause r now p in
  state p1 = mkRender false
               (Qcmin (playbackOffset (state p) + (now - startTime p)) (duration r))
               (duration (state p)) ∧
  audioContext p1 = audioContext p ∧ sourceNode p1 = sourceNode p ∧
  audioBuffer p1 = audioBuffer p ∧ startTime p1 = startTime p ∧
  timers p1 = timers p.
Proof.
  intros [id Hid] Hr. unfold handlePause, stop_current. by rewrite Hid, Hr.
Qed.

Lemma handlePlay_inv r now p : player_inv p → player_inv (handlePlay r now p).
Proof.
  intros Hinv.
  destruct (handlePlay_effect r now p Hinv) as (Hst & Hc & Hs & Hb & _).
  destruct Hinv as (Hcase & Hle & _).
  split_and!.
  - right. rewrite Hb, Hst, Hc. eauto.
  - rewrite Hst. simpl. destruct Hcase as [(_ & Hd & _)|(_ & Hd & _)].
    + rewrite Hd in Hle. etrans; [exact Hle|]. apply clip_duration_nonneg.
    + by rewrite <-Hd.
  - rewrite Hs. eauto.
Qed.

Lemma player_step_inv p e : player_inv p → player_inv (step p e).
Proof.
  intros Hinv. destruct e as [now| |now|id now]; simpl.
  - destruct (isPlaying (state p)) eqn:Hplaying; [|by apply handlePlay_inv].
    destruct Hinv as (Hcase & Hle & Hsrc).
    destruct (handlePause_effect (state p) now p (Hsrc Hplaying) Hplaying)
      as (Hst & Hc & Hs & Hb & _).
    split_and!.
    + rewrite Hb, Hst, Hc. simpl.
      destruct Hcase as [(? & ? & ?)|?]; [congruence | by right].
    + rewrite Hst. simpl. apply Qcmin_le_r.
    + by rewrite Hst.
  - destruct Hinv as (Hcase & Hle & Hsrc).
    assert (0 ≤ duration (state p))%Qc as Hd.
    { destruct Hcase as [(_ & -> & _)|(_ & -> & _)];
        [done | apply clip_duration_nonneg]. }
    unfold handleReplay, stop_current.
    destruct (sourceNode p); simpl; (split_and!; [|done|done]);
      (destruct Hcase as [(? & ? & ?)|?]; [by left | by right]).
  - destruct (timers p) as [|r rest]; [done|].
    apply handlePlay_inv. by destruct Hinv.
  - unfold onended.
    destruct (nodes p !! id) as [n|]; [|done].
    destruct (audioBuffer p) as [b|] eqn:Hb; [|done].
    destruct Hinv as (Hcase & Hle & Hsrc).
    destruct Hcase as [(Hnone & _)|Hsome]; [congruence|].
    assert (0 ≤ duration (state p))%Qc as Hd.
    { destruct Hsome as (_ & -> & _). apply clip_duration_nonneg. }
    destruct (isPlaying (closure n)); [case_decide|];
      (split_and!; simpl; [right; by rewrite <-Hb | done..]).
Qed.

Lemma player_reachable_inv p : reachable p → player_inv p.
Proof.
  induction 1 as [|p e _ IH]; [|by apply player_step_inv].
  split_and!; [by left | done | done].
Qed.

Lemma played_nonneg (cs : list (Qc * Qc)) :
  Forall (λ c, c.1 ≤ c.2)%Qc cs → (0 ≤ played cs)%Qc.
Proof.
  induction 1 as [|c cs Hc _ IH]; [done|]. simpl.
  apply Qcplus_nonneg_nonneg; [|done]. by apply Qcle_minus_iff in Hc.
Qed.

(** The ['ended'] event of a node started from a render that was not playing
    changes nothing in the state. *)
Lemma onended_quiet id now p n :
  nodes p !! id = Some n → isPlaying (closure n) = false →
  state (onended id now p) = state p.
Proof.
  intros Hn Hc. unfold onended. rewrite Hn.
  destruct (audioBuffer p); [|done]. by rewrite Hc.
Qed.

(** One play at [now0] and one pause at [now1], from a state that is not
    playing. *)
Lemma play_pause_effect p now0 now1 :
  player_inv p → isPlaying (state p) = false →
  let p1 := step p (ClickPlayPause now0) in
  let p2 := step p1 (ClickPlayPause now1) in
  let source := length (nodes p) in
  startTime p1 = now0 ∧ isPlaying (state p1) = true ∧
  nodes p1 = nodes p ++ [mkNode (Playing (playbackOffset (state p))) (state p)] ∧
  sourceNode p1 = Some source ∧ sourceNode p2 = Some source ∧
  state p2 = mkRender false
               (Qcmin (playbackOffset (state p) + (now1 - now0)) clip_duration)
               clip_duration ∧
  ∀ t, state (step p2 (NodeEnded source t)) = state p2.
Proof.
  intros Hinv Hpaused p1 p2 source.
  assert (p1 = handlePlay (state p) now0 p) as Hp1
    by (unfold p1; simpl; by rewrite Hpaused).
  destruct (handlePlay_effect (state p) now0 p Hinv)
    as (Hst & _ & Hs & _ & Ht & Hn & _).
  rewrite <-Hp1 in Hst, Hs, Ht, Hn.
  assert (p2 = handlePause (state p1) now1 p1) as Hp2
    by (unfold p2; simpl; by rewrite Hst).
  destruct (handlePause_effect (state p1) now1 p1) as (Hst2 & _ & Hs2 & _).
  { rewrite Hs. eauto. }
  { by rewrite Hst. }
  rewrite <-Hp2 in Hst2, Hs2.
  split_and!; [done | by rewrite Hst | done | done | by rewrite Hs2 | |].
  - rewrite Hst2, Ht, Hst. done.
  - intros t. simpl.
    apply (onended_quiet _ _ _ (mkNode Finished (state p))); [|done].
    rewrite Hp2. unfold handlePause, stop_current. rewrite Hs, Hst. simpl.
    rewrite list_lookup_alter_eq, Hn.
    by rewrite lookup_app_r, Nat.sub_diag.
Qed.

(** A whole cycle leaves a reachable state that is not playing. *)
Lemma play_pause_state p c :
  reachable p → isPlaying (state p) = false →
  reachable (play_pause p c) ∧
  state (play_pause p c)
  = mkRender false
      (Qcmin (playbackOffset (state p) + (c.2 - c.1)) clip_duration)
      clip_duration.
Proof.
  intros Hreach Hpaused.
  destruct (play_pause_effect p c.1 c.2 (player_reachable_inv p Hreach) Hpaused)
    as (_ & _ & _ & _ & Hs2 & Hst2 & Hended).
  unfold AudioPlayer.play_pause. cbv zeta. rewrite Hs2. cbn [from_option].
  split; [by do 3 apply reachable_step|].
  rewrite <-Hst2. apply Hended.
Qed.

(** In every state the player can reach the offset is within the
    clip's duration.  From a state that is not playing, a play followed by a
    pause sets the offset to the previous offset plus the time elapsed on the
    clock since the play, [now1 - startTime], capped at the clip's duration:
    it is the previous offset plus the elapsed time whenever that is within
    the clip.  The ['ended'] event of the node the pause stopped changes
    nothing, and the next play starts its node from the stored offset.  Over
    any number of play and pause cycles whose played time fits in the clip
    the offset is the initial offset plus the total time played. *)
Lemma pause_resume_inert p :
  reachable p →
  (playbackOffset (state p) ≤ clip_duration)%Qc ∧
  (isPlaying (state p) = false →
   ∀ now0 now1 now2,
     let o := playbackOffset (state p) in
     let p1 := step p (ClickPlayPause now0) in
     let p2 := step p1 (ClickPlayPause now1) in
     let p3 := step p2 (ClickPlayPause now2) in
     let elapsed := (now1 - startTime p1)%Qc in
     startTime p1 = now0 ∧
     playbackOffset (state p2) = Qcmin (o + elapsed) clip_duration ∧
     ((o + elapsed ≤ clip_duration)%Qc →
      playbackOffset (state p2) = (o + elapsed)%Qc) ∧
     isPlaying (state p2) = false ∧
     (∃ id, sourceNode p2 = Some id ∧
            ∀ t, state (step p2 (NodeEnded id t)) = state p2) ∧
     ∃ id n, sourceNode p3 = Some id ∧ nodes p3 !! id = Some n ∧
             playState n = Playing (playbackOffset (state p2))) ∧
  (isPlaying (state p) = false →
   ∀ cs, Forall (λ c, c.1 ≤ c.2)%Qc cs →
     (playbackOffset (state p) + played cs ≤ clip_duration)%Qc →
     playbackOffset (state (cycles p cs))
     = (playbackOffset (state p) + played cs)%Qc ∧
     isPlaying (state (cycles p cs)) = false).
Proof.
  intros Hreach. split_and!.
  - destruct (player_reachable_inv p Hreach) as (Hcase & Hle & _).
    destruct Hcase as [(_ & Hd & _)|(_ & Hd & _)]; rewrite Hd in Hle; [|done].
    etrans; [exact Hle|]. apply clip_duration_nonneg.
  - intros Hpaused now0 now1 now2 o p1 p2 p3 elapsed.
    pose proof (player_reachable_inv p Hreach) as Hinv.
    destruct (play_pause_effect p now0 now1 Hinv Hpaused)
      as (Ht & _ & _ & _ & Hs2 & Hst2 & Hended).
    fold p1 in Ht. fold p1 p2 in Hst2, Hs2, Hended.
    assert (playbackOffset (state p2) = Qcmin (o + elapsed) clip_duration) as Hoff
      by (unfold elapsed; by rewrite Hst2, Ht).
    split_and!; [done | done | | by rewrite Hst2 | by eexists |].
    + intros Hfit. by rewrite Hoff, Qcmin_l.
    + assert (player_inv p2) as Hinv2
        by (apply player_reachable_inv; by do 2 apply reachable_step).
      destruct (play_pause_effect p2 now2 now2 Hinv2 ltac:(by rewrite Hst2))
        as (_ & _ & Hn3 & Hs3 & _).
      fold p3 in Hn3, Hs3.
      exists (length (nodes p2)),
        (mkNode (Playing (playbackOffset (state p2))) (state p2)).
      split; [done|]. split; [|done].
      by rewrite Hn3, lookup_app_r, Nat.sub_diag.
  - intros Hpaused cs. revert p Hreach Hpaused.
    induction cs as [|c cs IH]; intros p Hreach Hpaused Hord Hfit.
    + simpl in *. by rewrite Qcplus_0_r.
    + apply Forall_cons in Hord as [Hc Hord].
      pose proof (played_nonneg cs Hord) as Hcs.
      simpl in Hfit.
      assert (0 ≤ c.2 - c.1)%Qc as He by by apply Qcle_minus_iff in Hc.
      destruct (play_pause_state p c Hreach Hpaused) as [Hreach2 Hst2].
      assert (playbackOffset (state p) + (c.2 - c.1) ≤ clip_duration)%Qc as Hfit1.
      { etrans; [|exact Hfit]. apply Qcplus_le_mono_l.
        by apply Qcle_plus_nonneg. }
      rewrite Qcmin_l in Hst2 by done.
      change (AudioPlayer.cycles decodeAudioData pcmData sampleRate p (c :: cs))
        with (cycles (play_pause p c) cs).
      destruct (IH (play_pause p c)) as [Hoff Hplay].
      * done.
      * by rewrite Hst2.
      * done.
      * rewrite Hst2. simpl. by rewrite <-Qcplus_assoc.
      * split; [|done]. rewrite Hoff, Hst2. simpl. by rewrite <-Qcplus_assoc.
Qed.

Lemma player_inv_timers p rest :
  player_inv p →
  player_inv (mkPlayer (state p) (audioContext p) (sourceNode p)
                (audioBuffer p) (startTime p) (nodes p) rest).
Proof. done. Qed.

(** Replay, then the timer it set: the state's offset is 0, but the node the
    timer starts plays from the offset the state had when replay was
    clicked. *)
Lemma replay_plays_from_render_offset p now :
  player_inv p → timers p = [] →
  let p2 := step (step p ClickReplay) (TimerFires now) in
  playbackOffset (state p2) = 0%Qc ∧ isPlaying (state p2) = true ∧
  ∃ id n, sourceNode p2 = Some id ∧ nodes p2 !! id = Some n ∧
          playState n = Playing (playbackOffset (state p)).
Proof.
  intros Hinv Htimers p2.
  pose proof (player_step_inv p ClickReplay Hinv) as Hinv1.
  set (p1 := step p ClickReplay) in *.
  assert (timers p1 = [state p] ∧ playbackOffset (state p1) = 0%Qc)
    as [Ht1 Ho1].
  { unfold p1. simpl. unfold handleReplay, stop_current.
    destruct (sourceNode p); simpl; by rewrite Htimers. }
  set (p1' := mkPlayer (state p1) (audioContext p1) (sourceNode p1)
                (audioBuffer p1) (startTime p1) (nodes p1) []).
  assert (p2 = handlePlay (state p) now p1') as Hp2.
  { unfold p2. fold p1. unfold AudioPlayer.step at 1. by rewrite Ht1. }
  destruct (handlePlay_effect (state p) now p1' (player_inv_timers p1 [] Hinv1))
    as (Hst & _ & Hs & _ & _ & Hn & _).
  rewrite <-Hp2 in Hst, Hs, Hn. simpl in Hst, Hs, Hn.
  split; [by rewrite Hst|]. split; [by rewrite Hst|].
  eexists _, _. split; [exact Hs|].
  split; [by rewrite Hn, lookup_app_r, Nat.sub_diag | done].
Qed.

End PlayerFacts.

(** ** The player on a concrete clip *)

Section PlayerExamples.
Import AudioPlayer.

(** A clip of ten samples played at 1 Hz: ten seconds. *)
Local Abbreviation pcm := (replicate 20 x00 : list byte).
Local Abbreviation step := (AudioPlayer.step Pcm.decodeAudioData pcm 1).
Local Abbreviation reachable := (AudioPlayer.reachable Pcm.decodeAudioData pcm 1).

Lemma ten_second_clip :
  clip_duration Pcm.decodeAudioData pcm 1 = Q2Qc 10.
Proof. by apply Qc_is_canon. Qed.

(** C9.  The clip is paused at 3 s and replay is clicked.  [handleReplay]
    sets the offset of the state to 0, but the [handlePlay] its timer runs is
    the one of the render in which replay was clicked, whose offset is still
    3: the node it starts plays from 3 s, not from the beginning. *)
Theorem replay_starts_from_stale_offset :
  let paused :=
    step (step initial (ClickPlayPause (Q2Qc 0))) (ClickPlayPause (Q2Qc 3)) in
  let replayed := step (step paused ClickReplay) (TimerFires (Q2Qc 4)) in
  playbackOffset (state paused) = Q2Qc 3 ∧ isPlaying (state paused) = false ∧
  playbackOffset (state replayed) = 0%Qc ∧ isPlaying (state replayed) = true ∧
  ∃ id n, sourceNode replayed = Some id ∧ nodes replayed !! id = Some n ∧
          playState n = Playing (Q2Qc 3).
Proof.
  intros paused replayed.
  assert (playbackOffset (state paused) = Q2Qc 3) as Hoff
    by by apply Qc_is_canon.
  assert (reachable paused) as Hreach
    by (do 2 apply reachable_step; apply reachable_initial).
  destruct (replay_plays_from_render_offset Pcm.decodeAudioData pcm 1
              paused (Q2Qc 4) (player_reachable_inv _ _ _ _ Hreach) eq_refl)
    as (Hzero & Hplaying & id & n & Hs & Hn & Hstart).
  split_and!; [done | done | done | done |].
  exists id, n. by rewrite <-Hoff.
Qed.

End PlayerExamples.

(** ** The message handler as a whole *)

Section HandlerFacts.
Import App Transcription.

Context (decode : string → list byte).
Context (decodeAudioData : list byte → positive → nat → Pcm.AudioBuffer).

Local Abbreviation handleOnMessage := (handleOnMessage decode decodeAudioData).
Local Abbreviation enqueue := (enqueue decode decodeAudioData).
Local Abbreviation handle_all := (handle_all decode decodeAudioData).

(** X1.  [mergeUint8Arrays] never leaves its result array, so it never
    throws; what it returns is the concatenation of the arrays in order, whose
    length is the sum of their lengths.  Empty arrays contribute nothing, and
    merging a list split in two merges the halves one after the other. *)
Theorem mergeUint8Arrays_total (arrays more : list (list byte)) :
  mergeUint8Arrays arrays = Some (concat arrays) ∧
  length (concat arrays) = sum_list (length <$> arrays) ∧
  mergeUint8Arrays (filter (λ arr, arr ≠ []) arrays) = mergeUint8Arrays arrays ∧
  mergeUint8Arrays (arrays ++ more)
  = (a ← mergeUint8Arrays arrays; b ← mergeUint8Arrays more; Some (a ++ b)).
Proof.
  rewrite !mergeUint8Arrays_concat. simpl. split_and!; [done| | |].
  - induction arrays as [|arr rest IH]; [done|].
    simpl. by rewrite length_app, IH.
  - f_equal. induction arrays as [|arr rest IH]; [done|].
    rewrite filter_cons. destruct arr as [|b arr].
    + by rewrite decide_False by (by intros ?).
    + rewrite decide_True by done. simpl. by rewrite IH.
  - by rewrite concat_app.
Qed.

(** Every field of the store after the turn-complete branch. *)
Lemma turnComplete_block_fields m st :
  ∃ st1, turnComplete_block m st = Some st1 ∧ same_sched st st1 ∧
    currentModelAudioChunks st1
    = (if turnComplete m then [] else currentModelAudioChunks st) ∧
    currentInputTranscription st1
    = (if turnComplete m then EmptyString else currentInputTranscription st) ∧
    currentOutputTranscription st1
    = (if turnComplete m then EmptyString else currentOutputTranscription st) ∧
    transcripts st1
    = (if turnComplete m then
         match currentModelAudioChunks st with
         | [] => transcripts st
         | _ :: _ =>
             attach_pcm (concat (currentModelAudioChunks st)) (transcripts st)
         end
       else transcripts st).
Proof.
  unfold turnComplete_block. destruct (turnComplete m); [|by eexists].
  destruct (currentModelAudioChunks st) as [|c cs] eqn:Hc; simpl.
  - eexists. split; [done|]. by rewrite Hc.
  - rewrite mergeUint8Arrays_concat. simpl. by eexists.
Qed.

(** The handler run in one piece: the transcription branch, the
    turn-complete branch, the enqueue when the audio guard passes, the
    [interrupted] branch. *)
Lemma handleOnMessage_unfold m now wall st :
  ∃ st1, turnComplete_block m (transcription_block m wall st) = Some st1 ∧
    handleOnMessage m now wall st
    = Completed (interrupted_block (interrupted m)
                   (from_option (λ s, enqueue s now st1) st1 (audio_guard m st1))).
Proof.
  destruct (turnComplete_block_fields m (transcription_block m wall st))
    as (st1 & Hst1 & _).
  exists st1. split; [done|].
  unfold handleOnMessage, App.handleOnMessage_begin. rewrite Hst1.
  by destruct (audio_guard m st1).
Qed.

Lemma audio_guard_None m st :
  inlineData m = None ∨ inlineData m = Some EmptyString ∨
  outputAudioContext st = None →
  audio_guard m st = None.
Proof.
  unfold audio_guard. intros [-> | [-> | ->]]; [done| |].
  - by destruct (outputAudioContext st).
  - by destruct (inlineData m).
Qed.

(** X4.  A message whose payload is absent or the empty string, or that
    arrives when there is no output context, is not enqueued: its handler
    returns with the context, the cursor, the tracked set and the heap as
    they were, and the payload is not even added to the chunks kept for the
    transcript. *)
Theorem audio_without_context_is_ignored m now wall st :
  inlineData m = None ∨ inlineData m = Some EmptyString ∨
  outputAudioContext st = None →
  interrupted m = false →
  ∃ st', handleOnMessage m now wall st = Completed st' ∧
    same_sched st st' ∧
    currentModelAudioChunks st'
    = (if turnComplete m then [] else currentModelAudioChunks st).
Proof.
  intros Hguard Hint.
  destruct (transcription_block_sched m wall st) as [Hs0 Hc0].
  destruct (turnComplete_block_fields m (transcription_block m wall st))
    as (st1 & Hst1 & Hs1 & Hc1 & _).
  destruct (handleOnMessage_unfold m now wall st) as (st1' & Hst1' & Hrun).
  rewrite Hst1 in Hst1'. injection Hst1' as <-.
  rewrite audio_guard_None, Hint in Hrun.
  - exists st1. split; [done|]. split; [by eapply same_sched_trans|].
    by rewrite Hc1, Hc0.
  - destruct (same_sched_trans _ _ _ Hs0 Hs1) as (Hctx & _).
    rewrite Hctx. tauto.
Qed.

(** *** Transcripts *)

Lemma upsert_last_twice sp t1 t2 w1 w2 prev :
  upsert_last sp t2 w2 (upsert_last sp t1 w1 prev) = upsert_last sp t2 w1 prev.
Proof.
  unfold upsert_last at 2 3.
  destruct (last prev) as [l|] eqn:Hl; [case_decide as Hsame|].
  - unfold upsert_last. rewrite last_snoc, removelast_last.
    by rewrite decide_True by done.
  - unfold upsert_last. rewrite last_snoc, removelast_last.
    by rewrite decide_True by done.
  - unfold upsert_last. rewrite last_snoc, removelast_last.
    by rewrite decide_True by done.
Qed.

(** What [upsert_last] keeps: every entry stays where it is with its
    speaker, mode, audio and time; only the text of the last entry can change,
    and only when that entry is a streaming entry of the same speaker. *)
Lemma upsert_last_frame sp t wall prev j e :
  prev !! j = Some e →
  ∃ e', upsert_last sp t wall prev !! j = Some e' ∧
    speaker e' = speaker e ∧ mode e' = mode e ∧
    pcmData e' = pcmData e ∧ timestamp e' = timestamp e ∧
    (text e' ≠ text e →
     S j = length prev ∧ speaker e = sp ∧ mode e = streaming ∧ text e' = t).
Proof.
  intros Hj. unfold upsert_last.
  destruct (last prev) as [l|] eqn:Hl; [case_decide as Hsame|].
  - apply last_Some in Hl as [front ->]. rewrite removelast_last.
    destruct (decide (j < length front)%nat) as [Hlt|Hge].
    + rewrite lookup_app_l in Hj |- * by done. by exists e.
    + rewrite lookup_app_r in Hj |- * by lia.
      destruct (j - length front)%nat as [|k] eqn:Hk; [|done].
      simpl in Hj. injection Hj as ->. eexists. split; [done|].
      destruct Hsame as [Hsp Hmode]. split_and!; try done.
      intros _. rewrite length_app. simpl. split_and!; [lia|done..].
  - exists e. split; [by apply lookup_app_l_Some|]. by split_and!.
  - exists e. split; [by apply lookup_app_l_Some|]. by split_and!.
Qed.

Lemma upsert_last_length sp t wall prev :
  (length prev ≤ length (upsert_last sp t wall prev) ≤ S (length prev))%nat.
Proof.
  unfold upsert_last.
  destruct (last prev) as [l|] eqn:Hl; [case_decide|].
  - apply last_Some in Hl as [front ->].
    rewrite removelast_last, !length_app. simpl. lia.
  - rewrite length_app. simpl. lia.
  - rewrite length_app. simpl. lia.
Qed.

Lemma attach_pcm_frame pcm prev j e :
  prev !! j = Some e →
  ∃ e', attach_pcm pcm prev !! j = Some e' ∧
    speaker e' = speaker e ∧ mode e' = mode e ∧
    text e' = text e ∧ timestamp e' = timestamp e.
Proof.
  intros Hj. unfold attach_pcm. case_match; [|by exists e].
  rewrite list_lookup_alter.
  case_decide; subst; rewrite ?Hj; simpl;
    (eexists; split; [reflexivity|]); by destruct e.
Qed.

(** The transcripts after the transcription branch. *)
Lemma transcription_block_transcripts m wall st :
  transcripts (transcription_block m wall st)
  = match outputTranscription m, inputTranscription m with
    | Some t, _ =>
        upsert_last model (currentOutputTranscription st +:+ t) wall
          (transcripts st)
    | None, Some t =>
        upsert_last user (currentInputTranscription st +:+ t) wall
          (transcripts st)
    | None, None => transcripts st
    end.
Proof. unfold transcription_block. by repeat case_match. Qed.

(** X3.  Whatever a message carries, its handler never removes or reorders
    transcript entries and never changes the speaker, the mode or the time of
    an entry; it adds at most one entry.  The text of an entry changes only
    if it is the last entry and a streaming one, so the entries of batch
    exchanges keep their text; the audio of an entry changes only on a
    message with [turnComplete]. *)
Theorem transcripts_are_append_only m now wall st :
  let prev := transcripts st in
  let after := transcripts (progress_store (handleOnMessage m now wall st)) in
  (length prev ≤ length after ≤ S (length prev))%nat ∧
  ∀ j e, prev !! j = Some e →
    ∃ e', after !! j = Some e' ∧
      speaker e' = speaker e ∧ mode e' = mode e ∧ timestamp e' = timestamp e ∧
      (text e' ≠ text e → S j = length prev ∧ mode e = streaming) ∧
      (pcmData e' ≠ pcmData e → turnComplete m = true).
Proof.
  intros prev after.
  destruct (handleOnMessage_transcripts decode decodeAudioData m now wall st)
    as (st1 & st' & Hst1 & Hrun & Htr).
  destruct (turnComplete_block_fields m (transcription_block m wall st))
    as (st1' & Hst1' & _ & _ & _ & _ & Htr1).
  rewrite Hst1 in Hst1'. injection Hst1' as <-.
  assert (after = transcripts st1) as -> by (unfold after; by rewrite Hrun).
  set (mid := transcripts (transcription_block m wall st)) in *.
  assert ((length prev ≤ length mid ≤ S (length prev))%nat ∧
          ∀ j e, prev !! j = Some e →
            ∃ e', mid !! j = Some e' ∧
              speaker e' = speaker e ∧ mode e' = mode e ∧
              pcmData e' = pcmData e ∧ timestamp e' = timestamp e ∧
              (text e' ≠ text e → S j = length prev ∧ mode e = streaming))
    as [Hlen Hmid].
  { unfold mid. rewrite transcription_block_transcripts.
    destruct (outputTranscription m) as [t|];
      [|destruct (inputTranscription m) as [t|]].
    - split; [apply upsert_last_length|]. intros j e Hj.
      destruct (upsert_last_frame model
                  (currentOutputTranscription st +:+ t) wall prev j e Hj)
        as (e' & ? & ? & ? & ? & ? & Htext).
      exists e'. split_and!; try done. intros Hne. by destruct (Htext Hne) as (?&?&?&?).
    - split; [apply upsert_last_length|]. intros j e Hj.
      destruct (upsert_last_frame user
                  (currentInputTranscription st +:+ t) wall prev j e Hj)
        as (e' & ? & ? & ? & ? & ? & Htext).
      exists e'. split_and!; try done. intros Hne. by destruct (Htext Hne) as (?&?&?&?).
    - split; [unfold prev; lia|]. intros j e Hj. exists e. by split_and!. }
  destruct (turnComplete m) eqn:Htc.
  - assert (transcripts st1 = mid ∨
            ∃ pcm, transcripts st1 = attach_pcm pcm mid) as [->|[pcm ->]].
    { rewrite Htr1. destruct (currentModelAudioChunks _); eauto. }
    + split; [done|]. intros j e Hj.
      destruct (Hmid j e Hj) as (e' & ? & ? & ? & ? & ? & ?).
      exists e'. by split_and!.
    + rewrite attach_pcm_length. split; [done|]. intros j e Hj.
      destruct (Hmid j e Hj) as (e1 & Hj1 & ? & ? & ? & ? & Htext).
      destruct (attach_pcm_frame pcm mid j e1 Hj1) as (e' & ? & ? & ? & Ht & ?).
      exists e'. split_and!; try congruence.
      intros Hne. apply Htext. congruence.
  - rewrite Htr1. split; [done|]. intros j e Hj.
    destruct (Hmid j e Hj) as (e' & ? & ? & ? & Hpcm & ? & ?).
    exists e'. split_and!; try done.
Qed.

End HandlerFacts.

(** ** Fragments of a turn *)

Section FragmentFacts.
Import App Transcription.
Context (decode : string → list byte).
Context (decodeAudioData : list byte → positive → nat → Pcm.AudioBuffer).

Local Abbreviation handleOnMessage :=
  (App.handleOnMessage decode decodeAudioData).
Local Abbreviation handle_all := (App.handle_all decode decodeAudioData).

Lemma string_app_assoc (a b c : string) : (a +:+ b) +:+ c = a +:+ (b +:+ c).
Proof.
  induction a as [|x a IH]; [done|].
  change (String x ((a +:+ b) +:+ c) = String x (a +:+ b +:+ c)).
  by rewrite IH.
Qed.

Lemma string_app_nil_r (a : string) : a +:+ EmptyString = a.
Proof.
  induction a as [|x a IH]; [done|].
  change (String x (a +:+ EmptyString) = String x a). by rewrite IH.
Qed.

(** One fragment of [sp] in a message without [turnComplete]. *)
Lemma fragment_step sp m now wall st t :
  said_by sp m = Some t → turnComplete m = false →
  let st' := progress_store (handleOnMessage m now wall st) in
  transcripts st'
  = upsert_last sp (transcription_ref sp st +:+ t) wall (transcripts st) ∧
  transcription_ref sp st' = transcription_ref sp st +:+ t.
Proof.
  intros Hsaid Htc. cbv zeta.
  destruct (handleOnMessage_transcripts decode decodeAudioData m now wall st)
    as (st1 & st' & Hst1 & Hrun & Htr).
  rewrite Hrun. simpl.
  assert (st1 = transcription_block m wall st) as Hblock.
  { unfold turnComplete_block in Hst1. rewrite Htc in Hst1. congruence. }
  assert (transcription_ref sp st' = transcription_ref sp st1) as ->.
  { destruct (handleOnMessage_unfold decode decodeAudioData m now wall st)
      as (st1' & Hst1' & Hrun').
    rewrite Hst1 in Hst1'. injection Hst1' as <-.
    rewrite Hrun in Hrun'. injection Hrun' as ->.
    unfold interrupted_block, stopAudioPlayback, enqueue, schedule,
      clamp_cursor, push_chunk.
    destruct sp, (interrupted m), (audio_guard m st1);
      simpl; by repeat case_match. }
  rewrite Htr, Hblock. unfold transcription_block, said_by in *.
  destruct sp, (outputTranscription m), (inputTranscription m);
    simplify_eq; done.
Qed.

Lemma fragments_join sp (rest : list Arrival) st w1 prev :
  transcripts st = upsert_last sp (transcription_ref sp st) w1 prev →
  Forall (λ a : Arrival,
            is_Some (said_by sp a.1.1) ∧ turnComplete a.1.1 = false) rest →
  transcripts (handle_all rest st)
  = upsert_last sp (transcription_ref sp st +:+ joined sp rest) w1 prev ∧
  transcription_ref sp (handle_all rest st)
  = transcription_ref sp st +:+ joined sp rest.
Proof.
  intros Htr Hall. revert st Htr.
  induction Hall as [|[[m now] wall] rest [[t Hsaid] Htc] _ IH]; intros st Htr.
  - simpl. by rewrite string_app_nil_r.
  - simpl in Hsaid, Htc.
    destruct (fragment_step sp m now wall st t Hsaid Htc) as [Htr' Href'].
    cbv zeta in Htr', Href'.
    change (handle_all (((m, now, wall) : Arrival) :: rest) st)
      with (handle_all rest (progress_store (handleOnMessage m now wall st))).
    destruct (IH (progress_store (handleOnMessage m now wall st))) as [H1 H2].
    { rewrite Htr', Href', Htr. apply upsert_last_twice. }
    rewrite H1, H2, Href'. simpl. rewrite Hsaid. simpl.
    by rewrite string_app_assoc.
Qed.

(** X2.  The fragments of one speaker that arrive between two
    [turnComplete]s build one transcript entry: after a run of such messages
    the transcripts are those that a single message carrying the joined
    fragments at the time of the first one would have left, and the ref of
    that speaker holds what it held before followed by the joined fragments.
    Audio and interruptions carried by the messages change nothing of
    this. *)
Theorem fragments_build_one_entry sp m now wall (rest : list Arrival) st :
  Forall (λ a : Arrival,
            is_Some (said_by sp a.1.1) ∧ turnComplete a.1.1 = false)
         ((m, now, wall) :: rest) →
  let msgs : list Arrival := (m, now, wall) :: rest in
  transcripts (handle_all msgs st)
  = upsert_last sp (transcription_ref sp st +:+ joined sp msgs) wall
      (transcripts st) ∧
  transcription_ref sp (handle_all msgs st)
  = transcription_ref sp st +:+ joined sp msgs.
Proof.
  intros Hall msgs. inversion Hall as [|a l [[t Hsaid] Htc] Hrest]; subst.
  simpl in Hsaid, Htc.
  destruct (fragment_step sp m now wall st t Hsaid Htc) as [Htr' Href'].
  cbv zeta in Htr', Href'.
  change (handle_all msgs st)
    with (handle_all rest (progress_store (handleOnMessage m now wall st))).
  destruct (fragments_join sp rest
              (progress_store (handleOnMessage m now wall st)) wall
              (transcripts st)) as [H1 H2]; [by rewrite Htr', Href' | done |].
  rewrite H1, H2, Href'. unfold msgs. simpl. rewrite Hsaid. simpl.
  by rewrite string_app_assoc.
Qed.

(** The handler's last two branches leave the transcripts and both
    transcription refs as the turn-complete branch left them. *)
Lemma handleOnMessage_refs m now wall st :
  ∃ st1, turnComplete_block m (transcription_block m wall st) = Some st1 ∧
    let st' := progress_store (handleOnMessage m now wall st) in
    transcripts st' = transcripts st1 ∧
    currentOutputTranscription st' = currentOutputTranscription st1 ∧
    currentInputTranscription st' = currentInputTranscription st1.
Proof.
  destruct (handleOnMessage_unfold decode decodeAudioData m now wall st)
    as (st1 & Hst1 & Hrun).
  exists st1. split; [done|]. rewrite Hrun.
  unfold interrupted_block, stopAudioPlayback, enqueue, schedule,
    clamp_cursor, push_chunk.
  destruct (interrupted m), (audio_guard m st1);
    simpl; by repeat case_match.
Qed.

Lemma upsert_last_last sp t wall prev :
  ∃ e, last (upsert_last sp t wall prev) = Some e ∧
    text e = t ∧ speaker e = sp ∧ mode e = streaming.
Proof.
  unfold upsert_last.
  destruct (last prev) as [l|] eqn:Hl; [case_decide as Hsame|];
    rewrite last_snoc; eexists; (split; [done|]); [|done..].
  destruct Hsame. by destruct l.
Qed.

Lemma upsert_last_same sp t wall prev e :
  last prev = Some e → speaker e = sp → mode e = streaming →
  upsert_last sp t wall prev = removelast prev ++ [with_text t e].
Proof.
  intros Hl Hsp Hmode. unfold upsert_last. rewrite Hl.
  by rewrite decide_True by done.
Qed.

Lemma attach_pcm_last pcm prev e :
  last prev = Some e →
  ∃ e', last (attach_pcm pcm prev) = Some e' ∧
    speaker e' = speaker e ∧ mode e' = mode e ∧ text e' = text e.
Proof.
  rewrite !last_lookup, attach_pcm_length. intros Hl.
  destruct (attach_pcm_frame pcm prev _ e Hl) as (e' & ? & ? & ? & ? & ?).
  by exists e'.
Qed.

(** X5.  A turn that ends does not close its transcript entry.  Let a
    message with [turnComplete] leave an entry of the model last, either
    because it carries a fragment of the model itself or because it carries
    no fragment and the entry was last already.  When the next message
    carries a fragment of the model, that fragment replaces the text of that
    entry: the list does not grow, the entries before the last one stay, and
    the last entry holds the new fragment alone, whatever text it held. *)
Theorem next_turn_overwrites_last_entry m1 now1 wall1 m2 now2 wall2 t2 st :
  turnComplete m1 = true →
  is_Some (outputTranscription m1) ∨
  (outputTranscription m1 = None ∧ inputTranscription m1 = None ∧
   ∃ e0, last (transcripts st) = Some e0 ∧
     speaker e0 = model ∧ mode e0 = streaming) →
  outputTranscription m2 = Some t2 → turnComplete m2 = false →
  let st1 := progress_store (handleOnMessage m1 now1 wall1 st) in
  let st2 := progress_store (handleOnMessage m2 now2 wall2 st1) in
  (∃ e1 e2, last (transcripts st1) = Some e1 ∧
     last (transcripts st2) = Some e2 ∧ text e2 = t2 ∧
     speaker e2 = model ∧ mode e2 = streaming ∧
     pcmData e2 = pcmData e1 ∧ timestamp e2 = timestamp e1) ∧
  length (transcripts st2) = length (transcripts st1) ∧
  removelast (transcripts st2) = removelast (transcripts st1) ∧
  (outputTranscription m1 = None →
   length (transcripts st1) = length (transcripts st)).
Proof.
  intros Htc1 Hlast Hout2 Htc2 st1 st2.
  (* the first message *)
  destruct (handleOnMessage_refs m1 now1 wall1 st)
    as (s1 & Hs1 & Htr1 & Hor1 & _).
  destruct (turnComplete_block_fields m1 (transcription_block m1 wall1 st))
    as (s1' & Hs1' & _ & _ & _ & Hor1' & Htr1').
  rewrite Hs1 in Hs1'. injection Hs1' as <-.
  cbv zeta in Htr1, Hor1. fold st1 in Htr1, Hor1.
  rewrite Htc1 in Hor1', Htr1'. rewrite Hor1' in Hor1.
  assert (∃ e0, last (transcripts (transcription_block m1 wall1 st)) = Some e0 ∧
            speaker e0 = model ∧ mode e0 = streaming)
    as (e0 & Hl0 & Hsp0 & Hmode0).
  { rewrite transcription_block_transcripts.
    destruct Hlast as [[t1 Hout1]|(Hout1 & Hin1 & e0 & ? & ? & ?)].
    - rewrite Hout1.
      destruct (upsert_last_last model (currentOutputTranscription st +:+ t1)
                  wall1 (transcripts st)) as (e0 & ? & _ & ? & ?).
      by exists e0.
    - rewrite Hout1, Hin1. by exists e0. }
  assert (∃ e1, last (transcripts st1) = Some e1 ∧
            speaker e1 = model ∧ mode e1 = streaming)
    as (e1 & Hl1 & Hsp1 & Hmode1).
  { rewrite Htr1, Htr1'.
    destruct (currentModelAudioChunks (transcription_block m1 wall1 st))
      as [|c cs].
    - by exists e0.
    - destruct (attach_pcm_last (concat (c :: cs)) _ e0 Hl0)
        as (e1 & ? & ? & ? & ?).
      exists e1. split_and!; congruence. }
  (* the second message *)
  destruct (fragment_step model m2 now2 wall2 st1 t2) as [Htr2 _];
    [unfold said_by; by rewrite Hout2 | done |].
  cbv zeta in Htr2. fold st2 in Htr2. simpl in Htr2.
  rewrite Hor1 in Htr2. change (EmptyString +:+ t2) with t2 in Htr2.
  rewrite (upsert_last_same model t2 wall2 _ e1 Hl1 Hsp1 Hmode1) in Htr2.
  split; [|split; [|split]].
  - exists e1, (with_text t2 e1). split; [done|].
    rewrite Htr2, last_snoc. by destruct e1.
  - rewrite Htr2. apply last_Some in Hl1 as [front Hfront]. rewrite Hfront.
    by rewrite removelast_last, !length_app.
  - by rewrite Htr2, removelast_last.
  - intros Hout1. rewrite Htr1, Htr1'.
    assert (length (transcripts (transcription_block m1 wall1 st))
            = length (transcripts st)) as <-.
    { destruct Hlast as [[t1 Hout1']|(_ & Hin1 & _)]; [congruence|].
      by rewrite transcription_block_absent. }
    case_match; [done | apply attach_pcm_length].
Qed.

End FragmentFacts.

Section FragmentExamples.
Import App Transcription Samples.

Local Abbreviation handle := (App.handleOnMessage raw Pcm.decodeAudioData).
Local Abbreviation handle_all := (App.handle_all raw Pcm.decodeAudioData).

(** Audio that arrives before any session was started. *)
Lemma audio_without_context_is_ignored_witness :
  ∃ st', handle (audio "AAAA") 0%Qc 0 (store (initial [])) = Completed st' ∧
    same_sched (store (initial [])) st' ∧
    currentModelAudioChunks st' = [].
Proof.
  apply (audio_without_context_is_ignored raw Pcm.decodeAudioData
           (audio "AAAA") 0%Qc 0%Z (store (initial []))).
  - right. right. reflexivity.
  - reflexivity.
Defined.

(** [Hel] and [lo] arrive in two messages and are shown as one entry. *)
Lemma fragments_build_one_entry_witness :
  transcripts
    (handle_all [(mkMessage (Some "Hel") None false None false, 0%Qc, 7%Z);
                 (mkMessage (Some "lo") None false None false, Q2Qc 1, 9%Z)]
                (store (initial [])))
  = [mkEntry model "Hello" streaming None 7].
Proof.
  pose proof (fragments_build_one_entry raw Pcm.decodeAudioData model
                (mkMessage (Some "Hel") None false None false) 0%Qc 7%Z
                [(mkMessage (Some "lo") None false None false, Q2Qc 1, 9%Z)]
                (store (initial []))) as H.
  destruct H as [H _].
  - repeat constructor; by eexists.
  - exact H.
Defined.

(** The model has said [Hi]; the turn ends; [Bye] opens the next turn and
    takes the place of [Hi]. *)
Lemma next_turn_overwrites_last_entry_witness :
  let st := mkStore [mkEntry user "Hey" streaming None 0;
                     mkEntry model "Hi" streaming None 1]
              (Some running) [] EmptyString "Hi" 0%Qc ∅ [] in
  let st1 := progress_store
               (handle (mkMessage None None true None false) 0%Qc 2 st) in
  let st2 := progress_store
               (handle (mkMessage (Some "Bye") None false None false)
                  (Q2Qc 1) 3 st1) in
  (∃ e2, last (transcripts st2) = Some e2 ∧ text e2 = "Bye") ∧
  length (transcripts st2) = 2%nat ∧
  removelast (transcripts st2) = [mkEntry user "Hey" streaming None 0].
Proof.
  intros st st1 st2.
  destruct (next_turn_overwrites_last_entry raw Pcm.decodeAudioData
              (mkMessage None None true None false) 0%Qc 2%Z
              (mkMessage (Some "Bye") None false None false) (Q2Qc 1) 3%Z
              "Bye" st eq_refl)
    as ((e1 & e2 & _ & Hl2 & Ht2 & _) & Hlen & Hfront & Hsame);
    [right; split_and!; [done..|by eexists] | done | done |].
  split; [by exists e2|]. split.
  - etrans; [exact Hlen|]. etrans; [exact (Hsame eq_refl)|]. done.
  - etrans; [exact Hfront|]. by vm_compute.
Defined.

End FragmentExamples.

(** ** The audio of a turn *)

Section TurnFacts.
Import App Transcription.
Context (decode : string → list byte).
Context (decodeAudioData : list byte → positive → nat → Pcm.AudioBuffer).

Local Abbreviation handleOnMessage :=
  (App.handleOnMessage decode decodeAudioData).
Local Abbreviation handle_all := (App.handle_all decode decodeAudioData).

(** The chunks a message leaves: an interruption empties the list; otherwise
    [turnComplete] empties it first, and then the payload, if it passes the
    guard, is pushed. *)
Lemma handleOnMessage_chunks m now wall st :
  currentModelAudioChunks (progress_store (handleOnMessage m now wall st))
  = if interrupted m then []
    else (if turnComplete m then [] else currentModelAudioChunks st)
         ++ from_option (λ s, [decode s]) [] (audio_guard m st).
Proof.
  destruct (handleOnMessage_unfold decode decodeAudioData m now wall st)
    as (st1 & Hst1 & ->).
  destruct (transcription_block_sched m wall st) as [(Hc0 & _) Hch0].
  destruct (turnComplete_block_fields m (transcription_block m wall st))
    as (st1' & Hst1' & (Hc1 & _) & Hch1 & _).
  rewrite Hst1 in Hst1'. injection Hst1' as <-.
  assert (audio_guard m st1 = audio_guard m st) as ->.
  { unfold audio_guard. by rewrite Hc1, Hc0. }
  rewrite Hch0 in Hch1. simpl.
  destruct (interrupted m); simpl.
  - unfold stopAudioPlayback. by case_match.
  - destruct (audio_guard m st); simpl; rewrite Hch1; [done|].
    by rewrite app_nil_r.
Qed.

Lemma plain_audio_chunks (a : Arrival) st :
  plain_audio a → turnComplete a.1.1 = false →
  is_Some (outputAudioContext st) →
  let st' := progress_store (handleOnMessage a.1.1 a.1.2 a.2 st) in
  is_Some (outputAudioContext st') ∧
  currentModelAudioChunks st'
  = currentModelAudioChunks st
    ++ [decode (default EmptyString (inlineData a.1.1))].
Proof.
  intros Hplain Htc Hctx st'.
  destruct (handle_plain_audio decode decodeAudioData a st Hplain Hctx)
    as (Hc & _).
  fold st' in Hc. split; [by rewrite Hc|].
  unfold st'. rewrite handleOnMessage_chunks.
  destruct Hplain as [(s & Hs & Hne) ->]. rewrite Htc, Hs.
  by rewrite (audio_guard_Some _ _ s Hs Hne Hctx).
Qed.

Lemma plain_audio_run_chunks (msgs : list Arrival) st :
  Forall (λ a : Arrival, plain_audio a ∧ turnComplete a.1.1 = false) msgs →
  is_Some (outputAudioContext st) →
  is_Some (outputAudioContext (handle_all msgs st)) ∧
  currentModelAudioChunks (handle_all msgs st)
  = currentModelAudioChunks st
    ++ ((λ a : Arrival, decode (default EmptyString (inlineData a.1.1)))
          <$> msgs).
Proof.
  intros Hall. revert st.
  induction Hall as [|a rest [Hplain Htc] _ IH]; intros st Hctx.
  - simpl. by rewrite app_nil_r.
  - rewrite (handle_all_cons decode decodeAudioData).
    destruct (plain_audio_chunks a st Hplain Htc Hctx) as [Hctx' Hch'].
    cbv zeta in Hctx', Hch'.
    destruct (IH _ Hctx') as [Hctx'' ->]. split; [done|].
    rewrite Hch', fmap_cons. by rewrite <-app_assoc.
Qed.

(** X6.  The audio of a turn reaches the transcript whole and in order.
    After a run of messages that carry audio (and neither [turnComplete] nor
    an interruption) the chunks kept are those kept before followed by the
    decoded payloads in arrival order; the message with [turnComplete] that
    follows stores their concatenation in the last entry of the model.  A
    payload carried by that very message is not part of it: it opens the
    list of the next turn. *)
Theorem turn_audio_reaches_transcript (msgs : list Arrival) m now wall st :
  is_Some (outputAudioContext st) →
  Forall (λ a : Arrival, plain_audio a ∧ turnComplete a.1.1 = false) msgs →
  msgs ≠ [] →
  turnComplete m = true → interrupted m = false →
  let turn :=
    currentModelAudioChunks st
    ++ ((λ a : Arrival, decode (default EmptyString (inlineData a.1.1)))
          <$> msgs) in
  let st1 := handle_all msgs st in
  let st2 := progress_store (handleOnMessage m now wall st1) in
  currentModelAudioChunks st1 = turn ∧
  transcripts st2
  = attach_pcm (concat turn) (transcripts (transcription_block m wall st1)) ∧
  currentModelAudioChunks st2
  = match inlineData m with
    | Some s => if decide (s = EmptyString) then [] else [decode s]
    | None => []
    end.
Proof.
  intros Hctx Hall Hne Htc Hint turn st1 st2.
  destruct (plain_audio_run_chunks msgs st Hall Hctx) as [[c Hctx1] Hch1].
  fold st1 in Hctx1, Hch1. fold turn in Hch1.
  split; [done|]. split.
  - destruct (handleOnMessage_refs decode decodeAudioData m now wall st1)
      as (s1 & Hs1 & Htr & _).
    destruct (turnComplete_block_fields m (transcription_block m wall st1))
      as (s1' & Hs1' & _ & _ & _ & _ & Htr1).
    rewrite Hs1 in Hs1'. injection Hs1' as <-.
    cbv zeta in Htr. fold st2 in Htr. rewrite Htr, Htr1, Htc.
    destruct (transcription_block_sched m wall st1) as [_ ->].
    rewrite Hch1.
    destruct turn as [|x turn'] eqn:Hturn; [|done].
    unfold turn in Hturn. apply app_eq_nil in Hturn as [_ Hnil].
    by apply fmap_nil_inv in Hnil.
  - unfold st2. rewrite handleOnMessage_chunks, Hint, Htc. simpl.
    unfold audio_guard. rewrite Hctx1.
    destruct (inlineData m); [case_decide|]; done.
Qed.

End TurnFacts.

Section TurnExamples.
Import App Transcription Samples.

Local Abbreviation handle := (App.handleOnMessage raw Pcm.decodeAudioData).
Local Abbreviation handle_all := (App.handle_all raw Pcm.decodeAudioData).

(** Two chunks of a reply, then the end of the turn with a chunk of its
    own. *)
Lemma turn_audio_reaches_transcript_witness :
  let st := mkStore [mkEntry model "Hi" streaming None 5] (Some running) []
              EmptyString "Hi" 0%Qc ∅ [] in
  let st1 := handle_all [(audio "ab", 0%Qc, 6%Z); (audio "cdef", 0%Qc, 7%Z)]
               st in
  let st2 := progress_store
               (handle (mkMessage None None true (Some "gh") false)
                       0%Qc 8 st1) in
  currentModelAudioChunks st1 = [raw "ab"; raw "cdef"] ∧
  transcripts st2
  = [mkEntry model "Hi" streaming (Some (raw "abcdef")) 5] ∧
  currentModelAudioChunks st2 = [raw "gh"].
Proof.
  pose proof (turn_audio_reaches_transcript raw Pcm.decodeAudioData
                [(audio "ab", 0%Qc, 6%Z); (audio "cdef", 0%Qc, 7%Z)]
                (mkMessage None None true (Some "gh") false) 0%Qc 8%Z
                (mkStore [mkEntry model "Hi" streaming None 5] (Some running)
                   [] EmptyString "Hi" 0%Qc ∅ [])) as H.
  destruct H as (H1 & H2 & H3).
  - by eexists.
  - repeat constructor; by eexists.
  - done.
  - reflexivity.
  - reflexivity.
  - split; [exact H1|]. split; [|exact H3].
    etrans; [exact H2|]. reflexivity.
Defined.

End TurnExamples.

(** ** The timeline: properties *)

Section TimelineFacts.
Import App Timeline.
Context (decode : string → list byte).
Context (decodeAudioData : list byte → positive → nat → Pcm.AudioBuffer).

Local Abbreviation handleOnMessage :=
  (App.handleOnMessage decode decodeAudioData).
Local Abbreviation schedule := (App.schedule decodeAudioData).
Local Abbreviation step := (App.step decode decodeAudioData).
Local Abbreviation reachable := (App.reachable decode decodeAudioData).

Lemma silent_sched_inv st : silent st → sched_inv st.
Proof.
  intros Hs. split.
  - intros id n t Hn Hp. by destruct (Hs id n t Hn).
  - intros i j ni nj ti tj _ Hi _ Hp _. by destruct (Hs i ni ti Hi).
Qed.

Lemma same_sched_sched_inv st st' :
  same_sched st st' → sched_inv st → sched_inv st'.
Proof.
  intros (Hc & Hcur & Ha & Hn) Hinv. unfold sched_inv.
  by rewrite Hcur, Ha, Hn.
Qed.

Lemma clamp_cursor_sched_inv now st :
  sched_inv st → sched_inv (clamp_cursor now st).
Proof.
  intros [H1 H2]. split; simpl; [|done]. intros id n t Hn Hp.
  destruct (H1 id n t Hn Hp) as [Hin Hle]. split; [done|].
  eapply Qcle_trans; [exact Hle | apply Qcmax_ge_l].
Qed.

Lemma schedule_sched_inv decoded st :
  sched_inv st → sched_inv (schedule decoded st).
Proof.
  intros [H1 H2]. split; simpl.
  - intros id n t Hn Hp.
    destruct (decide (id < length (nodes st))%nat) as [Hlt|Hge].
    + rewrite lookup_app_l in Hn by done.
      destruct (H1 id n t Hn Hp) as [Hin Hle].
      split; [apply elem_of_union; by right|].
      eapply Qcle_trans; [exact Hle|].
      apply Qcle_plus_nonneg, duration_nonneg.
    + rewrite lookup_app_r in Hn by lia.
      destruct (id - length (nodes st))%nat as [|k] eqn:Hk; [|done].
      simpl in Hn. injection Hn as <-. simpl in Hp. injection Hp as <-.
      assert (id = length (nodes st)) as -> by lia.
      split; [apply elem_of_union; left; by apply elem_of_singleton|].
      apply Qcle_refl.
  - intros i j ni nj ti tj Hij Hi Hj Hpi Hpj.
    destruct (decide (j < length (nodes st))%nat) as [Hlt|Hge].
    + rewrite lookup_app_l in Hi, Hj by lia. eauto.
    + rewrite lookup_app_r in Hj by lia.
      destruct (j - length (nodes st))%nat as [|k] eqn:Hk; [|done].
      simpl in Hj. injection Hj as <-. simpl in Hpj. injection Hpj as <-.
      rewrite lookup_app_l in Hi by lia.
      by destruct (H1 i ni ti Hi Hpi).
Qed.

Lemma ended_sched_inv id st : sched_inv st → sched_inv (ended id st).
Proof.
  intros [H1 H2].
  assert (∀ j n t,
            alter (λ n, mkNode (buffer n) Finished) id (nodes st) !! j = Some n →
            playState n = Scheduled t → j ≠ id ∧ nodes st !! j = Some n)
    as Hlook.
  { intros j n t Hn Hp. rewrite list_lookup_alter in Hn.
    case_decide as Hid; [|done]. subst.
    destruct (nodes st !! j); simplify_eq/=. }
  split; simpl.
  - intros j n t Hn Hp. destruct (Hlook j n t Hn Hp) as [Hne Hn'].
    destruct (H1 j n t Hn' Hp) as [Hin Hle]. split; [|done].
    apply elem_of_difference. split; [done|].
    by intros ?%elem_of_singleton.
  - intros i j ni nj ti tj Hij Hi Hj Hpi Hpj.
    destruct (Hlook i ni ti Hi Hpi) as [_ Hi'].
    destruct (Hlook j nj tj Hj Hpj) as [_ Hj']. eauto.
Qed.

Lemma stopAudioPlayback_silent st :
  store_inv st → sched_inv st → silent (stopAudioPlayback st).
Proof.
  intros [Hnone _] [H1 _] id n t Hn Hp. unfold stopAudioPlayback in Hn.
  destruct (outputAudioContext st) eqn:Hc; simpl in Hn.
  - rewrite stop_all_lookup in Hn. case_decide as Hin.
    + destruct (nodes st !! id) as [n0|]; [|done].
      simpl in Hn. injection Hn as <-.
      unfold stop_or_keep, node_stop in Hp.
      by destruct (playState n0) eqn:Hp0; simpl in Hp; rewrite ?Hp0 in Hp.
    + by destruct (H1 id n t Hn Hp).
  - destruct (H1 id n t Hn Hp) as [Hin _].
    destruct (Hnone eq_refl) as [Hempty _]. rewrite Hempty in Hin.
    by apply not_elem_of_empty in Hin.
Qed.

Lemma interrupted_block_silent st :
  store_inv st → sched_inv st → silent (interrupted_block true st).
Proof.
  intros Hst Hs id n t Hn. by apply (stopAudioPlayback_silent st Hst Hs id n t).
Qed.

Lemma interrupted_block_sched_inv flag st :
  store_inv st → sched_inv st → sched_inv (interrupted_block flag st).
Proof.
  intros Hst Hs. destruct flag; [|done].
  by apply silent_sched_inv, interrupted_block_silent.
Qed.

Lemma pending_context w i k :
  world_inv w → pending w !! i = Some k →
  is_Some (outputAudioContext (store w)).
Proof.
  intros [_ Hpend] Hk.
  destruct (outputAudioContext (store w)) eqn:Hc; [eauto|].
  by rewrite Hpend in Hk.
Qed.

Lemma step_sched_inv w e :
  world_inv w → sched_inv (store w) → sched_inv (store (step w e)).
Proof.
  intros Hw Hs. pose proof Hw as [Hst Hpend].
  destruct e as [m now wall|i|id| |s|s]; simpl.
  - unfold App.handleOnMessage_begin.
    destruct (transcription_block_sched m wall (store w)) as [Hs0 _].
    destruct (turnComplete_block_Some m (transcription_block m wall (store w)))
      as (st1 & -> & Hs1 & _).
    pose proof (same_sched_trans _ _ _ Hs0 Hs1) as Hsame.
    pose proof (same_sched_inv _ _ Hsame Hst) as Hst1.
    pose proof (same_sched_sched_inv _ _ Hsame Hs) as Hs1'.
    destruct (audio_guard m st1) as [s|]; simpl.
    + by apply clamp_cursor_sched_inv.
    + by apply interrupted_block_sched_inv.
  - destruct (pending w !! i) as [k|] eqn:Hk; [|done]. simpl.
    apply interrupted_block_sched_inv.
    + apply schedule_inv; [by eapply pending_context | done].
    + by apply schedule_sched_inv.
  - by apply ended_sched_inv.
  - by apply silent_sched_inv, stopAudioPlayback_silent.
  - done.
  - unfold batchOutput. by destruct (outputAudioContext (store w)).
Qed.

(** X8.  In every state the component can reach, whatever the order in which
    messages arrive, decodes complete, nodes end and the user stops or
    restarts, the nodes that are still scheduled are all tracked (so that
    [stopAudioPlayback] reaches them), each ends by the cursor, and no two of
    them were given overlapping stretches: the one created later starts when
    the earlier one has ended, or later. *)
Theorem scheduled_nodes_never_overlap w :
  reachable w → sched_inv (store w).
Proof.
  induction 1 as [history|w e Hw IH].
  - split; intros; simplify_eq/=.
  - apply step_sched_inv; [|done].
    by apply (reachable_inv decode decodeAudioData).
Qed.

(** X9.  In every state the component can reach, once a handler has run
    [stopAudioPlayback] ([stopAll], or a message with [interrupted], at once
    or when its decode completes) no node at all is left scheduled, tracked
    or not.  The same holds after a handler that ran undisturbed on a message
    with [interrupted]: the chunk that very message carried is stopped with
    the others. *)
Theorem stop_leaves_nothing_scheduled w :
  reachable w →
  (∀ e, stops w e → silent (store (step w e))) ∧
  (∀ m now wall, interrupted m = true →
     silent (progress_store (handleOnMessage m now wall (store w)))).
Proof.
  intros Hreach.
  pose proof (reachable_inv decode decodeAudioData w Hreach) as Hw.
  pose proof Hw as [Hst Hpend].
  assert (sched_inv (store w)) as Hs.
  { clear Hw Hst Hpend. induction Hreach as [history|w e Hw IH].
    - split; intros; simplify_eq/=.
    - apply step_sched_inv; [|done].
      by apply (reachable_inv decode decodeAudioData). }
  split.
  - intros e He. destruct e as [m now wall|i|id| |s|s]; try done; simpl.
    + destruct He as [Hint Hguard]. unfold App.handleOnMessage_begin.
      destruct (transcription_block_sched m wall (store w)) as [Hs0 _].
      destruct (turnComplete_block_Some m
                  (transcription_block m wall (store w)))
        as (st1 & -> & Hs1 & _).
      pose proof (same_sched_trans _ _ _ Hs0 Hs1) as Hsame.
      assert (audio_guard m st1 = None) as ->.
      { destruct Hsame as (Hc & _). unfold audio_guard in *.
        by rewrite Hc. }
      rewrite Hint. simpl. apply interrupted_block_silent.
      * by eapply same_sched_inv.
      * by eapply same_sched_sched_inv.
    + simpl in He. destruct (pending w !! i) as [k|] eqn:Hk; [|done].
      simpl in He. injection He as Hflag. simpl.
      unfold App.handleOnMessage_resume. rewrite Hflag.
      apply interrupted_block_silent.
      * apply schedule_inv; [by eapply pending_context | done].
      * by apply schedule_sched_inv.
    + by apply stopAudioPlayback_silent.
  - intros m now wall Hint.
    destruct (handleOnMessage_unfold decode decodeAudioData m now wall (store w))
      as (st1 & Hst1 & ->).
    destruct (transcription_block_sched m wall (store w)) as [Hs0 _].
    destruct (turnComplete_block_Some m (transcription_block m wall (store w)))
      as (st1' & Hst1' & Hs1 & _).
    rewrite Hst1 in Hst1'. injection Hst1' as <-.
    pose proof (same_sched_trans _ _ _ Hs0 Hs1) as Hsame.
    pose proof (same_sched_inv _ _ Hsame Hst) as Hinv1.
    pose proof (same_sched_sched_inv _ _ Hsame Hs) as Hsch1.
    rewrite Hint. simpl. apply interrupted_block_silent.
    + destruct (audio_guard m st1) as [s|] eqn:Hg; simpl; [|done].
      assert (is_Some (outputAudioContext st1)) as [c Hc1].
      { unfold audio_guard in Hg. destruct (inlineData m); [|done].
        destruct (outputAudioContext st1); [eauto | done]. }
      apply schedule_inv; [simpl; eauto|].
      destruct Hinv1 as [_ Htracked]. split; simpl; [by rewrite Hc1 | done].
    + destruct (audio_guard m st1) as [s|]; simpl; [|done].
      apply schedule_sched_inv.
      by apply (clamp_cursor_sched_inv now (push_chunk (decode s) st1)).
Qed.

End TimelineFacts.

(** ** A new session *)

Section SessionFacts.
Import App Timeline.
Context (decode : string → list byte).
Context (decodeAudioData : list byte → positive → nat → Pcm.AudioBuffer).

Local Abbreviation handleOnMessage :=
  (App.handleOnMessage decode decodeAudioData).
Local Abbreviation step := (App.step decode decodeAudioData).

(** X10.  [startStreaming] installs a new output context and leaves the
    cursor, the tracked set and the nodes of the previous session as they
    are.  The first chunk of the new session is therefore started at the
    later of the old cursor and the reading of the new context's clock: when
    the session before was not ended through [stopAudioPlayback], the chunk
    waits for the old cursor. *)
Theorem new_session_inherits_cursor w s m now wall payload :
  inlineData m = Some payload → payload ≠ EmptyString →
  interrupted m = false →
  let st0 := store w in
  let st1 := store (step w (StartStreaming s)) in
  let st2 := progress_store (handleOnMessage m now wall st1) in
  outputAudioContext st1 = Some s ∧
  nextStartTime st1 = nextStartTime st0 ∧
  audioSources st1 = audioSources st0 ∧
  nodes st2
  = nodes st0
    ++ [mkNode (decodeAudioData (decode payload) 24000 1)
          (Scheduled (Qcmax (nextStartTime st0) now))] ∧
  ((now ≤ nextStartTime st0)%Qc →
   playState <$> nodes st2 !! length (nodes st0)
   = Some (Scheduled (nextStartTime st0))).
Proof.
  intros Hpayload Hne Hint st0 st1 st2.
  split; [done|]. split; [done|]. split; [done|].
  destruct (handle_plain_audio decode decodeAudioData (m, now, wall) st1)
    as (_ & Hnodes & _).
  { split; [by exists payload | done]. }
  { by eexists. }
  cbv zeta in Hnodes. simpl in Hnodes. fold st2 in Hnodes.
  unfold App.buffer_of in Hnodes. simpl in Hnodes.
  rewrite Hpayload in Hnodes. simpl in Hnodes.
  split; [exact Hnodes|]. intros Hle.
  rewrite Hnodes, lookup_app_r, Nat.sub_diag by done. simpl.
  by rewrite Qcmax_l.
Qed.

End SessionFacts.

Section TimelineExamples.
Import App Timeline Samples.

Local Abbreviation step := (App.step raw Pcm.decodeAudioData).
Local Abbreviation reachable := (App.reachable raw Pcm.decodeAudioData).
Local Abbreviation handle := (App.handleOnMessage raw Pcm.decodeAudioData).

(** Two chunks whose decodes complete in the order of arrival. *)
Lemma two_chunks_reachable :
  reachable
    (step (step (step (step (session running)
       (Message (audio (silence 4)) 0%Qc 0))
       (Message (audio (silence 8)) 0%Qc 0))
       (DecodeDone 0)) (DecodeDone 0)).
Proof. unfold session. repeat apply reachable_step. apply reachable_initial. Qed.

Lemma scheduled_nodes_never_overlap_witness :
  sched_inv
    (store (step (step (step (step (session running)
       (Message (audio (silence 4)) 0%Qc 0))
       (Message (audio (silence 8)) 0%Qc 0))
       (DecodeDone 0)) (DecodeDone 0))).
Proof.
  apply (scheduled_nodes_never_overlap raw Pcm.decodeAudioData).
  exact two_chunks_reachable.
Defined.

Lemma stop_leaves_nothing_scheduled_witness :
  silent
    (store (step (step (step (step (step (session running)
       (Message (audio (silence 4)) 0%Qc 0))
       (Message (audio (silence 8)) 0%Qc 0))
       (DecodeDone 0)) (DecodeDone 0)) StopAll)).
Proof.
  apply (proj1 (stop_leaves_nothing_scheduled raw Pcm.decodeAudioData _
                  two_chunks_reachable) StopAll I).
Defined.

(** A session is closed by the server after one second of audio was
    enqueued; the next session starts with the cursor at one second. *)
Lemma new_session_inherits_cursor_witness :
  let w := mkWorld (mkStore [] (Some running) [] EmptyString EmptyString
                      (Q2Qc 1) ∅ []) [] in
  let st1 := store (step w (StartStreaming running)) in
  let st2 := progress_store (handle (audio "abcd") 0%Qc 0 st1) in
  playState <$> nodes st2 !! 0%nat = Some (Scheduled (Q2Qc 1)).
Proof.
  pose proof (new_session_inherits_cursor raw Pcm.decodeAudioData
                (mkWorld (mkStore [] (Some running) [] EmptyString EmptyString
                            (Q2Qc 1) ∅ []) [])
                running (audio "abcd") 0%Qc 0%Z "abcd"
                eq_refl ltac:(done) eq_refl) as (_ & _ & _ & _ & H).
  apply H. by vm_compute.
Defined.

End TimelineExamples.

(** ** The batch reply: properties *)

Section BatchFacts.
Import App Batch.
Context (decode : string → list byte).
Context (decodeAudioData : list byte → positive → nat → Pcm.AudioBuffer).

Local Abbreviation batch_reply := (Batch.batch_reply decode decodeAudioData).
Local Abbreviation step := (App.step decode decodeAudioData).
Local Abbreviation run := (App.run decode decodeAudioData).

Lemma or_else_nonempty x fallback :
  fallback ≠ EmptyString → Js.or_else x fallback ≠ EmptyString.
Proof. intros Hf. unfold Js.or_else. destruct x; [case_decide|]; done. Qed.

Lemma untracked_same_sched id n st st' :
  same_sched st st' → untracked id n st → untracked id n st'.
Proof. intros (_ & _ & Ha & Hn). unfold untracked. by rewrite Ha, Hn. Qed.

Lemma untracked_stop id n st :
  untracked id n st → untracked id n (stopAudioPlayback st).
Proof.
  intros [Hn Hid]. unfold stopAudioPlayback.
  destruct (outputAudioContext st); [|done]. split; simpl.
  - by rewrite stop_all_lookup, decide_False.
  - apply not_elem_of_empty.
Qed.

Lemma untracked_interrupted flag id n st :
  untracked id n st → untracked id n (interrupted_block flag st).
Proof.
  intros H. destruct flag; [|done]. by apply untracked_stop in H.
Qed.

Lemma untracked_schedule decoded id n st :
  untracked id n st → untracked id n (schedule decodeAudioData decoded st).
Proof.
  intros [Hn Hid]. split; simpl.
  - by apply lookup_app_l_Some.
  - apply lookup_lt_Some in Hn.
    intros [Heq%elem_of_singleton|?]%elem_of_union; [lia | done].
Qed.

Lemma untracked_step id n w e :
  e ≠ Ended id → untracked id n (store w) → untracked id n (store (step w e)).
Proof.
  intros He Hu. destruct e as [m now wall|i|j| |s|s]; simpl.
  - unfold App.handleOnMessage_begin.
    destruct (transcription_block_sched m wall (store w)) as [Hs0 _].
    destruct (turnComplete_block_Some m (transcription_block m wall (store w)))
      as (st1 & -> & Hs1 & _).
    pose proof (untracked_same_sched id n _ _
                  (same_sched_trans _ _ _ Hs0 Hs1) Hu) as Hu1.
    destruct (audio_guard m st1); simpl; [done|].
    by apply untracked_interrupted.
  - destruct (pending w !! i) as [k|]; [|done]. simpl.
    by apply untracked_interrupted, untracked_schedule.
  - destruct Hu as [Hn Hid]. split; simpl.
    + rewrite list_lookup_alter_ne; [done|]. by intros ->.
    + by intros [? _]%elem_of_difference.
  - by apply untracked_stop.
  - done.
  - unfold batchOutput. by destruct (outputAudioContext (store w)).
Qed.

Lemma untracked_run id n es w :
  Ended id ∉ es → untracked id n (store w) → untracked id n (store (run w es)).
Proof.
  revert w. induction es as [|e es IH]; intros w Hes Hu; [done|].
  apply not_elem_of_cons in Hes as [He Hes]. simpl.
  apply IH; [done|]. by apply untracked_step.
Qed.

(** X11.  The node that plays a batch reply is started for time 0 and is
    not tracked, and the cursor is not moved.  No later event of the
    streaming side stops it: whatever messages arrive, decodes complete,
    other nodes end or [stopAll] runs, the node stays as started until it
    ends by itself.  The exchange is appended to the transcripts as two
    batch entries, and the text of the reply is never empty. *)
Theorem batch_reply_escapes_stop response_text s wall1 wall2 st pend es :
  store_inv st → is_Some (outputAudioContext st) → s ≠ EmptyString →
  let st' := batch_reply response_text (Some s) wall1 wall2 st in
  let id := length (nodes st) in
  let reply := mkNode (decodeAudioData (decode s) 24000 1) (Scheduled 0%Qc) in
  let t := Js.or_else response_text "No response generated." in
  nodes st' = nodes st ++ [reply] ∧
  audioSources st' = audioSources st ∧
  nextStartTime st' = nextStartTime st ∧
  transcripts st'
  = transcripts st
    ++ [mkEntry user "[Audio Chunk Sent]" batch None wall1;
        mkEntry model t batch (Some (decode s)) wall2] ∧
  t ≠ EmptyString ∧
  (Ended id ∉ es →
   nodes (store (run (mkWorld st' pend) es)) !! id = Some reply).
Proof.
  intros Hinv [c Hc] Hne st' id reply t.
  assert (st' = mkStore
            (transcripts st
             ++ [mkEntry user "[Audio Chunk Sent]" batch None wall1;
                 mkEntry model t batch (Some (decode s)) wall2])
            (outputAudioContext st) (currentModelAudioChunks st)
            (currentInputTranscription st) (currentOutputTranscription st)
            (nextStartTime st) (audioSources st) (nodes st ++ [reply]))
    as Hst'.
  { unfold st', Batch.batch_reply, play_reply.
    by rewrite decide_False, Hc by done. }
  rewrite Hst'. simpl. split_and!; try done.
  - by apply or_else_nonempty.
  - intros Hes.
    eapply (untracked_run id reply es (mkWorld _ pend) Hes). split; simpl.
    + by rewrite lookup_app_r, Nat.sub_diag.
    + intros Hid. destruct Hinv as [_ Htracked].
      destruct (Htracked _ Hid) as (n & Hn & _).
      apply lookup_lt_Some in Hn. unfold id in Hn. lia.
Qed.

End BatchFacts.

Section BatchExamples.
Import App Batch Samples.

(** A reply is playing when the user stops everything and a late message
    with [interrupted] arrives. *)
Lemma batch_reply_escapes_stop_witness :
  let st := store (session running) in
  let st' := Batch.batch_reply raw Pcm.decodeAudioData (Some "Hello")
               (Some "abcd") 1 2 st in
  nodes (store (App.run raw Pcm.decodeAudioData (mkWorld st' [])
           [StopAll; Message (mkMessage None None false None true) 0%Qc 3]))
    !! 0%nat
  = Some (mkNode (Pcm.decodeAudioData (raw "abcd") 24000 1) (Scheduled 0%Qc)).
Proof.
  pose proof (batch_reply_escapes_stop raw Pcm.decodeAudioData
                (Some "Hello") "abcd" 1%Z 2%Z (store (session running)) []
                [StopAll; Message (mkMessage None None false None true) 0%Qc 3])
    as H.
  destruct H as (_ & _ & _ & _ & _ & H).
  - split; [done|]. intros id Hid. by apply not_elem_of_empty in Hid.
  - by eexists.
  - done.
  - apply H. intros Hin. repeat (apply elem_of_cons in Hin as [Hin|Hin]; [done|]).
    by apply not_elem_of_nil in Hin.
Defined.

End BatchExamples.

(** ** The player as the user sees it: properties *)

Section PlayerViewFacts.
Import AudioPlayer PlayerView.

Context (decodeAudioData : list byte → positive → nat → Pcm.AudioBuffer).
Context (pcmData : list byte) (sampleRate : positive).

Local Abbreviation handlePlay := (handlePlay decodeAudioData pcmData sampleRate).
Local Abbreviation step := (step decodeAudioData pcmData sampleRate).
Local Abbreviation run := (run decodeAudioData pcmData sampleRate).
Local Abbreviation reachable := (reachable decodeAudioData pcmData sampleRate).
Local Abbreviation clip := (clip decodeAudioData pcmData sampleRate).
Local Abbreviation clip_duration :=
  (clip_duration decodeAudioData pcmData sampleRate).
Local Abbreviation player_inv :=
  (player_inv decodeAudioData pcmData sampleRate).

Lemma Qcmin_r (x y : Qc) : (y ≤ x)%Qc → Qcmin x y = y.
Proof.
  intros Hle. unfold Qcmin. destruct (x ?= y)%Qc eqn:Hc; [| |done].
  - by apply Qceq_alt in Hc.
  - apply Qclt_alt in Hc. by apply Qcle_not_lt in Hle.
Qed.

Lemma Qcmin_nonneg (x y : Qc) : (0 ≤ x)%Qc → (0 ≤ y)%Qc → (0 ≤ Qcmin x y)%Qc.
Proof. intros Hx Hy. unfold Qcmin. by destruct (x ?= y)%Qc. Qed.

(** The ['ended'] handler of a node whose closure saw [isPlaying] false
    only marks the node as finished. *)
Lemma onended_quiet_fields id now p n :
  nodes p !! id = Some n → isPlaying (closure n) = false →
  is_Some (audioBuffer p) →
  onended id now p
  = mkPlayer (state p) (audioContext p) (sourceNode p) (audioBuffer p)
      (startTime p) (<[id := mkNode Finished (closure n)]> (nodes p))
      (timers p).
Proof.
  intros Hn Hc [b Hb]. unfold onended. by rewrite Hn, Hb, Hc.
Qed.

(** X12.  The end of the clip goes unnoticed when it was started with the
    play button: the ['ended'] handler of such a node changes nothing, so the
    state stays playing.  A pause pressed once the clip is over stores the
    whole duration as the offset, and the play that follows starts the clip
    at its very end; only the replay button brings the offset back to 0. *)
Theorem finished_clip_restarts_at_its_end p now0 now1 now2 now3 :
  reachable p → isPlaying (state p) = false →
  (clip_duration ≤ playbackOffset (state p) + (now2 - now0))%Qc →
  let id := length (nodes p) in
  let p1 := step p (ClickPlayPause now0) in
  let p2 := step p1 (NodeEnded id now1) in
  let p3 := step p2 (ClickPlayPause now2) in
  let p4 := step p3 (ClickPlayPause now3) in
  state p2 = state p1 ∧ isPlaying (state p2) = true ∧
  state p3 = mkRender false clip_duration clip_duration ∧
  ∃ n, nodes p4 !! length (nodes p3) = Some n ∧
       playState n = Playing clip_duration.
Proof.
  intros Hreach Hidle Hover id p1 p2 p3 p4.
  pose proof (player_reachable_inv _ _ _ p Hreach) as Hinv.
  assert (p1 = handlePlay (state p) now0 p) as Hp1.
  { unfold p1. simpl. by rewrite Hidle. }
  destruct (handlePlay_effect _ _ _ (state p) now0 p Hinv)
    as (Hs1 & Hc1 & Hsrc1 & Hb1 & Ht1 & Hn1 & Htm1).
  cbv zeta in Hs1, Hc1, Hsrc1, Hb1, Ht1, Hn1, Htm1.
  rewrite <-Hp1 in Hs1, Hc1, Hsrc1, Hb1, Ht1, Hn1, Htm1.
  assert (nodes p1 !! id = Some (mkNode (Playing (playbackOffset (state p)))
                                   (state p))) as Hid.
  { by rewrite Hn1, lookup_app_r, Nat.sub_diag. }
  assert (p2 = mkPlayer (state p1) (audioContext p1) (sourceNode p1)
                 (audioBuffer p1) (startTime p1)
                 (<[id := mkNode Finished (state p)]> (nodes p1)) (timers p1))
    as Hp2.
  { unfold p2. simpl.
    by rewrite (onended_quiet_fields id now1 p1 _ Hid Hidle)
      by (rewrite Hb1; eauto). }
  assert (state p2 = state p1) as Hs2 by by rewrite Hp2.
  split; [done|]. split; [by rewrite Hs2, Hs1|].
  assert (p3 = handlePause (state p2) now2 p2) as Hp3.
  { unfold p3. simpl. by rewrite Hs2, Hs1. }
  destruct (handlePause_effect (state p2) now2 p2) as (Hs3 & _).
  { rewrite Hp2. simpl. rewrite Hsrc1. eauto. }
  { by rewrite Hs2, Hs1. }
  cbv zeta in Hs3. rewrite <-Hp3 in Hs3.
  assert (state p3 = mkRender false clip_duration clip_duration) as Hs3'.
  { rewrite Hs3, Hs2, Hs1. simpl.
    assert (startTime p2 = now0) as -> by by rewrite Hp2.
    by rewrite Qcmin_r. }
  split; [done|].
  assert (player_inv p3) as Hinv3.
  { unfold p3, p2, p1. by do 3 apply player_step_inv. }
  assert (p4 = handlePlay (state p3) now3 p3) as Hp4.
  { unfold p4. simpl. by rewrite Hs3'. }
  destruct (handlePlay_effect _ _ _ (state p3) now3 p3 Hinv3)
    as (_ & _ & _ & _ & _ & Hn4 & _).
  cbv zeta in Hn4. rewrite <-Hp4 in Hn4.
  eexists. split; [by rewrite Hn4, lookup_app_r, Nat.sub_diag|].
  simpl. by rewrite Hs3'.
Qed.

(** What a run whose clock readings do not go back keeps true. *)
Lemma step_offset_nonneg p t e :
  player_inv p → (0 ≤ playbackOffset (state p))%Qc → (startTime p ≤ t)%Qc →
  (t ≤ default t (stamp e))%Qc →
  (0 ≤ playbackOffset (state (step p e)))%Qc ∧
  (startTime (step p e) ≤ default t (stamp e))%Qc.
Proof.
  intros Hinv Ho Ht Hle.
  assert (0 ≤ duration (state p))%Qc as Hd.
  { destruct Hinv as [[(_ & -> & _)|(_ & -> & _)] _]; [done|].
    apply clip_duration_nonneg. }
  destruct e as [now| |now|id now]; simpl in *.
  - destruct (isPlaying (state p)) eqn:Hplay.
    + unfold handlePause. destruct (sourceNode p) eqn:Hsrc; simpl.
      * rewrite Hplay. unfold stop_current. rewrite Hsrc. simpl.
        split; [|exact (Qcle_trans _ _ _ Ht Hle)].
        apply Qcmin_nonneg; [|done].
        apply Qcplus_nonneg_nonneg; [done|].
        exact (proj1 (Qcle_minus_iff _ _) (Qcle_trans _ _ _ Ht Hle)).
      * split; [done | exact (Qcle_trans _ _ _ Ht Hle)].
    + destruct (handlePlay_effect _ _ _ (state p) now p Hinv)
        as (-> & _ & _ & _ & -> & _). simpl. split; [done|]. apply Qcle_refl.
  - unfold handleReplay, stop_current.
    destruct (sourceNode p); simpl; by split.
  - destruct (timers p) as [|r rest]; [split; [done | exact (Qcle_trans _ _ _ Ht Hle)]|].
    destruct (handlePlay_effect decodeAudioData pcmData sampleRate r now
                (mkPlayer (state p) (audioContext p) (sourceNode p)
                   (audioBuffer p) (startTime p) (nodes p) rest))
      as (-> & _ & _ & _ & -> & _); [done|].
    simpl. split; [done|]. apply Qcle_refl.
  - unfold onended.
    destruct (nodes p !! id) as [n|]; [|split; [done | exact (Qcle_trans _ _ _ Ht Hle)]].
    destruct (audioBuffer p) as [b|]; [|split; [done | exact (Qcle_trans _ _ _ Ht Hle)]].
    repeat case_match; simpl; (split; [done | exact (Qcle_trans _ _ _ Ht Hle)]).
Qed.

Lemma run_offset_nonneg es p t :
  reachable p → (0 ≤ playbackOffset (state p))%Qc → (startTime p ≤ t)%Qc →
  ordered t es →
  reachable (run p es) ∧ (0 ≤ playbackOffset (state (run p es)))%Qc.
Proof.
  revert p t. induction es as [|e es IH]; intros p t Hreach Ho Ht Hord.
  - done.
  - destruct Hord as [Hle Hord]. simpl.
    destruct (step_offset_nonneg p t e) as [Ho' Ht']; try done.
    { by apply player_reachable_inv. }
    apply (IH (step p e) (default t (stamp e))); try done.
    by apply reachable_step.
Qed.

Lemma progress_bounds (r : Render) :
  (0 ≤ duration r)%Qc → (0 ≤ playbackOffset r)%Qc →
  (playbackOffset r ≤ duration r)%Qc →
  (0 ≤ progress r)%Qc ∧ (progress r ≤ Q2Qc 100)%Qc.
Proof.
  intros Hd Ho Hle. unfold progress. case_decide as Hz; [done|].
  assert (0 < duration r)%Qc as Hpos.
  { destruct (Qcle_lt_or_eq _ _ Hd) as [?|Heq]; [done | by rewrite <-Heq in Hz]. }
  pose proof (Qclt_le_weak _ _ (Qcinv_pos _ Hpos)) as Hinv.
  unfold Qcdiv. split.
  - apply Qcmult_nonneg_nonneg; [|done]. by apply Qcmult_nonneg_nonneg.
  - rewrite <-(Qcmult_1_l (Q2Qc 100)) at 2.
    apply Qcmult_le_mono_nonneg_r; [done|].
    rewrite <-(Qcmult_inv_r (duration r)) by done.
    by apply Qcmult_le_mono_nonneg_r.
Qed.

(** X13.  The progress bar never leaves its track: after any run of events
    on the mounted player whose clock readings do not go back, the stored
    offset lies between 0 and the duration of the clip, and the width shown
    lies between 0 and 100 percent; before the clip is decoded it is 0. *)
Theorem progress_stays_within_bar es :
  ordered 0%Qc es →
  let p := run (initial) es in
  (0 ≤ playbackOffset (state p))%Qc ∧
  (playbackOffset (state p) ≤ clip_duration)%Qc ∧
  (0 ≤ progress (state p))%Qc ∧ (progress (state p) ≤ Q2Qc 100)%Qc ∧
  (audioBuffer p = None → progress (state p) = 0%Qc).
Proof.
  intros Hord p.
  destruct (run_offset_nonneg es initial 0%Qc) as [Hreach Ho]; try done.
  { apply reachable_initial. }
  fold p in Hreach, Ho.
  pose proof (player_reachable_inv _ _ _ p Hreach) as (Hcase & Hle & _).
  assert ((0 ≤ duration (state p))%Qc ∧
          (duration (state p) ≤ clip_duration)%Qc) as [Hd Hdc].
  { destruct Hcase as [(_ & -> & _)|(_ & -> & _)].
    - split; [done | apply clip_duration_nonneg].
    - split; [apply clip_duration_nonneg | apply Qcle_refl]. }
  destruct (progress_bounds (state p) Hd Ho Hle) as [Hp0 Hp100].
  split_and!; try done.
  - exact (Qcle_trans _ _ _ Hle Hdc).
  - intros Hnone. destruct Hcase as [(_ & Hzero & _)|(Hsome & _)].
    + unfold progress. by rewrite decide_True.
    + by rewrite Hnone in Hsome.
Qed.

(** A node that is not the current one is out of reach of the handlers. *)
Lemma handlePlay_frame r now p a na :
  nodes p !! a = Some na → sourceNode p ≠ Some a →
  nodes (handlePlay r now p) !! a = Some na ∧
  sourceNode (handlePlay r now p) ≠ Some a.
Proof.
  intros Ha Hsrc. unfold AudioPlayer.handlePlay, initAudio.
  pose proof (lookup_lt_Some _ _ _ Ha) as Hlt.
  destruct (audioBuffer p) eqn:Hb; simpl.
  - destruct (audioContext p); simpl; rewrite ?Hb; simpl; [|done].
    split; [by apply lookup_app_l_Some|]. intros [= Heq]. lia.
  - split; [by apply lookup_app_l_Some|]. intros [= Heq]. lia.
Qed.

Lemma stop_current_frame p a na :
  nodes p !! a = Some na → sourceNode p ≠ Some a →
  nodes (stop_current p) !! a = Some na.
Proof.
  intros Ha Hsrc. unfold stop_current.
  destruct (sourceNode p) as [cur|]; [|done]. simpl.
  rewrite list_lookup_alter_ne; [done|]. congruence.
Qed.

Lemma step_frame p e a na :
  ¬ ends a e → nodes p !! a = Some na → sourceNode p ≠ Some a →
  nodes (step p e) !! a = Some na ∧ sourceNode (step p e) ≠ Some a.
Proof.
  intros He Ha Hsrc. destruct e as [now| |now|id now]; simpl.
  - destruct (isPlaying (state p)); [|by apply handlePlay_frame].
    unfold handlePause.
    destruct (sourceNode p) as [cur|] eqn:Hcur; [|by rewrite Hcur].
    destruct (isPlaying (state p)); [|by rewrite Hcur].
    simpl. split.
    + apply stop_current_frame; [done | by rewrite Hcur].
    + unfold stop_current. by rewrite Hcur.
  - split.
    + by apply stop_current_frame.
    + unfold handleReplay, stop_current.
      destruct (sourceNode p) eqn:Hcur; simpl; congruence.
  - destruct (timers p) as [|r rest]; [done|]. by apply handlePlay_frame.
  - simpl in He. unfold onended.
    destruct (nodes p !! id) as [n|] eqn:Hn; [|done].
    destruct (audioBuffer p); [|done].
    assert (<[id:=mkNode Finished (closure n)]> (nodes p) !! a = Some na).
    { by rewrite list_lookup_insert_ne. }
    by repeat case_match.
Qed.

Lemma run_frame es p a na :
  Forall (λ e, ¬ ends a e) es →
  nodes p !! a = Some na → sourceNode p ≠ Some a →
  nodes (run p es) !! a = Some na.
Proof.
  intros Hall. revert p.
  induction Hall as [|e es He _ IH]; intros p Ha Hsrc; [done|].
  simpl. destruct (step_frame p e a na He Ha Hsrc). by apply IH.
Qed.

Lemma handleReplay_fields r p :
  length (nodes (handleReplay r p)) = length (nodes p) ∧
  timers (handleReplay r p) = timers p ++ [r] ∧
  sourceNode (handleReplay r p) = sourceNode p.
Proof.
  unfold handleReplay, stop_current.
  destruct (sourceNode p) eqn:Hcur; simpl; by rewrite ?length_alter, ?Hcur.
Qed.

(** X15.  Two clicks on replay before the first timer fires leave two
    timers, and each starts a node without stopping the other: two nodes
    play at once.  Only the second is the current node; the first is out of
    reach of every button and keeps playing, whatever happens next, until it
    ends by itself. *)
Theorem double_replay_orphans_a_node p t1 t2 es :
  reachable p → timers p = [] →
  let a := length (nodes p) in
  let p4 := run p [ClickReplay; ClickReplay; TimerFires t1; TimerFires t2] in
  (∃ na nb, nodes p4 !! a = Some na ∧ nodes p4 !! S a = Some nb ∧
            playing na = true ∧ playing nb = true) ∧
  sourceNode p4 = Some (S a) ∧
  (Forall (λ e, ¬ ends a e) es →
   ∃ na, nodes (run p4 es) !! a = Some na ∧ playing na = true).
Proof.
  intros Hreach Htm a p4.
  pose proof (player_reachable_inv _ _ _ p Hreach) as Hinv.
  set (p1 := step p ClickReplay).
  set (p2 := step p1 ClickReplay).
  assert (player_inv p2) as Hinv2 by (by do 2 apply player_step_inv).
  assert (length (nodes p2) = a ∧ timers p2 = [state p; state p1])
    as [Hlen2 Htm2].
  { destruct (handleReplay_fields (state p) p) as (Hl1 & Ht1 & _).
    destruct (handleReplay_fields (state p1) p1) as (Hl2 & Ht2 & _).
    change (handleReplay (state p) p) with p1 in Hl1, Ht1.
    change (handleReplay (state p1) p1) with p2 in Hl2, Ht2.
    by rewrite Hl2, Hl1, Ht2, Ht1, Htm. }
  set (q2 := mkPlayer (state p2) (audioContext p2) (sourceNode p2)
               (audioBuffer p2) (startTime p2) (nodes p2) [state p1]).
  set (p3 := handlePlay (state p) t1 q2).
  assert (step p2 (TimerFires t1) = p3) as Hp3.
  { unfold AudioPlayer.step. by rewrite Htm2. }
  destruct (handlePlay_effect decodeAudioData pcmData sampleRate
              (state p) t1 q2 Hinv2)
    as (_ & _ & _ & _ & _ & Hn3 & Htm3).
  cbv zeta in Hn3, Htm3. fold p3 in Hn3, Htm3.
  change (nodes q2) with (nodes p2) in Hn3.
  change (timers q2) with [state p1] in Htm3.
  assert (player_inv p3) as Hinv3.
  { rewrite <-Hp3. by apply player_step_inv. }
  set (q3 := mkPlayer (state p3) (audioContext p3) (sourceNode p3)
               (audioBuffer p3) (startTime p3) (nodes p3) []).
  assert (p4 = handlePlay (state p1) t2 q3) as Hp4.
  { unfold p4. change (run p _) with (step (step p2 (TimerFires t1))
                                        (TimerFires t2)).
    rewrite Hp3. unfold AudioPlayer.step. rewrite Htm3. done. }
  destruct (handlePlay_effect decodeAudioData pcmData sampleRate
              (state p1) t2 q3 Hinv3)
    as (_ & _ & Hsrc4 & _ & _ & Hn4 & _).
  cbv zeta in Hsrc4, Hn4. rewrite <-Hp4 in Hsrc4, Hn4.
  change (nodes q3) with (nodes p3) in Hsrc4, Hn4.
  assert (length (nodes p3) = S a) as Hlen3.
  { rewrite Hn3, length_app, Hlen2. simpl. lia. }
  assert (nodes p4 !! a
          = Some (mkNode (Playing (playbackOffset (state p))) (state p)))
    as Ha.
  { rewrite Hn4, lookup_app_l by lia.
    by rewrite Hn3, lookup_app_r, Hlen2, Nat.sub_diag by lia. }
  assert (nodes p4 !! S a
          = Some (mkNode (Playing (playbackOffset (state p1))) (state p1)))
    as Hb.
  { by rewrite Hn4, lookup_app_r, Hlen3, Nat.sub_diag by lia. }
  split; [by eexists _, _|]. split; [by rewrite Hsrc4, Hlen3|].
  intros Hall.
  exists (mkNode (Playing (playbackOffset (state p))) (state p)).
  split; [|done].
  apply run_frame; [done | exact Ha |].
  rewrite Hsrc4, Hlen3. intros [= Heq]. lia.
Qed.

End PlayerViewFacts.

Section PlayerViewExamples.
Import AudioPlayer PlayerView.

(** A clip of ten samples played at 1 Hz: ten seconds. *)
Local Abbreviation pcm := (replicate 20 x00 : list byte).
Local Abbreviation step := (AudioPlayer.step Pcm.decodeAudioData pcm 1).
Local Abbreviation run := (AudioPlayer.run Pcm.decodeAudioData pcm 1).

(** The clip is played from 0, ends at 10, pause is pressed at 12 and play
    at 13. *)
Lemma finished_clip_restarts_at_its_end_witness :
  let p1 := step initial (ClickPlayPause (Q2Qc 0)) in
  let p2 := step p1 (NodeEnded 0 (Q2Qc 10)) in
  let p3 := step p2 (ClickPlayPause (Q2Qc 12)) in
  isPlaying (state p2) = true ∧
  state p3 = mkRender false (clip_duration Pcm.decodeAudioData pcm 1)
               (clip_duration Pcm.decodeAudioData pcm 1).
Proof.
  destruct (finished_clip_restarts_at_its_end Pcm.decodeAudioData pcm 1
              initial (Q2Qc 0) (Q2Qc 10) (Q2Qc 12) (Q2Qc 13))
    as (_ & H2 & H3 & _).
  - apply reachable_initial.
  - reflexivity.
  - by vm_compute.
  - split; [exact H2 | exact H3].
Defined.

(** Play at 0, pause at 3. *)
Lemma progress_stays_within_bar_witness :
  (progress (state (run initial [ClickPlayPause (Q2Qc 0);
                                 ClickPlayPause (Q2Qc 3)])) ≤ Q2Qc 100)%Qc.
Proof.
  destruct (progress_stays_within_bar Pcm.decodeAudioData pcm 1
              [ClickPlayPause (Q2Qc 0); ClickPlayPause (Q2Qc 3)])
    as (_ & _ & _ & H & _).
  - repeat split; by vm_compute.
  - exact H.
Defined.

(** Replay is clicked twice on the mounted player; both timers fire; then
    pause and replay are clicked. *)
Lemma double_replay_orphans_a_node_witness :
  let p4 := run initial [ClickReplay; ClickReplay; TimerFires (Q2Qc 1);
                         TimerFires (Q2Qc 1)] in
  ∃ na, nodes (run p4 [ClickPlayPause (Q2Qc 5); ClickReplay]) !! 0%nat
        = Some na ∧ playing na = true.
Proof.
  destruct (double_replay_orphans_a_node Pcm.decodeAudioData pcm 1 initial
              (Q2Qc 1) (Q2Qc 1) [ClickPlayPause (Q2Qc 5); ClickReplay])
    as (_ & _ & H).
  - apply reachable_initial.
  - reflexivity.
  - apply H. repeat constructor; by intros ?.
Defined.

End PlayerViewExamples.

(** ** The voice persona modal: properties *)

Section CaptureFacts.
Import Capture.

Lemma chunk_length_foldl (chunks : list (list Qc)) (acc : nat) :
  foldl (λ acc c, acc + length c)%nat acc chunks
  = (acc + length (concat chunks))%nat.
Proof.
  revert acc. induction chunks as [|c rest IH]; intros acc; simpl.
  - lia.
  - rewrite IH, length_app. lia.
Qed.

Lemma copy_loop_concat (chunks : list (list Qc)) (done pad : list Qc) :
  length pad = length (concat chunks) →
  copy_loop chunks (done ++ pad) (length done) = Some (done ++ concat chunks).
Proof.
  revert done pad. induction chunks as [|c rest IH]; intros done pad Hpad.
  - destruct pad; simplify_eq/=. by rewrite app_nil_r.
  - simpl in *. rewrite length_app in Hpad. unfold typed_set.
    rewrite decide_True by (rewrite length_app; lia).
    rewrite take_app_length, drop_app_add'; [|done]. simpl.
    replace (length done + length c)%nat with (length (done ++ c))
      by by rewrite length_app.
    rewrite (assoc_L (++) done c).
    rewrite IH by (rewrite length_drop; lia).
    by rewrite <-(assoc_L (++)).
Qed.

(** The flattening never throws and yields the chunks one after the
    other. *)
Lemma flatten_concat (chunks : list (list Qc)) :
  flatten chunks = Some (concat chunks).
Proof.
  unfold flatten. rewrite chunk_length_foldl. simpl.
  apply (copy_loop_concat chunks []). by rewrite length_replicate.
Qed.

End CaptureFacts.

Section ModalFacts.
Import PersonaModal.
Context (createBlob : list Qc → string).

Local Abbreviation step := (PersonaModal.step createBlob).
Local Abbreviation run := (PersonaModal.run createBlob).
Local Abbreviation reachable := (PersonaModal.reachable createBlob).
Local Abbreviation tick := (PersonaModal.tick createBlob).

Lemma run_app m es1 es2 : run m (es1 ++ es2) = run (run m es1) es2.
Proof. apply foldl_app. Qed.

(** The last tick of a countdown. *)
Lemma tick_last id m :
  in_phase (Recording id) m → countdown m = 1%Z →
  in_phase Analyzing (tick m) ∧
  requests (tick m) = [createBlob (concat (chunks m))] ∧
  chunks (tick m) = chunks m ∧ persona (tick m) = persona m ∧
  isOpen (tick m) = isOpen m.
Proof.
  intros Hph H1. simpl in Hph.
  destruct Hph
    as (Hrec & Han & Hget & Hint & Hproc & Hreq & Htimer & Hrecorder & Hc).
  unfold PersonaModal.tick, stopAndAnalyze_begin.
  rewrite decide_True by lia. rewrite flatten_concat. simpl.
  rewrite Htimer, Hrecorder, Hint, Hproc, Hreq, Hget. simpl.
  rewrite !difference_diag_L. by split_and!.
Qed.

(** An earlier tick of a countdown. *)
Lemma tick_earlier id m :
  in_phase (Recording id) m → (1 < countdown m)%Z →
  in_phase (Recording id) (tick m) ∧
  countdown (tick m) = (countdown m - 1)%Z ∧
  chunks (tick m) = chunks m ∧ persona (tick m) = persona m ∧
  isOpen (tick m) = isOpen m.
Proof.
  intros Hph H1. simpl in Hph.
  destruct Hph
    as (Hrec & Han & Hget & Hint & Hproc & Hreq & Htimer & Hrecorder & Hc).
  unfold PersonaModal.tick. rewrite decide_False by lia. simpl.
  split_and!; try done; lia.
Qed.

Lemma step_phase m e :
  (∃ ph, in_phase ph m) ∧ (0 ≤ countdown m ≤ 5)%Z →
  (∃ ph, in_phase ph (step m e)) ∧ (0 ≤ countdown (step m e) ≤ 5)%Z.
Proof.
  intros [[ph Hph] Hc].
  destruct e as [| | | | |id chunk|id|i text wall|i]; simpl.
  - split; [|done]. exists ph. by destruct ph.
  - destruct (isOpen m); (split; [|done]); exists ph; by destruct ph.
  - destruct (isOpen m && negb (isRecording m) && negb (isAnalyzing m))
      eqn:Hidle; [|by eauto].
    apply andb_true_iff in Hidle as [Hidle Ha].
    apply andb_true_iff in Hidle as [_ Hr].
    apply negb_true_iff in Hr, Ha.
    split; [|simpl; lia]. exists WaitingForMedia.
    destruct ph; simpl in *; destruct_and!; try congruence.
    split_and!; try done. congruence.
  - destruct (gettingMedia m) as [|k] eqn:Hget; [by eauto|].
    split; [|done]. exists (Recording (fresh m)).
    destruct ph; simpl in *; destruct_and!; try congruence.
    repeat match goal with H : _ = ∅ |- _ => rewrite H; clear H end.
    rewrite !(right_id_L ∅ (∪)). split_and!; try done; lia.
  - destruct (gettingMedia m) as [|k] eqn:Hget; [by eauto|].
    split; [|done]. exists Idle.
    destruct ph; simpl in *; destruct_and!; try congruence.
    split_and!; try done. lia.
  - case_decide; [|by eauto]. split; [|done]. exists ph. by destruct ph.
  - case_decide as Hid; [|by eauto].
    destruct ph as [| |id0|]; simpl in Hph;
      try (destruct Hph as (_ & _ & _ & Hint & _); rewrite Hint in Hid;
           by apply not_elem_of_empty in Hid).
    pose proof Hph as (_ & _ & _ & _ & _ & _ & _ & _ & Hc').
    destruct (decide (countdown m = 1%Z)) as [H1|H1].
    + destruct (tick_last id0 m Hph H1) as (Hph' & _).
      split; [by exists Analyzing|].
      destruct Hph' as (_ & _ & _ & _ & _ & _ & ->). lia.
    + destruct (tick_earlier id0 m Hph) as (Hph' & -> & _); [lia|].
      split; [by exists (Recording id0) | lia].
  - destruct (requests m !! i) as [r|] eqn:Hr; [|by eauto].
    split; [|done]. exists Idle.
    destruct ph; simpl in *; destruct_and!;
      try (match goal with H : requests m = [] |- _ => by rewrite H in Hr end).
    destruct (requests m) as [|r0 [|r1 rest]]; simplify_eq/=.
    destruct i; simplify_eq/=. by split_and!.
  - destruct (requests m !! i) as [r|] eqn:Hr; [|by eauto].
    split; [|done]. exists Idle.
    destruct ph; simpl in *; destruct_and!;
      try (match goal with H : requests m = [] |- _ => by rewrite H in Hr end).
    destruct (requests m) as [|r0 [|r1 rest]]; simplify_eq/=.
    destruct i; simplify_eq/=. by split_and!.
Qed.

(** X16.  The modal is at any time in exactly one of four phases: idle,
    waiting for the microphone, recording or analyzing.  So [isRecording]
    and [isAnalyzing] are never both set, at most one interval runs and at
    most one processor is connected, and they belong to the capture the refs
    name; at most one analysis request is in flight; and the countdown shown
    is between 0 and 5, and between 1 and 5 while recording. *)
Theorem modal_is_in_one_phase m :
  reachable m →
  (∃ ph, in_phase ph m) ∧ (0 ≤ countdown m ≤ 5)%Z ∧
  (∀ ph ph', in_phase ph m → in_phase ph' m → ph = ph').
Proof.
  intros Hreach.
  assert ((∃ ph, in_phase ph m) ∧ (0 ≤ countdown m ≤ 5)%Z) as [Hph Hc].
  { induction Hreach as [saved|m e _ IH]; [|by apply step_phase].
    split; [by exists Idle | simpl; lia]. }
  split; [done|]. split; [done|]. clear Hph.
  intros ph ph' H H'.
  destruct ph as [| |id|], ph' as [| |id'|]; simpl in *;
    destruct H as (? & ? & ? & Hint & ?), H' as (? & ? & ? & Hint' & ?);
    try congruence.
  rewrite Hint in Hint'. f_equal.
  assert (id' ∈ ({[id]} : gset nat)) as Hin
    by (rewrite Hint'; by apply elem_of_singleton).
  by apply elem_of_singleton in Hin.
Qed.

(** One event during a countdown that is not its last tick. *)
Lemma step_during id m e :
  in_phase (Recording id) m → during id e →
  (match e with Tick _ => (1 < countdown m)%Z | _ => True end) →
  in_phase (Recording id) (step m e) ∧
  countdown (step m e)
  = (countdown m - match e with Tick _ => 1 | _ => 0 end)%Z ∧
  chunks (step m e)
  = chunks m ++ match e with AudioProcess _ chunk => [chunk] | _ => [] end ∧
  persona (step m e) = persona m.
Proof.
  intros Hph He Hc. pose proof Hph as Hph'. simpl in Hph'.
  destruct Hph'
    as (Hrec & Han & Hget & Hint & Hproc & Hreq & Htimer & Hrecorder & Hlo & Hhi).
  destruct e as [| | | | |id' chunk|id'|i text wall|i]; try done; simpl in He.
  - simpl. rewrite app_nil_r. split_and!; try done; lia.
  - simpl. rewrite app_nil_r.
    destruct (isOpen m); simpl; split_and!; try done; lia.
  - subst. simpl.
    rewrite decide_True by (rewrite Hproc; by apply elem_of_singleton).
    simpl. split_and!; try done; lia.
  - subst. simpl.
    rewrite decide_True by (rewrite Hint; by apply elem_of_singleton).
    destruct (tick_earlier id m Hph Hc) as (? & ? & ? & ? & _).
    rewrite app_nil_r. by repeat (split; [done|]).
Qed.

Lemma run_during id es m :
  in_phase (Recording id) m → Forall (during id) es →
  (Z.of_nat (ticks_in es) < countdown m)%Z →
  in_phase (Recording id) (run m es) ∧
  countdown (run m es) = (countdown m - Z.of_nat (ticks_in es))%Z ∧
  chunks (run m es) = chunks m ++ audio_in es ∧
  persona (run m es) = persona m.
Proof.
  intros Hph Hall. revert m Hph.
  induction Hall as [|e es He _ IH]; intros m Hph Hc.
  - simpl. rewrite app_nil_r. split; [done|]. split; [lia|]. done.
  - destruct (step_during id m e Hph He) as (Hph' & Hc' & Hch' & Hp').
    { destruct e; try done. simpl in Hc. lia. }
    destruct (IH (step m e) Hph') as (? & Hc'' & Hch'' & Hp'').
    { rewrite Hc'. destruct e; simpl in *; lia. }
    change (run m (e :: es)) with (run (step m e) es).
    rewrite Hc'', Hch'', Hp'', Hc', Hch', Hp'.
    split; [done|]. split; [|split; [|done]].
    + destruct e; simpl; lia.
    + rewrite <-(assoc_L (++)). by destruct e.
Qed.

(** Once the analysis has started, the events of the capture change
    nothing but whether the modal is open. *)
Lemma run_after id es m :
  in_phase Analyzing m → Forall (during id) es →
  ∃ b, run m es = set_isOpen b m.
Proof.
  intros Hph Hall. revert m Hph.
  induction Hall as [|e es He _ IH]; intros m Hph.
  - exists (isOpen m). by destruct m.
  - assert (∃ b, step m e = set_isOpen b m) as [b Hb].
    { pose proof Hph as Hph'. simpl in Hph'.
      destruct Hph' as (_ & _ & _ & Hint & Hproc & _).
      destruct e as [| | | | |id' chunk|id'|i text wall|i]; try done; simpl.
      - by eexists.
      - destruct (isOpen m) eqn:Hopen; [by eexists|].
        exists false. destruct m; simpl in *; by subst.
      - rewrite decide_False by (rewrite Hproc; apply not_elem_of_empty).
        exists (isOpen m). by destruct m.
      - rewrite decide_False by (rewrite Hint; apply not_elem_of_empty).
        exists (isOpen m). by destruct m. }
    change (run m (e :: es)) with (run (step m e) es). rewrite Hb.
    destruct (IH (set_isOpen b m)) as [b' ->]; [by destruct m|].
    by exists b'.
Qed.

(** X17.  A countdown runs to its end whatever the user does with the
    modal.  While fewer ticks than the countdown have fired, the modal stays
    recording, the countdown shown is the start value less the ticks, and
    every chunk delivered is kept; closing and reopening the modal changes
    none of this.  The tick that finds the countdown at 1 stops the capture
    and sends one analysis request with the chunks kept until then, in
    order; what the capture delivers afterwards is dropped. *)
Theorem countdown_runs_to_analysis id m es1 es2 :
  in_phase (Recording id) m →
  Forall (during id) es1 → Forall (during id) es2 →
  Z.of_nat (S (ticks_in es1)) = countdown m →
  let m2 := run m (es1 ++ Tick id :: es2) in
  (∀ pre suf, es1 = pre ++ suf →
     in_phase (Recording id) (run m pre) ∧
     countdown (run m pre) = (countdown m - Z.of_nat (ticks_in pre))%Z ∧
     chunks (run m pre) = chunks m ++ audio_in pre) ∧
  in_phase Analyzing m2 ∧
  requests m2 = [createBlob (concat (chunks m ++ audio_in es1))] ∧
  chunks m2 = chunks m ++ audio_in es1 ∧
  persona m2 = persona m.
Proof.
  intros Hph Hall1 Hall2 Hticks m2.
  assert (∀ pre suf, es1 = pre ++ suf →
            (ticks_in pre ≤ ticks_in es1)%nat) as Hpre.
  { intros pre suf ->. clear. induction pre as [|e pre IH]; simpl; [lia|].
    destruct e; simpl; lia. }
  split.
  - intros pre suf Hes.
    destruct (run_during id pre m Hph) as (? & ? & ? & _); [| |done].
    + subst. by apply Forall_app in Hall1 as [? _].
    + specialize (Hpre pre suf Hes). lia.
  - destruct (run_during id es1 m Hph Hall1) as (Hph1 & Hc1 & Hch1 & Hp1);
      [lia|].
    destruct (tick_last id (run m es1) Hph1) as (Hph2 & Hreq2 & Hch2 & Hp2 & _);
      [lia|].
    assert (step (run m es1) (Tick id) = tick (run m es1)) as Hstep.
    { simpl. rewrite decide_True; [done|].
      destruct Hph1 as (_ & _ & _ & -> & _). by apply elem_of_singleton. }
    destruct (run_after id es2 (tick (run m es1)) Hph2 Hall2) as [b Hb].
    assert (m2 = set_isOpen b (tick (run m es1))) as ->.
    { unfold m2. rewrite run_app.
      change (run (run m es1) (Tick id :: es2))
        with (run (step (run m es1) (Tick id)) es2).
      by rewrite Hstep. }
    simpl. rewrite Hreq2, Hch2, Hp2, Hch1, Hp1.
    split; [|done]. by destruct Hph2 as (? & ? & ? & ? & ? & ? & ?).
Qed.

(** X18.  The result of an analysis is applied whether or not the modal is
    still open: when the response arrives, the parent's persona is set to the
    text of the response, or to a fixed description when the response has no
    text, so the description is never empty; the modal is closed and idle
    again.  When the request fails, the persona stays as it was, the modal
    stays open or closed as it was, and it is idle again. *)
Theorem analysis_result_sets_persona m es text wall :
  in_phase Analyzing m →
  Forall (λ e, e = Open ∨ e = ClickCancel) es →
  let m1 := run m es in
  let done := step m1 (AnalysisDone 0 text wall) in
  let failed := step m1 (AnalysisFailed 0) in
  (∃ d, persona done = Some (d, wall) ∧ d ≠ EmptyString ∧
        (∀ t, text = Some t → t ≠ EmptyString → d = t)) ∧
  isOpen done = false ∧ in_phase Idle done ∧
  persona failed = persona m ∧ isOpen failed = isOpen m1 ∧
  in_phase Idle failed.
Proof.
  intros Hph Hall m1 done failed.
  destruct (run_after 0 es m Hph) as [b Hb].
  { eapply Forall_impl; [exact Hall|]. by intros e [->| ->]. }
  fold m1 in Hb.
  pose proof Hph as Hph'. simpl in Hph'.
  destruct Hph' as (Hrec & Han & Hget & Hint & Hproc & Hreq & Hc).
  destruct (requests m) as [|r [|r' rest]] eqn:Hrs; simplify_eq/=.
  unfold done, failed. simpl. rewrite Hb. simpl. rewrite Hrs. simpl.
  split_and!; try done.
  exists (Js.or_else text "Friendly and clear speaker.").
  split; [done|]. split; [by apply or_else_nonempty|].
  intros t -> Hne. unfold Js.or_else. by rewrite decide_False.
Qed.

End ModalFacts.

Section ModalExamples.
Import PersonaModal.

(** A stand-in for [createBlob] in the examples: the data names the number
    of samples. *)
Local Abbreviation blob :=
  (λ samples : list Qc, String.string_of_list_byte
                          (replicate (length samples) x00)).
Local Abbreviation step := (PersonaModal.step blob).
Local Abbreviation run := (PersonaModal.run blob).

(** The modal is opened, recording is started and the microphone is
    granted. *)
Lemma recording_started :
  PersonaModal.reachable blob (run (initial None) [Open; ClickStart; MediaGranted]) ∧
  in_phase (Recording 0) (run (initial None) [Open; ClickStart; MediaGranted]).
Proof.
  split.
  - do 3 apply reachable_step. apply reachable_initial.
  - by vm_compute.
Qed.

Lemma modal_is_in_one_phase_witness :
  (0 ≤ countdown (run (initial None) [Open; ClickStart; MediaGranted]) ≤ 5)%Z.
Proof.
  destruct (modal_is_in_one_phase blob _ (proj1 recording_started))
    as (_ & H & _).
  exact H.
Defined.

(** Four ticks with two chunks and a cancel in between, the fifth tick, and
    a late chunk and tick. *)
Lemma countdown_runs_to_analysis_witness :
  let m := run (initial None) [Open; ClickStart; MediaGranted] in
  let m2 := run m ([Tick 0; AudioProcess 0 [0%Qc]; ClickCancel; Tick 0;
                    Tick 0; AudioProcess 0 [1%Qc]; Tick 0]
                   ++ Tick 0 :: [AudioProcess 0 [0%Qc]; Tick 0]) in
  in_phase Analyzing m2 ∧
  requests m2 = [blob (concat (chunks m ++ [[0%Qc]; [1%Qc]]))].
Proof.
  destruct (countdown_runs_to_analysis blob 0
              (run (initial None) [Open; ClickStart; MediaGranted])
              [Tick 0; AudioProcess 0 [0%Qc]; ClickCancel; Tick 0;
               Tick 0; AudioProcess 0 [1%Qc]; Tick 0]
              [AudioProcess 0 [0%Qc]; Tick 0])
    as (_ & H1 & H2 & _).
  - exact (proj2 recording_started).
  - by repeat constructor.
  - by repeat constructor.
  - reflexivity.
  - split; [exact H1 | exact H2].
Defined.

(** The modal is closed while the analysis runs; the response arrives. *)
Lemma analysis_result_sets_persona_witness :
  let m := run (initial None)
             [Open; ClickStart; MediaGranted; Tick 0; Tick 0; Tick 0; Tick 0;
              Tick 0] in
  persona (step (run m [ClickCancel]) (AnalysisDone 0 (Some "Calm.") 7))
  = Some ("Calm.", 7%Z).
Proof.
  destruct (analysis_result_sets_persona blob
              (run (initial None)
                 [Open; ClickStart; MediaGranted; Tick 0; Tick 0; Tick 0;
                  Tick 0; Tick 0])
              [ClickCancel] (Some "Calm.") 7%Z)
    as ((d & Hd & _ & Ht) & _).
  - by vm_compute.
  - constructor; [by right | constructor].
  - etrans; [exact Hd|]. by rewrite (Ht "Calm." eq_refl).
Defined.

End ModalExamples.

(** ** The stored history: properties *)

Section HistoryFacts.
Import App History.
Context (encode : list byte → string) (decode : string → list byte).

Local Abbreviation toSave := (History.toSave encode).
Local Abbreviation load := (History.load decode).
Local Abbreviation reloaded := (History.reloaded encode).

(** X19.  The history of the second revision survives a reload.  When
    [decode] undoes [encode], loading what was saved gives back every entry
    in order with its speaker, text, mode and time, and with its audio, byte
    for byte; the one exception is an entry whose audio is encoded as the
    empty string, which comes back without audio.  Saving what was loaded
    stores the same again. *)
Theorem history_survives_reload (transcripts : list TranscriptEntry) :
  (∀ pcm, decode (encode pcm) = pcm) →
  load (Some (toSave transcripts)) = reloaded <$> transcripts ∧
  length (load (Some (toSave transcripts))) = length transcripts ∧
  (∀ j t, transcripts !! j = Some t →
     ∃ t', load (Some (toSave transcripts)) !! j = Some t' ∧
       speaker t' = speaker t ∧ text t' = text t ∧ mode t' = mode t ∧
       timestamp t' = timestamp t ∧
       (pcmData t' = pcmData t ∨
        pcmData t' = None ∧ encode <$> pcmData t = Some EmptyString)) ∧
  toSave (load (Some (toSave (load (Some (toSave transcripts))))))
  = toSave (load (Some (toSave transcripts))).
Proof.
  intros Hinv.
  assert (load (Some (toSave transcripts)) = reloaded <$> transcripts) as Hload.
  { unfold History.load, History.toSave. rewrite <-list_fmap_compose.
    apply list_fmap_ext. intros _ t _. unfold History.reloaded. simpl.
    destruct t as [sp tx md [pcm|] ts]; simpl; [|done].
    case_decide; [done|]. by rewrite Hinv. }
  assert (∀ t, reloaded (reloaded t) = reloaded t) as Hidem.
  { intros [sp tx md [pcm|] ts]; unfold History.reloaded; simpl; [|done].
    case_decide as He; simpl; [done|]. by rewrite decide_False. }
  split; [done|]. split; [by rewrite Hload, length_fmap|]. split.
  - intros j t Hj. exists (reloaded t).
    split; [by rewrite Hload, list_lookup_fmap, Hj|].
    unfold History.reloaded.
    destruct t as [sp tx md [pcm|] ts]; simpl; [|by split_and!; try left].
    case_decide as He; simpl; split_and!; try done; [right | left]; try done.
    by rewrite He.
  - rewrite Hload.
    assert (load (Some (toSave (reloaded <$> transcripts)))
            = reloaded <$> (reloaded <$> transcripts)) as ->.
    { unfold History.load, History.toSave. rewrite <-!list_fmap_compose.
      apply list_fmap_ext. intros _ t _. simpl.
      unfold History.reloaded.
      destruct t as [sp tx md [pcm|] ts]; simpl; [|done].
      case_decide as He; simpl; [done|].
      rewrite !decide_False by done. by rewrite Hinv. }
    rewrite <-list_fmap_compose. f_equal.
    apply list_fmap_ext. intros _ t _. simpl. by rewrite Hidem.
Qed.

End HistoryFacts.

Section HistoryExamples.
Import App History.

(** Stand-ins for [encode] and [decode] in the examples: one character per
    byte. *)
Lemma history_survives_reload_witness :
  History.load String.list_byte_of_string
    (Some (History.toSave String.string_of_list_byte
             [mkEntry user "Hi" streaming None 1;
              mkEntry model "Hello" streaming (Some [x01; x02]) 2;
              mkEntry model "..." batch (Some []) 3]))
  = [mkEntry user "Hi" streaming None 1;
     mkEntry model "Hello" streaming (Some [x01; x02]) 2;
     mkEntry model "..." batch None 3].
Proof.
  destruct (history_survives_reload String.string_of_list_byte
              String.list_byte_of_string
              [mkEntry user "Hi" streaming None 1;
               mkEntry model "Hello" streaming (Some [x01; x02]) 2;
               mkEntry model "..." batch (Some []) 3]) as (H & _).
  - apply String.list_byte_of_string_of_list_byte.
  - etrans; [exact H|]. reflexivity.
Defined.

End HistoryExamples.

(** ** The two revisions of the message handler *)

Section RevisionFacts.
Import App.
Context (decode : string → list byte).
Context (decodeAudioData : list byte → positive → nat → Pcm.AudioBuffer).

Local Abbreviation handleOnMessage :=
  (App.handleOnMessage decode decodeAudioData).
Local Abbreviation handleOnMessage_v2 :=
  (App.handleOnMessage_v2 decode decodeAudioData).

Lemma transcription_block_running m wall st :
  transcription_block m wall (set_running st)
  = set_running (transcription_block m wall st).
Proof. unfold transcription_block. by repeat case_match. Qed.

Lemma turnComplete_block_running m st :
  turnComplete_block m (set_running st)
  = set_running <$> turnComplete_block m st.
Proof.
  unfold turnComplete_block. destruct (turnComplete m); [|done]. simpl.
  destruct (currentModelAudioChunks st) as [|c cs]; [done|].
  by destruct (mergeUint8Arrays (c :: cs)).
Qed.

(** X20.  The two revisions of [handleOnMessage] differ only on a suspended
    context.  On a message that is not enqueued, or with a context that is
    not suspended, the second revision does what the first does.  On a
    suspended context the second revision, when the resumption succeeds, does
    what the first does on a running context; when the resumption fails, it
    stops there: the chunk is kept for the transcript but nothing is
    scheduled, and the [interrupted] flag of the message is not acted on. *)
Theorem revisions_differ_on_suspended_only m now wall st :
  (∀ ok, outputAudioContext st ≠ Some suspended ∨ audio_guard m st = None →
     handleOnMessage_v2 m now wall ok st = handleOnMessage m now wall st) ∧
  (∀ s, outputAudioContext st = Some suspended → audio_guard m st = Some s →
     handleOnMessage_v2 m now wall true st
     = handleOnMessage m now wall (set_running st) ∧
     ∃ st', handleOnMessage_v2 m now wall false st = Rejected st' ∧
       same_sched st st' ∧
       currentModelAudioChunks st'
       = (if turnComplete m then [] else currentModelAudioChunks st)
         ++ [decode s]).
Proof.
  destruct (transcription_block_sched m wall st) as [Hs0 Hch0].
  destruct (turnComplete_block_fields m (transcription_block m wall st))
    as (st1 & Hst1 & Hs1 & Hch1 & _).
  pose proof (same_sched_trans _ _ _ Hs0 Hs1) as Hsame.
  pose proof Hsame as (Hc & _).
  assert (audio_guard m st1 = audio_guard m st) as Hguard.
  { unfold audio_guard. by rewrite Hc. }
  split.
  - intros ok Hcase.
    unfold App.handleOnMessage_v2, App.handleOnMessage,
      App.handleOnMessage_begin.
    rewrite Hst1, Hguard.
    destruct (audio_guard m st) as [s|] eqn:Hg; [|done].
    destruct Hcase as [Hctx|?]; [|done]. simpl. rewrite Hc.
    destruct (outputAudioContext st) as [[]|]; done.
  - intros s Hctx Hg. split.
    + unfold App.handleOnMessage_v2, App.handleOnMessage,
        App.handleOnMessage_begin.
      rewrite transcription_block_running, turnComplete_block_running.
      rewrite Hst1, Hguard, Hg. simpl. rewrite Hc, Hctx.
      assert (audio_guard m (set_running st1) = Some s) as ->; [|done].
      rewrite <-Hg, <-Hguard. unfold audio_guard. simpl.
      by rewrite Hc, Hctx.
    + eexists. split.
      * unfold App.handleOnMessage_v2. rewrite Hst1, Hguard, Hg. simpl.
        by rewrite Hc, Hctx.
      * split; [done|]. simpl. by rewrite Hch1, Hch0.
Qed.

End RevisionFacts.

Section RevisionExamples.
Import App Samples.

(** An interruption that carries audio reaches a suspended context whose
    resumption fails. *)
Lemma revisions_differ_on_suspended_only_witness :
  ∃ st', App.handleOnMessage_v2 raw Pcm.decodeAudioData
           (mkMessage None None false (Some "abcd") true) 0%Qc 0 false
           (store (session suspended)) = Rejected st' ∧
    same_sched (store (session suspended)) st' ∧
    currentModelAudioChunks st' = [raw "abcd"].
Proof.
  destruct (revisions_differ_on_suspended_only raw Pcm.decodeAudioData
              (mkMessage None None false (Some "abcd") true) 0%Qc 0%Z
              (store (session suspended))) as [_ H].
  destruct (H "abcd" eq_refl eq_refl) as [_ H'].
  exact H'.
Defined.

End RevisionExamples.

(** ** The enqueue across its decode *)

Section InterleavingFacts.
Import App Interleaving.
Context (decode : string → list byte).
Context (decodeAudioData : list byte → positive → nat → Pcm.AudioBuffer).

Local Abbreviation handleOnMessage :=
  (App.handleOnMessage decode decodeAudioData).
Local Abbreviation handleOnMessage_begin :=
  (App.handleOnMessage_begin decode).
Local Abbreviation schedule := (App.schedule decodeAudioData).
Local Abbreviation enqueue := (App.enqueue decode decodeAudioData).
Local Abbreviation step := (App.step decode decodeAudioData).
Local Abbreviation run := (App.run decode decodeAudioData).
Local Abbreviation handle_all := (App.handle_all decode decodeAudioData).
Local Abbreviation quiet := (Interleaving.quiet decode decodeAudioData).
Local Abbreviation streaming := (Interleaving.streaming decode decodeAudioData).
Local Abbreviation completed := (Interleaving.completed decode decodeAudioData).
Local Abbreviation completes := (Interleaving.completes decodeAudioData).
Local Abbreviation creates := (Interleaving.creates decode decodeAudioData).
Local Abbreviation created := (Interleaving.created decode decodeAudioData).

(** The cursor across an event that is not a reset. *)
Lemma step_cursor_le w e :
  resets w e = false →
  (nextStartTime (store w) ≤ nextStartTime (store (step w e)))%Qc.
Proof.
  intros Hq. destruct e as [m now wall|i|id| |s|s]; simpl in *.
  - pose proof (handleOnMessage_begin_cursor decode m now wall (store w) Hq)
      as H.
    by destruct (handleOnMessage_begin m now wall (store w)).
  - destruct (pending w !! i) as [k|]; simpl in *; [|done].
    by apply handleOnMessage_resume_cursor.
  - done.
  - done.
  - done.
  - unfold batchOutput. by case_match.
Qed.

Lemma quiet_cursor_le es w :
  quiet w es →
  (nextStartTime (store w) ≤ nextStartTime (store (run w es)))%Qc.
Proof.
  revert w. induction es as [|e es IH]; intros w Hq; [done|].
  destruct Hq as [He Hq]. simpl.
  eapply Qcle_trans; [by apply step_cursor_le | by apply IH].
Qed.

(** The arrival of a message that passes the audio guard. *)
Lemma step_message_audio w m now wall s :
  inlineData m = Some s → s ≠ EmptyString →
  is_Some (outputAudioContext (store w)) →
  ∃ st1, same_sched (store w) st1 ∧
    step w (Message m now wall)
    = mkWorld (clamp_cursor now (push_chunk (decode s) st1))
        (pending w ++ [mkCont (decode s) (interrupted m)]) ∧
    handleOnMessage m now wall (store w)
    = Completed (interrupted_block (interrupted m) (enqueue s now st1)).
Proof.
  intros Hs Hne Hctx.
  destruct (handleOnMessage_audio decode decodeAudioData m now wall (store w) s
              Hs Hne Hctx) as (st1 & Hsame & Hbegin & Hrun).
  exists st1. split; [done|]. split; [|done]. simpl. by rewrite Hbegin.
Qed.

(** C1, as the code has it.  The enqueue is cut in two by the decode.  When
    a message that passes the audio guard arrives, the cursor is raised to
    [max(cursor, now)] with the clock read at that moment, and the handler
    waits for the decode; no node exists yet.  When the decode completes, in
    whatever state the component then is, the chunk is started at the value
    the cursor has then, its node is tracked, and the cursor becomes that
    start plus the duration of the buffer; on a message that is also an
    interruption the handler then stops what is tracked and puts the cursor
    at 0.  When nothing happens during the decode, the start is the maximum
    taken at the arrival, and the whole is the handler run in one piece.
    When other events happen during the decode, none of them a reset, the
    cursor is not below that maximum when the decode completes. *)
Theorem enqueue_start_and_cursor w m now wall s :
  inlineData m = Some s → s ≠ EmptyString →
  is_Some (outputAudioContext (store w)) →
  let b := decodeAudioData (decode s) 24000 1 in
  let k := mkCont (decode s) (interrupted m) in
  let startAt := Qcmax (nextStartTime (store w)) now in
  let w1 := step w (Message m now wall) in
  (pending w1 = pending w ++ [k] ∧
   nextStartTime (store w1) = startAt ∧
   nodes (store w1) = nodes (store w) ∧
   audioSources (store w1) = audioSources (store w) ∧
   (now ≤ startAt)%Qc ∧ (nextStartTime (store w) ≤ startAt)%Qc) ∧
  (∀ w2 i, pending w2 !! i = Some k →
     let w3 := step w2 (DecodeDone i) in
     let source := length (nodes (store w2)) in
     pending w3 = delete i (pending w2) ∧
     (interrupted m = false →
      nodes (store w3)
      = nodes (store w2)
        ++ [mkNode b (Scheduled (nextStartTime (store w2)))] ∧
      audioSources (store w3) = {[source]} ∪ audioSources (store w2) ∧
      nextStartTime (store w3)
      = (nextStartTime (store w2) + Pcm.duration b)%Qc) ∧
     (interrupted m = true → is_Some (outputAudioContext (store w2)) →
      audioSources (store w3) = ∅ ∧ nextStartTime (store w3) = 0%Qc)) ∧
  (let w3 := step w1 (DecodeDone (length (pending w))) in
   store w3 = progress_store (handleOnMessage m now wall (store w)) ∧
   (interrupted m = false →
    nodes (store w3) = nodes (store w) ++ [mkNode b (Scheduled startAt)] ∧
    nextStartTime (store w3) = (startAt + Pcm.duration b)%Qc)) ∧
  (∀ es, quiet w1 es → (startAt ≤ nextStartTime (store (run w1 es)))%Qc).
Proof.
  intros Hs Hne Hctx b k startAt w1.
  destruct (step_message_audio w m now wall s Hs Hne Hctx)
    as (st1 & (Hc & Hcur & Ha & Hn) & Hstep & Hrun).
  fold w1 in Hstep. fold k in Hstep.
  assert (nextStartTime (store w1) = startAt) as Hcur1.
  { rewrite Hstep. simpl. by rewrite Hcur. }
  split; [|split; [|split]].
  - rewrite Hstep. simpl. rewrite Hcur, Ha, Hn. split_and!; try done.
    + apply Qcmax_ge_r.
    + apply Qcmax_ge_l.
  - intros w2 i Hi w3 source. unfold w3. simpl. rewrite Hi. simpl.
    split; [done|]. split.
    + intros Hint. unfold App.handleOnMessage_resume. simpl.
      by rewrite Hint.
    + intros Hint [c Hc2]. unfold App.handleOnMessage_resume. simpl.
      rewrite Hint. simpl. unfold stopAudioPlayback. simpl. by rewrite Hc2.
  - cbv zeta.
    assert (pending w1 !! length (pending w) = Some k) as Hk.
    { rewrite Hstep. simpl. by rewrite lookup_app_r, Nat.sub_diag. }
    assert (store (step w1 (DecodeDone (length (pending w))))
            = interrupted_block (interrupted m) (enqueue s now st1)) as Hst3.
    { simpl. rewrite Hk. simpl. by rewrite Hstep. }
    split; [by rewrite Hst3, Hrun|].
    intros Hint. rewrite Hst3, Hint. simpl.
    by rewrite Hn, Hcur.
  - intros es Hq. rewrite <-Hcur1. by apply quiet_cursor_le.
Qed.

(** *** Chunks started back to back *)

Lemma Qcsum_app (l1 l2 : list Qc) :
  Qcsum (l1 ++ l2) = (Qcsum l1 + Qcsum l2)%Qc.
Proof.
  induction l1 as [|x l1 IH]; simpl.
  - by rewrite Qcplus_0_l.
  - by rewrite IH, Qcplus_assoc.
Qed.

Lemma back_to_back_app (c : Qc) (l1 l2 : list Pcm.AudioBuffer) :
  back_to_back c (l1 ++ l2)
  = back_to_back c l1
    ++ back_to_back (c + Qcsum (Pcm.duration <$> l1))%Qc l2.
Proof.
  revert c. induction l1 as [|b l1 IH]; intros c; simpl.
  - by rewrite Qcplus_0_r.
  - by rewrite IH, Qcplus_assoc.
Qed.

(** An event that neither creates a node nor moves the cursor. *)
Lemma creates_nothing w e st :
  store (step w e) = st → completes w e = [] →
  length (nodes st) = length (nodes (store w)) →
  nextStartTime st = nextStartTime (store w) →
  (not_ended e → nodes st = nodes (store w)) →
  creates w e = back_to_back (nextStartTime (store w)) (completes w e) ∧
  nextStartTime (store (step w e))
  = (nextStartTime (store w) + Qcsum (Pcm.duration <$> completes w e))%Qc ∧
  (not_ended e → nodes (store (step w e)) = nodes (store w) ++ creates w e).
Proof.
  intros Hst Hnone Hlen Hcur Hnodes. unfold Interleaving.creates.
  rewrite Hst, Hnone, Hcur, <-Hlen, drop_all, app_nil_r. simpl.
  by rewrite Qcplus_0_r.
Qed.

(** One event of a run without interruption: the node it creates, if any, is
    started at the cursor, which moves on by the duration of its buffer;
    every event other than the end of a node leaves the older nodes as they
    are. *)
Lemma streaming_step w e :
  resets w e = false → on_time w e →
  creates w e = back_to_back (nextStartTime (store w)) (completes w e) ∧
  nextStartTime (store (step w e))
  = (nextStartTime (store w) + Qcsum (Pcm.duration <$> completes w e))%Qc ∧
  (not_ended e → nodes (store (step w e)) = nodes (store w) ++ creates w e).
Proof.
  intros Hq Hnow.
  destruct e as [m now wall|i|id| |s|s].
  - assert (nodes (store (step w (Message m now wall))) = nodes (store w) ∧
            nextStartTime (store (step w (Message m now wall)))
            = nextStartTime (store w)) as [Hn Hc].
    { simpl in *. unfold App.handleOnMessage_begin.
      destruct (transcription_block_sched m wall (store w)) as [Hs0 _].
      destruct (turnComplete_block_Some m
                  (transcription_block m wall (store w)))
        as (st1 & -> & Hs1 & _).
      destruct (same_sched_trans _ _ _ Hs0 Hs1) as (_ & Hcur & _ & Hnodes).
      destruct (audio_guard m st1) as [s|] eqn:Hg; simpl.
      - rewrite Hnodes, Hcur. split; [done|]. apply Qcmax_l, Hnow.
        unfold audio_guard in Hg. by destruct (inlineData m).
      - rewrite Hq. simpl. by rewrite Hnodes, Hcur. }
    apply (creates_nothing _ _ _ eq_refl); [done | by rewrite Hn | done..].
  - destruct (pending w !! i) as [k|] eqn:Hi.
    + unfold Interleaving.creates, Interleaving.completes. simpl in *.
      rewrite Hi in *. simpl in *.
      unfold App.handleOnMessage_resume. rewrite Hq. simpl.
      rewrite drop_app_length. split; [done|]. split; [|done].
      by rewrite Qcplus_0_r.
    + apply (creates_nothing _ _ (store w)); simpl; by rewrite ?Hi.
  - apply (creates_nothing _ _ _ eq_refl); simpl;
      [done | by rewrite length_alter | done..].
  - done.
  - by apply (creates_nothing _ _ _ eq_refl).
  - apply (creates_nothing _ _ _ eq_refl); simpl; [done|..];
      unfold batchOutput; by case_match.
Qed.

Lemma streaming_back_to_back es w :
  streaming w es →
  created w es = back_to_back (nextStartTime (store w)) (completed w es) ∧
  nextStartTime (store (run w es))
  = (nextStartTime (store w) + Qcsum (Pcm.duration <$> completed w es))%Qc ∧
  (Forall not_ended es →
   nodes (store (run w es)) = nodes (store w) ++ created w es).
Proof.
  revert w. induction es as [|e es IH]; intros w Hs.
  - simpl. by rewrite app_nil_r, Qcplus_0_r.
  - destruct Hs as (Hq & Hnow & Hs).
    destruct (IH _ Hs) as (Hcr & Hc & Hn).
    destruct (streaming_step w e Hq Hnow) as (Hcr1 & Hc1 & Hn1).
    change (run w (e :: es)) with (run (step w e) es). simpl.
    rewrite Hcr, Hc, Hcr1, Hc1. split; [|split].
    + by rewrite back_to_back_app.
    + by rewrite fmap_app, Qcsum_app, Qcplus_assoc.
    + intros [He Hes]%Forall_cons. rewrite (Hn Hes), (Hn1 He), Hcr, Hcr1, Hc1.
      by rewrite <-(assoc_L (++)).
Qed.

(** C2, as the code has it.  In a run without interruption in which the
    clock never overtakes the cursor, with messages arriving, decodes
    completing and nodes ending in any order, the chunks are started back to
    back in the order in which their decodes complete: the chunk whose decode
    is the [i]-th to complete is started at the cursor the run began with
    plus the durations of the chunks completed before it, each start being
    the start before it plus the duration before it, and the cursor ends at
    the initial cursor plus all those durations; as long as no node has
    ended, the nodes of the run are the last nodes of the heap.  When each
    message is handled to its end before the next arrives, that order is the
    order of arrival: chunk [i] is started at [T0] plus the durations of the
    chunks before it, [T0] being [max(cursor, now)] at the first enqueue;
    three chunks of 1/2 s, 3/10 s and 7/10 s met with cursor 0 at clock 0
    start at 0, 1/2 and 4/5, and the cursor ends at 3/2. *)
Theorem gapless_starts :
  (∀ w es, streaming w es →
     let c := nextStartTime (store w) in
     let bufs := completed w es in
     let final := store (run w es) in
     created w es = back_to_back c bufs ∧
     (∀ i b, bufs !! i = Some b →
        created w es !! i
        = Some (mkNode b
                  (Scheduled (c + Qcsum (Pcm.duration <$> take i bufs))%Qc))) ∧
     nextStartTime final = (c + Qcsum (Pcm.duration <$> bufs))%Qc ∧
     (Forall not_ended es → nodes final = nodes (store w) ++ created w es)) ∧
  (∀ (a : Arrival) (rest : list Arrival) st,
     Forall plain_audio (a :: rest) → is_Some (outputAudioContext st) →
     clock_behind decode decodeAudioData rest
       (progress_store (handleOnMessage a.1.1 a.1.2 a.2 st)) →
     let T0 := Qcmax (nextStartTime st) a.1.2 in
     let bufs := buffer_of decode decodeAudioData <$> a :: rest in
     let final := handle_all (a :: rest) st in
     (∀ i b, bufs !! i = Some b →
        nodes final !! (length (nodes st) + i)%nat
        = Some (mkNode b
                  (Scheduled (T0 + Qcsum (Pcm.duration <$> take i bufs))%Qc))) ∧
     nextStartTime final = (T0 + Qcsum (Pcm.duration <$> bufs))%Qc ∧
     (nextStartTime st = 0%Qc → a.1.2 = 0%Qc →
      Pcm.duration <$> bufs = [Q2Qc (1 # 2); Q2Qc (3 # 10); Q2Qc (7 # 10)] →
      (λ n, playState n) <$> drop (length (nodes st)) (nodes final)
      = [Scheduled 0%Qc; Scheduled (Q2Qc (1 # 2)); Scheduled (Q2Qc (4 # 5))] ∧
      nextStartTime final = Q2Qc (3 # 2))).
Proof.
  split.
  - intros w es Hs c bufs final.
    destruct (streaming_back_to_back es w Hs) as (Hcr & Hc & Hn).
    fold final c bufs in Hcr, Hc, Hn. split; [done|]. split; [|done].
    intros i b Hi. rewrite Hcr. by apply back_to_back_lookup.
  - intros a rest st Hall Hctx Hclock.
    exact (gapless_in_arrival_order decode decodeAudioData a rest st
             Hall Hctx Hclock).
Qed.

End InterleavingFacts.

Section InterleavingExamples.
Import App Interleaving Samples.

Local Abbreviation handle := (handleOnMessage raw Pcm.decodeAudioData).
Local Abbreviation step := (App.step raw Pcm.decodeAudioData).

(** One chunk of two samples arriving at clock 2 in a fresh session, and
    nothing else before its decode completes. *)
Lemma enqueue_start_and_cursor_witness :
  let w1 := step (session running) (Message (audio (silence 4)) (Q2Qc 2) 0) in
  let w3 := step w1 (DecodeDone 0) in
  nextStartTime (store w1) = Q2Qc 2 ∧ nodes (store w1) = [] ∧
  playState <$> nodes (store w3) = [Scheduled (Q2Qc 2)] ∧
  nextStartTime (store w3) = (Q2Qc 2 + Q2Qc (2 # 24000))%Qc.
Proof.
  destruct (enqueue_start_and_cursor raw Pcm.decodeAudioData
              (session running) (audio (silence 4)) (Q2Qc 2) 0 (silence 4)
              eq_refl ltac:(done) ltac:(by eexists))
    as ((_ & Hcur1 & Hn1 & _) & _ & (_ & Hone) & _).
  destruct (Hone eq_refl) as [Hn3 Hcur3].
  split; [exact Hcur1|]. split; [exact Hn1|]. split.
  - etrans; [exact (f_equal (fmap playState) Hn3)|]. reflexivity.
  - exact Hcur3.
Defined.

(** C1, as stated.  A chunk arrives at clock 2 with the cursor at 0: the
    maximum of cursor and clock is 2 at the call.  A message with
    [interrupted] is handled at clock 3 while the decode is in flight, which
    leaves the cursor at 0: the maximum of cursor and clock is 3 from then
    on.  When the decode completes the chunk is started at 0, which is
    neither.  And when the message that carries the chunk carries
    [interrupted] itself, the cursor after the call is 0, not the start plus
    the duration. *)
Lemma enqueue_start_not_max :
  let call := Message (audio (silence 4)) (Q2Qc 2) 0 in
  let w1 := step (session running) call in
  let interrupt := Message (mkMessage None None false None true) (Q2Qc 3) 1 in
  let both := mkMessage None None false (Some (silence 4)) true in
  nextStartTime (store (session running)) = 0%Qc ∧
  Qcmax (nextStartTime (store (session running))) (Q2Qc 2) = Q2Qc 2 ∧
  Qcmax (nextStartTime (store (step w1 interrupt))) (Q2Qc 3) = Q2Qc 3 ∧
  playState <$> nodes (store (step (step w1 interrupt) (DecodeDone 0)))
  = [Scheduled 0%Qc] ∧
  nextStartTime
    (progress_store (handle both (Q2Qc 2) 0 (store (session running))))
  = 0%Qc.
Proof. by vm_compute. Qed.

(** The spec's scenario: chunks of 1/2 s, 3/10 s and 7/10 s at 24 kHz. *)
Lemma gapless_starts_witness :
  let first : Arrival := (audio (silence 24000), Q2Qc 0, 0%Z) in
  let second : Arrival := (audio (silence 14400), Q2Qc (1 # 4), 1%Z) in
  let third : Arrival := (audio (silence 33600), Q2Qc (3 # 4), 2%Z) in
  let st := store (session running) in
  let final :=
    handle_all raw Pcm.decodeAudioData (first :: [second; third]) st in
  (λ n, playState n) <$> drop (length (nodes st)) (nodes final)
  = [Scheduled 0%Qc; Scheduled (Q2Qc (1 # 2)); Scheduled (Q2Qc (4 # 5))] ∧
  nextStartTime final = Q2Qc (3 # 2).
Proof.
  intros first second third st final.
  assert (Forall plain_audio (first :: [second; third])) as Hall.
  { repeat apply Forall_cons_2; [..|apply Forall_nil_2];
      apply silent_audio_plain; lia. }
  assert (clock_behind raw Pcm.decodeAudioData [second; third]
            (progress_store (handle first.1.1 first.1.2 first.2 st))) as Hclock.
  { vm_compute. split; [discriminate|]. split; [discriminate|exact I]. }
  assert (Pcm.duration (buffer_of raw Pcm.decodeAudioData first) = Q2Qc (1 # 2))
    as Hd1 by (apply Qc_is_canon; vm_compute; reflexivity).
  assert (Pcm.duration (buffer_of raw Pcm.decodeAudioData second) = Q2Qc (3 # 10))
    as Hd2 by (apply Qc_is_canon; vm_compute; reflexivity).
  assert (Pcm.duration (buffer_of raw Pcm.decodeAudioData third) = Q2Qc (7 # 10))
    as Hd3 by (apply Qc_is_canon; vm_compute; reflexivity).
  pose proof (proj2 (gapless_starts raw Pcm.decodeAudioData)
                first [second; third] st Hall ltac:(by eexists) Hclock) as H.
  exact (proj2 (proj2 H) eq_refl eq_refl
           (f_equal2 cons Hd1 (f_equal2 cons Hd2 (f_equal2 cons Hd3 eq_refl)))).
Defined.

(** C2, as stated.  Two chunks arrive at clock 0 with the cursor at 0, the
    first of two samples and the second of four; the decode of the second
    completes first.  The second chunk is started at 0, where the first
    should be, and the first at 0 + 4/24000, after the second. *)
Lemma gapless_order_not_arrival :
  let w := step (step (session running)
                   (Message (audio (silence 4)) 0%Qc 0))
             (Message (audio (silence 8)) 0%Qc 1) in
  let final := store (step (step w (DecodeDone 1)) (DecodeDone 0)) in
  k_decoded <$> pending w = [raw (silence 4); raw (silence 8)] ∧
  nodes final
  = [mkNode (Pcm.decodeAudioData (raw (silence 8)) 24000 1) (Scheduled 0%Qc);
     mkNode (Pcm.decodeAudioData (raw (silence 4)) 24000 1)
       (Scheduled (0 + Q2Qc (4 # 24000))%Qc)].
Proof. by vm_compute. Qed.

End InterleavingExamples.

(** ** The offset, whatever the order of events *)

Section BoundFacts.
Import AudioPlayer AsyncPlayer.

Context (decodeAudioData : list byte → positive → nat → Pcm.AudioBuffer).
Context (pcmData : list byte) (sampleRate : positive).

Local Abbreviation step := (AsyncPlayer.step decodeAudioData pcmData sampleRate).
Local Abbreviation bounded :=
  (AsyncPlayer.bounded decodeAudioData pcmData sampleRate).
Local Abbreviation reachable :=
  (AsyncPlayer.reachable decodeAudioData pcmData sampleRate).
Local Abbreviation clip_duration :=
  (clip_duration decodeAudioData pcmData sampleRate).

Lemma bounded_same a q cs :
  bounded a → playbackOffset (state q) = playbackOffset (state (player a)) →
  duration (state q) = duration (state (player a)) →
  bounded (mkAsync q cs).
Proof. intros [Hle Hd] Ho Hdq. split; simpl; by rewrite ?Ho, Hdq. Qed.

Lemma bounded_zero a q cs :
  bounded a → playbackOffset (state q) = 0%Qc →
  duration (state q) = duration (state (player a)) →
  bounded (mkAsync q cs).
Proof.
  intros [Hle Hd] Ho Hdq. split; simpl; rewrite ?Ho, Hdq; [|done].
  destruct Hd as [->| ->]; [done|].
  apply (clip_duration_nonneg decodeAudioData pcmData sampleRate).
Qed.

Lemma handlePlay_begin_bounded a r fresh now q cs :
  bounded a → state q = state (player a) →
  bounded (spawn cs (handlePlay_begin r fresh now q)).
Proof.
  intros Hb Hs. unfold handlePlay_begin, handlePlay_guarded, spawn.
  destruct (audioBuffer q); [destruct (audioContext q) as [[|]|]|]; simpl;
    apply (bounded_same a); simpl; by rewrite ?Hs.
Qed.

Lemma step_bounded a e : bounded a → bounded (step a e).
Proof.
  intros Hb. pose proof Hb as [Hle Hd]. destruct a as [p cs]. simpl in *.
  destruct e as [fresh now| |fresh now|id now|i now]; simpl.
  - destruct (isPlaying (state p)) eqn:Hplay.
    + unfold handlePause. destruct (sourceNode p) as [cur|] eqn:Hsrc; [|done].
      rewrite Hplay. unfold stop_current. rewrite Hsrc.
      split; simpl; [apply Qcmin_le_r | done].
    + by apply (handlePlay_begin_bounded (mkAsync p cs)).
  - apply (bounded_zero (mkAsync p cs)); [done|..]; unfold handleReplay,
      stop_current; by destruct (sourceNode p).
  - destruct (timers p) as [|r rest]; [done|].
    by apply (handlePlay_begin_bounded (mkAsync p cs)).
  - unfold onended. destruct (nodes p !! id) as [n|]; [|done].
    destruct (audioBuffer p) as [b|]; [|done].
    destruct (isPlaying (closure n)); [case_decide|]; try done.
    by apply (bounded_zero (mkAsync p cs)).
  - destruct (cs !! i) as [k|]; [|done].
    unfold handlePlay_resume, handlePlay_guarded, spawn.
    destruct (stage k); simpl.
    + by apply (bounded_same (mkAsync p cs)).
    + assert (playbackOffset (state p) ≤ clip_duration)%Qc as Hclip.
      { eapply Qcle_trans; [exact Hle|]. destruct Hd as [->| ->]; [|done].
        apply (clip_duration_nonneg decodeAudioData pcmData sampleRate). }
      destruct (audioContext p) as [[|]|]; simpl;
        (split; simpl; [exact Hclip | by right]).
    + by apply (bounded_same (mkAsync p cs)).
Qed.

Lemma reachable_bounded a : reachable a → bounded a.
Proof.
  induction 1 as [|a e _ IH]; [|by apply step_bounded].
  split; simpl; [done | by left].
Qed.

End BoundFacts.

(** ** Pause, the end of the stopped node, and the next play *)

Section PauseFacts.
Import AudioPlayer.

Context (decodeAudioData : list byte → positive → nat → Pcm.AudioBuffer).
Context (pcmData : list byte) (sampleRate : positive).

Local Abbreviation handlePlay := (handlePlay decodeAudioData pcmData sampleRate).
Local Abbreviation step := (step decodeAudioData pcmData sampleRate).
Local Abbreviation reachable := (reachable decodeAudioData pcmData sampleRate).
Local Abbreviation clip_duration :=
  (clip_duration decodeAudioData pcmData sampleRate).
Local Abbreviation cycles := (cycles decodeAudioData pcmData sampleRate).

(** A play on a player that is not playing and has its clip and a context:
    the node is started from the offset of the state. *)
Lemma play_from_offset p now :
  isPlaying (state p) = false → is_Some (audioBuffer p) →
  is_Some (audioContext p) →
  playState <$> nodes (step p (ClickPlayPause now)) !! length (nodes p)
  = Some (Playing (playbackOffset (state p))).
Proof.
  intros Hidle [b Hb] [c Hc]. simpl. rewrite Hidle.
  unfold AudioPlayer.handlePlay, initAudio. rewrite Hb, Hc. simpl. rewrite Hb.
  simpl. by rewrite lookup_app_r, Nat.sub_diag.
Qed.


End PauseFacts.

Section PauseExamples.
Import AudioPlayer.

(** A clip of ten samples played at 1 Hz: ten seconds. *)
Local Abbreviation pcm := (replicate 20 x00 : list byte).
Local Abbreviation step := (AudioPlayer.step Pcm.decodeAudioData pcm 1).



End PauseExamples.


(** ** Interruptions and the audio of the turn *)

Section InterruptionFacts.
Import App Wire.
Context (decode : string → list byte).
Context (decodeAudioData : list byte → positive → nat → Pcm.AudioBuffer).

Local Abbreviation step := (App.step decode decodeAudioData).
Local Abbreviation receive := (Wire.receive decode).

(** The arrival of a message, whatever becomes of its audio: the
    transcripts are those of the turn-complete branch. *)
Lemma step_message_transcripts w m now wall :
  ∃ st1, turnComplete_block m (transcription_block m wall (store w)) = Some st1 ∧
    transcripts (store (step w (Message m now wall))) = transcripts st1.
Proof.
  destruct (turnComplete_block_fields m (transcription_block m wall (store w)))
    as (st1 & Hst1 & _).
  exists st1. split; [done|]. simpl. unfold App.handleOnMessage_begin.
  rewrite Hst1. destruct (audio_guard m st1); simpl; [done|].
  apply interrupted_block_transcripts.
Qed.

(** The transcription updater gives no entry audio and takes none away. *)
Lemma upsert_last_pcmData sp t wall prev j e' :
  upsert_last sp t wall prev !! j = Some e' →
  pcmData e' = prev !! j ≫= pcmData.
Proof.
  intros Hj. destruct (prev !! j) as [e|] eqn:Hprev.
  - destruct (upsert_last_frame sp t wall prev j e Hprev)
      as (e'' & Hj' & _ & _ & Hpcm & _).
    rewrite Hj in Hj'. injection Hj' as ->. done.
  - apply lookup_ge_None in Hprev. simpl. revert Hj. unfold upsert_last.
    destruct (last prev) as [l|] eqn:Hl; [case_decide as Hsame|].
    + apply last_Some in Hl as [front ->]. rewrite removelast_last.
      rewrite length_app in Hprev. simpl in Hprev.
      intros Hj. apply lookup_lt_Some in Hj.
      rewrite length_app in Hj. simpl in Hj. lia.
    + rewrite lookup_app_r by done. intros Hj.
      apply list_lookup_singleton_Some in Hj as [_ <-]. done.
    + rewrite lookup_app_r by done. intros Hj.
      apply list_lookup_singleton_Some in Hj as [_ <-]. done.
Qed.

(** X7.  An interruption discards the audio of the turn when its branch
    runs, and not before.  A message with [interrupted] that has no decode to
    wait for empties the list of chunks at once.  One that carries audio
    first adds its own chunk; the list is emptied when its decode completes,
    and a [turnComplete] that arrives before that still attaches what the
    list holds.  A message whose model turn has no parts makes the handler
    throw before the [interrupted] branch: the chunks are kept and nothing is
    stopped.  Once the list is empty, a [turnComplete] gives no entry audio
    and every entry keeps the audio it had. *)
Theorem interruption_discards_turn_audio w r now wall :
  w_interrupted r = true →
  let w1 := receive w r now wall in
  let kept :=
    if w_turnComplete r then [] else currentModelAudioChunks (store w) in
  (w_modelTurn r = WithoutParts →
   pending w1 = pending w ∧ same_sched (store w) (store w1) ∧
   currentModelAudioChunks (store w1) = kept) ∧
  (w_modelTurn r ≠ WithoutParts → audio_guard (fields r) (store w) = None →
   pending w1 = pending w ∧ currentModelAudioChunks (store w1) = []) ∧
  (∀ s, w_modelTurn r ≠ WithoutParts →
     audio_guard (fields r) (store w) = Some s →
     pending w1 = pending w ++ [mkCont (decode s) true] ∧
     currentModelAudioChunks (store w1) = kept ++ [decode s] ∧
     (∀ now2 wall2,
        transcripts
          (store (step w1 (Message (mkMessage None None true None false)
                             now2 wall2)))
        = attach_pcm (concat (kept ++ [decode s])) (transcripts (store w1))) ∧
     (∀ w2 i, pending w2 !! i = Some (mkCont (decode s) true) →
        currentModelAudioChunks (store (step w2 (DecodeDone i))) = [])) ∧
  (∀ w2 m2 now2 wall2,
     currentModelAudioChunks (store w2) = [] → turnComplete m2 = true →
     let w3 := step w2 (Message m2 now2 wall2) in
     (length (transcripts (store w2)) ≤ length (transcripts (store w3)))%nat ∧
     ∀ j e', transcripts (store w3) !! j = Some e' →
       pcmData e' = transcripts (store w2) !! j ≫= pcmData).
Proof.
  intros Hint w1 kept.
  destruct (transcription_block_sched (fields r) wall (store w)) as [Hs0 Hch0].
  destruct (turnComplete_block_fields (fields r)
              (transcription_block (fields r) wall (store w)))
    as (st1 & Hst1 & Hs1 & Hch1 & _).
  pose proof (same_sched_trans _ _ _ Hs0 Hs1) as Hsame.
  assert (currentModelAudioChunks st1 = kept) as Hkept.
  { rewrite Hch1, Hch0. done. }
  assert (audio_guard (fields r) st1 = audio_guard (fields r) (store w))
    as Hguard.
  { destruct Hsame as (Hc & _). unfold audio_guard. by rewrite Hc. }
  assert (w_modelTurn r ≠ WithoutParts →
          w1 = step w (Message (fields r) now wall)) as Hstep.
  { intros Hparts. unfold w1, Wire.receive, Wire.receive_begin.
    by destruct (w_modelTurn r). }
  split; [|split; [|split]].
  - intros Hparts. unfold w1, Wire.receive, Wire.receive_begin.
    rewrite Hparts, Hst1. simpl. by split_and!.
  - intros Hparts Hg. rewrite (Hstep Hparts). simpl.
    unfold App.handleOnMessage_begin. rewrite Hst1, Hguard, Hg. simpl.
    split; [done|]. change (interrupted (fields r)) with (w_interrupted r).
    by rewrite Hint.
  - intros s Hparts Hg.
    assert (w1 = mkWorld (clamp_cursor now (push_chunk (decode s) st1))
                   (pending w ++ [mkCont (decode s) true])) as Hw1.
    { rewrite (Hstep Hparts). simpl. unfold App.handleOnMessage_begin.
      rewrite Hst1, Hguard, Hg. simpl.
      change (interrupted (fields r)) with (w_interrupted r).
      by rewrite Hint. }
    assert (currentModelAudioChunks (store w1) = kept ++ [decode s]) as Hch.
    { rewrite Hw1. simpl. by rewrite Hkept. }
    split; [by rewrite Hw1|]. split; [done|]. split.
    + intros now2 wall2.
      set (m2 := mkMessage None None true None false).
      destruct (step_message_transcripts w1 m2 now2 wall2)
        as (st2 & Hst2 & Hw3). rewrite Hw3.
      destruct (turnComplete_block_fields m2
                  (transcription_block m2 wall2 (store w1)))
        as (st2' & Hst2' & _ & _ & _ & _ & Htr).
      rewrite Hst2 in Hst2'. injection Hst2' as <-.
      change (transcription_block m2 wall2 (store w1)) with (store w1) in Htr.
      change (turnComplete m2) with true in Htr. cbv iota in Htr.
      rewrite Htr, Hch. by destruct kept.
    + intros w2 i Hi. simpl. rewrite Hi. simpl.
      unfold stopAudioPlayback. by case_match.
  - intros w2 m2 now2 wall2 Hempty Htc w3.
    assert (transcripts (store w3)
            = transcripts (transcription_block m2 wall2 (store w2))) as Htr3.
    { destruct (step_message_transcripts w2 m2 now2 wall2)
        as (st2 & Hst2 & Htr). fold w3 in Htr. rewrite Htr.
      destruct (turnComplete_block_fields m2
                  (transcription_block m2 wall2 (store w2)))
        as (st2' & Hst2' & _ & _ & _ & _ & Htr2).
      rewrite Hst2 in Hst2'. injection Hst2' as <-.
      rewrite Htr2, Htc.
      destruct (transcription_block_sched m2 wall2 (store w2)) as [_ ->].
      by rewrite Hempty. }
    rewrite Htr3, transcription_block_transcripts.
    destruct (outputTranscription m2) as [t|];
      [|destruct (inputTranscription m2) as [t|]].
    + split; [apply upsert_last_length|]. intros j e'.
      apply upsert_last_pcmData.
    + split; [apply upsert_last_length|]. intros j e'.
      apply upsert_last_pcmData.
    + split; [done|]. by intros j e' ->.
Qed.

End InterruptionFacts.

Section InterruptionExamples.
Import App Wire Samples.

Local Abbreviation step := (App.step raw Pcm.decodeAudioData).
Local Abbreviation receive := (Wire.receive raw).

(** The model has said "Hi" and one chunk is kept when an interruption
    arrives; the turn then ends. *)
Lemma interruption_discards_turn_audio_witness :
  let w := mkWorld (mkStore [mkEntry model "Hi" streaming None 5]
                      (Some running) [raw "ab"] EmptyString "Hi" 0%Qc ∅ [])
             [] in
  let w1 := receive w (mkServerMessage None None false NoModelTurn true)
              0%Qc 6 in
  let w3 := step w1 (Message (mkMessage None None true None false) 0%Qc 7) in
  currentModelAudioChunks (store w1) = [] ∧
  pcmData <$> transcripts (store w3) !! 0%nat = Some None.
Proof.
  intros w w1 w3.
  destruct (interruption_discards_turn_audio raw Pcm.decodeAudioData w
              (mkServerMessage None None false NoModelTurn true) 0%Qc 6%Z
              eq_refl) as (_ & Hnow & _ & Hlater).
  destruct (Hnow ltac:(done) eq_refl) as [_ Hempty].
  split; [exact Hempty|].
  destruct (Hlater w1 (mkMessage None None true None false) 0%Qc 7%Z
              Hempty eq_refl) as [Hlen Hpcm].
  assert (length (transcripts (store w1)) = 1%nat) as Hone by (by vm_compute).
  destruct (transcripts (store w3) !! 0%nat) as [e'|] eqn:He'.
  - simpl. f_equal. exact (Hpcm 0%nat e' He').
  - apply lookup_ge_None in He'. fold w3 in Hlen. lia.
Defined.

(** An interruption whose model turn has no parts: the handler throws at the
    read of [parts[0]], the chunk of the turn is kept and the next
    [turnComplete] attaches it.  An interruption that carries audio: a
    [turnComplete] handled before its decode completes attaches the kept
    chunk and the new one. *)
Lemma interruption_keeps_audio :
  let w := mkWorld (mkStore [mkEntry model "Hi" streaming None 5]
                      (Some running) [raw "ab"] EmptyString "Hi" 0%Qc ∅ [])
             [] in
  let turnEnds := Message (mkMessage None None true None false) 0%Qc 7 in
  let w1 := receive w (mkServerMessage None None false WithoutParts true)
              0%Qc 6 in
  let v1 := receive w
              (mkServerMessage None None false (WithParts (Some "cd")) true)
              0%Qc 6 in
  currentModelAudioChunks (store w1) = [raw "ab"] ∧
  pcmData <$> transcripts (store (step w1 turnEnds)) !! 0%nat
  = Some (Some (raw "ab")) ∧
  pcmData <$> transcripts (store (step v1 turnEnds)) !! 0%nat
  = Some (Some (raw "abcd")) ∧
  pcmData <$> transcripts (store (step (step v1 (DecodeDone 0)) turnEnds))
                !! 0%nat
  = Some None.
Proof. by vm_compute. Qed.

End InterruptionExamples.


(** ** One voice *)

Section AsyncPlayerFacts.
Import AudioPlayer PlayerView AsyncPlayer.

Context (decodeAudioData : list byte → positive → nat → Pcm.AudioBuffer).
Context (pcmData : list byte) (sampleRate : positive).

Local Abbreviation step := (AsyncPlayer.step decodeAudioData pcmData sampleRate).
Local Abbreviation run := (AsyncPlayer.run decodeAudioData pcmData sampleRate).
Local Abbreviation patient :=
  (AsyncPlayer.patient decodeAudioData pcmData sampleRate).

(** A call of [handlePlay] that is run to its end before anything else
    happens does what [AudioPlayer.handlePlay] does in one piece. *)
Lemma handlePlay_settles r fresh now p :
  run (spawn [] (handlePlay_begin r fresh now p))
    [Continue 0 now; Continue 0 now]
  = mkAsync (AudioPlayer.handlePlay decodeAudioData pcmData sampleRate r now p)
      [].
Proof.
  unfold handlePlay_begin, handlePlay_guarded, AudioPlayer.handlePlay,
    initAudio.
  destruct (audioBuffer p) as [b|] eqn:Hb.
  - destruct (audioContext p) as [[|]|] eqn:Hc; simpl;
      unfold spawn, handlePlay_resume, start_source, set_context; simpl;
      by rewrite ?Hb, ?Hc.
  - destruct (audioContext p) as [[|]|] eqn:Hc; simpl;
      [done | done | by destruct fresh].
Qed.

(** On a decoded clip whose context is running [handlePlay] is not
    suspended: every event does what it does in [AudioPlayer]. *)
Lemma running_step_atomic a fresh e b :
  audioBuffer (player a) = Some b →
  audioContext (player a) = Some App.running →
  run a (take 1 (settled fresh e))
  = mkAsync (AudioPlayer.step decodeAudioData pcmData sampleRate (player a) e)
      (calls a).
Proof.
  destruct a as [p cs]. simpl. intros Hb Hc.
  assert (∀ r now q, audioBuffer q = Some b →
            audioContext q = Some App.running →
            spawn cs (handlePlay_begin r fresh now q)
            = mkAsync (AudioPlayer.handlePlay decodeAudioData pcmData
                         sampleRate r now q) cs) as Hplay.
  { intros r now q Hbq Hcq.
    unfold handlePlay_begin, handlePlay_guarded, AudioPlayer.handlePlay,
      initAudio, spawn, start_source.
    rewrite Hbq, Hcq. simpl. by rewrite ?Hbq, ?Hcq, app_nil_r. }
  destruct e as [now| |now|id now]; simpl; [| done | | done].
  - destruct (isPlaying (state p)); [done|]. by apply Hplay.
  - destruct (timers p) as [|r rest]; [done|]. by apply Hplay.
Qed.

Lemma settled_step a fresh e :
  calls a = [] →
  run a (settled fresh e)
  = mkAsync (AudioPlayer.step decodeAudioData pcmData sampleRate (player a) e)
      [].
Proof.
  destruct a as [p cs]. simpl. intros ->.
  destruct e as [now| |now|id now]; simpl; [| done | | done].
  - destruct (isPlaying (state p)); [done|]. apply handlePlay_settles.
  - destruct (timers p) as [|r rest]; [done|]. apply handlePlay_settles.
Qed.

(** [AudioPlayer] is the player in which every call of [handlePlay] is run
    to its end before the next event. *)
Lemma settled_run fresh es a :
  calls a = [] →
  run a (es ≫= settled fresh)
  = mkAsync (AudioPlayer.run decodeAudioData pcmData sampleRate (player a) es)
      [].
Proof.
  revert a. induction es as [|e es IH]; intros a Hcs.
  - destruct a. simpl in *. by subst.
  - change ((e :: es) ≫= settled fresh)
      with (settled fresh e ++ (es ≫= settled fresh)).
    unfold AsyncPlayer.run. rewrite foldl_app.
    fold (run a (settled fresh e)). rewrite (settled_step a fresh e Hcs).
    exact (IH (mkAsync _ []) eq_refl).
Qed.

(** No node plays and the state says so: this stays as long as the nodes
    and the flag do. *)
Lemma single_voice_quiet a q cs :
  single_voice a → isPlaying (state (player a)) = false →
  nodes q = nodes (player a) → timers q = timers (player a) →
  isPlaying (state q) = false →
  (∀ k, k ∈ cs → isPlaying (render k) = false ∧ cs = [k]) →
  single_voice (mkAsync q cs).
Proof.
  intros (Htm & Hcl & Hpl & _) Hidle Hn Ht Hq Hcs.
  split; [simpl; congruence|]. split; [simpl; by rewrite Hn|]. split.
  - simpl. rewrite Hn. intros id n Hid Hp.
    destruct (Hpl id n Hid Hp) as [Htrue _]. congruence.
  - simpl. intros k Hk. destruct (Hcs k Hk). by split_and!.
Qed.

(** A node started while nothing plays is the one voice. *)
Lemma single_voice_start a r now q :
  single_voice a → isPlaying (state (player a)) = false →
  isPlaying r = false →
  nodes q = nodes (player a) → timers q = timers (player a) →
  single_voice (mkAsync (start_source r now q) []).
Proof.
  intros (Htm & Hcl & Hpl & _) Hidle Hr Hn Ht.
  split; [simpl; congruence|]. split; [|split].
  - simpl. rewrite Hn.
    intros j n [Hj|[_ Hj]]%lookup_app_Some; [by eauto|].
    destruct (j - length (nodes (player a)))%nat; simplify_eq/=. done.
  - simpl. rewrite Hn. intros j n [Hj|[Hge Hj]]%lookup_app_Some Hp.
    + destruct (Hpl j n Hj Hp) as [Htrue _]. congruence.
    + destruct (j - length (nodes (player a)))%nat eqn:Hk; simplify_eq/=.
      split; [done|]. f_equal. lia.
  - simpl. by intros k Hk%elem_of_nil.
Qed.

Lemma single_voice_begin a r fresh now q :
  single_voice a → isPlaying (state (player a)) = false →
  isPlaying r = false →
  nodes q = nodes (player a) → timers q = timers (player a) →
  state q = state (player a) →
  single_voice (spawn [] (handlePlay_begin r fresh now q)).
Proof.
  intros Hinv Hidle Hr Hn Ht Hs.
  assert (∀ st, single_voice (mkAsync q [mkCall r st])) as Hwait.
  { intros st. apply (single_voice_quiet a); [done..|congruence|].
    by intros k ->%list_elem_of_singleton. }
  unfold handlePlay_begin, handlePlay_guarded.
  destruct (audioBuffer q) as [b|] eqn:Hb.
  - destruct (audioContext q) as [[|]|] eqn:Hc; unfold spawn; simpl.
    + by apply (single_voice_start a).
    + apply Hwait.
    + apply (single_voice_quiet a); [done..|congruence|].
      by intros k Hk%elem_of_nil.
  - unfold spawn. simpl.
    apply (single_voice_quiet a); [done| done | done | done | |].
    + simpl. congruence.
    + by intros k ->%list_elem_of_singleton.
Qed.

Lemma single_voice_resume a k now :
  single_voice a → calls a = [k] →
  single_voice
    (spawn [] (handlePlay_resume decodeAudioData pcmData sampleRate k now
                 (player a))).
Proof.
  intros Hinv Hcs.
  destruct (proj2 (proj2 (proj2 Hinv)) k) as (Hr & Hidle & _).
  { rewrite Hcs. by apply list_elem_of_singleton. }
  unfold handlePlay_resume, handlePlay_guarded.
  destruct (stage k); unfold spawn; simpl.
  - apply (single_voice_quiet a); [done..|].
    by intros k' ->%list_elem_of_singleton.
  - destruct (audioContext (player a)) as [[|]|]; simpl.
    + by apply (single_voice_start a).
    + apply (single_voice_quiet a); [done..|].
      by intros k' ->%list_elem_of_singleton.
    + apply (single_voice_quiet a); [done..|].
      by intros k' Hk%elem_of_nil.
  - by apply (single_voice_start a).
Qed.

Lemma single_voice_step a e :
  single_voice a → patient a [e] → single_voice (step a e).
Proof.
  intros Hinv [He _]. pose proof Hinv as (Htm & Hcl & Hpl & Hcalls).
  destruct a as [p cs]. simpl in *.
  destruct e as [fresh now| |fresh now|id now|i now]; try done; simpl.
  - subst cs. destruct (isPlaying (state p)) eqn:Hplay.
    + unfold handlePause. destruct (sourceNode p) as [cur|] eqn:Hsrc;
        [|done].
      rewrite Hplay. unfold stop_current. rewrite Hsrc.
      split; [done|]. split; [|split].
      * simpl. intros j n Hn. rewrite list_lookup_alter in Hn.
        case_decide; [|by eauto]. subst.
        destruct (nodes p !! j) as [n0|] eqn:Hn0; simplify_eq/=. by eauto.
      * simpl. intros j n Hn Hp. rewrite list_lookup_alter in Hn.
        case_decide as Hj.
        -- subst. destruct (nodes p !! j) as [n0|]; simplify_eq/=.
        -- destruct (Hpl j n Hn Hp) as [_ Hcur]. congruence.
      * simpl. by intros k Hk%elem_of_nil.
    + by apply (single_voice_begin (mkAsync p [])).
  - unfold onended. destruct (nodes p !! id) as [n0|] eqn:Hn0; [|done].
    destruct (audioBuffer p) as [b|]; [|done].
    rewrite (Hcl id n0 Hn0).
    pose proof (lookup_lt_Some _ _ _ Hn0) as Hlt.
    split; [done|]. split; [|split].
    + simpl. intros j n Hn. destruct (decide (j = id)) as [->|Hne].
      * rewrite list_lookup_insert_eq in Hn by done. simplify_eq/=.
        by eauto.
      * rewrite list_lookup_insert_ne in Hn by done. by eauto.
    + simpl. intros j n Hn Hp. destruct (decide (j = id)) as [->|Hne].
      * rewrite list_lookup_insert_eq in Hn by done. by simplify_eq/=.
      * rewrite list_lookup_insert_ne in Hn by done. by eauto.
    + simpl. exact Hcalls.
  - destruct (cs !! i) as [k|] eqn:Hi; [|done].
    destruct (Hcalls k) as (_ & _ & ->); [by eapply list_elem_of_lookup_2|].
    destruct i as [|i]; [|done]. simpl.
    by apply (single_voice_resume (mkAsync p [k])).
Qed.

Lemma single_voice_run es a :
  single_voice a → patient a es → single_voice (run a es).
Proof.
  revert a. induction es as [|e es IH]; intros a Hinv Hes; [done|].
  destruct Hes as [He Hes]. simpl. apply IH; [|done].
  by apply single_voice_step.
Qed.

(** X14.  The player has one voice as long as the replay button is not used
    and the first button is not clicked while a call of [handlePlay] is
    suspended: after any such run of clicks, continuations and node ends, a
    node that is still playing is the current node and the button shows
    pause, so no two nodes play at the same time.  A second click on play
    while the first call waits for its decode starts a second node: both
    play, and the pause that follows stops the second only. *)
Theorem one_voice_without_replay :
  (∀ es, patient initial es →
     let p := player (run initial es) in
     (∀ id n, nodes p !! id = Some n → playing n = true →
        isPlaying (state p) = true ∧ sourceNode p = Some id) ∧
     (∀ i j ni nj, nodes p !! i = Some ni → nodes p !! j = Some nj →
        playing ni = true → playing nj = true → i = j)) ∧
  (∀ fresh t0 t1 t2 t3 t4,
     let both :=
       run initial [PlayPause fresh t0; PlayPause fresh t1;
                    Continue 0 t2; Continue 0 t2;
                    Continue 0 t3; Continue 0 t3] in
     playing <$> nodes (player both) = [true; true] ∧
     isPlaying (state (player both)) = true ∧
     playing <$> nodes (player (step both (PlayPause fresh t4)))
     = [true; false] ∧
     isPlaying (state (player (step both (PlayPause fresh t4)))) = false).
Proof.
  split.
  - intros es Hes p.
    assert (∀ id n, nodes p !! id = Some n → playing n = true →
              isPlaying (state p) = true ∧ sourceNode p = Some id) as Hone.
    { apply (single_voice_run es initial); [|done].
      split; [done|]. split; [|split].
      - intros id n Hn. by destruct id.
      - intros id n Hn. by destruct id.
      - by intros k Hk%elem_of_nil. }
    split; [done|]. intros i j ni nj Hi Hj Hpi Hpj.
    destruct (Hone i ni Hi Hpi) as [_ Hsi].
    destruct (Hone j nj Hj Hpj) as [_ Hsj]. congruence.
  - intros fresh t0 t1 t2 t3 t4. by destruct fresh.
Qed.

End AsyncPlayerFacts.

Section AsyncPlayerExamples.
Import AudioPlayer PlayerView AsyncPlayer.

(** A clip of ten samples played at 1 Hz: ten seconds. *)
Local Abbreviation pcm := (replicate 20 x00 : list byte).
Local Abbreviation run := (AsyncPlayer.run Pcm.decodeAudioData pcm 1).

(** Play, the decode completes, the clip ends, pause and play again: the
    second node is the one that plays. *)
Lemma one_voice_without_replay_witness :
  let p := player
             (run initial [PlayPause App.running (Q2Qc 0);
                           Continue 0 (Q2Qc 0); Ended 0 (Q2Qc 10);
                           PlayPause App.running (Q2Qc 12);
                           PlayPause App.running (Q2Qc 13)]) in
  isPlaying (state p) = true ∧ sourceNode p = Some 1%nat.
Proof.
  destruct (one_voice_without_replay Pcm.decodeAudioData pcm 1) as [H _].
  destruct (H [PlayPause App.running (Q2Qc 0);
               Continue 0 (Q2Qc 0); Ended 0 (Q2Qc 10);
               PlayPause App.running (Q2Qc 12);
               PlayPause App.running (Q2Qc 13)]) as [Hone _].
  - by vm_compute.
  - eapply (Hone 1%nat); [vm_compute; reflexivity | reflexivity].
Defined.

End AsyncPlayerExamples.
